(** * azure_rm_keyvault: the Key Vault reconciliation module

    A shallow embedding of [library/azure_rm_keyvault.py] and the
    properties of its parameter normaliser and of its reconciler.

    - Python values are a small JSON-like universe; dictionaries are
      [gmap string value], so two dictionaries with the same entries are
      equal, as in Python.
    - An [AzureRMVaults] object is a record of the attributes the module
      reads and writes.
    - Methods that only touch the object are state-and-exception
      functions ([Py]).  Methods that call the management client are
      interaction trees over the remote operations ([M]): every call to
      the client is a visible event that the environment answers, and the
      post-delete poll is a genuine unbounded loop ([ITree.iter]).
    - The behaviour of an invocation is the set of its finite runs
      ([runs]): the sequence of remote calls with their answers, the final
      object, and either the returned result or the raised exception. *)

From stdpp Require Import gmap strings list fin_maps.
From ITree Require Import ITree Eq.Shallow.
From Stdlib Require Import Eqdep.

Set Default Proof Using "Type".
#[local] Set Warnings "-register-all,-clear-no-such-hyp".

(* ================================================================== *)
(** * Python values *)
(* ================================================================== *)

(** The values that flow through the module: option values coming from
    the playbook ([str], [list] and [dict] options), the request payload,
    and the deserialised vault returned by [as_dict()]. *)
Inductive value : Type :=
| VNone
| VBool (b : bool)
| VStr (s : string)
| VList (l : list value)
| VDict (d : gmap string value).

Abbreviation dict := (gmap string value).

(** [bool(v)]: the truth value Python gives to [v] in [if v] and
    [not v]. *)
Definition truthy (v : value) : bool :=
  match v with
  | VNone => false
  | VBool b => b
  | VStr s => negb (String.eqb s "")
  | VList l => match l with [] => false | _ => true end
  | VDict d => negb (Nat.eqb (size d) 0)
  end.

(** [v is not None] *)
Definition is_not_None (v : value) : bool :=
  match v with
  | VNone => false
  | _ => true
  end.

(** [v1 == v2].  On this universe (no numbers) Python's equality is
    structural; on dictionaries it compares the key sets and then the
    values key by key. *)
Fixpoint value_eqb (v1 v2 : value) {struct v1} : bool :=
  match v1, v2 with
  | VNone, VNone => true
  | VBool a, VBool b => Bool.eqb a b
  | VStr a, VStr b => String.eqb a b
  | VList l1, VList l2 =>
      (fix list_eqb (l1 l2 : list value) : bool :=
         match l1, l2 with
         | [], [] => true
         | x :: l1, y :: l2 => value_eqb x y && list_eqb l1 l2
         | _, _ => false
         end) l1 l2
  | VDict d1, VDict d2 =>
      bool_decide (dom d1 = dom d2) &&
      map_fold (λ k x acc,
                 acc && match d2 !! k with
                        | Some y => value_eqb x y
                        | None => false
                        end) true d1
  | _, _ => false
  end.

(** A size measure, to reason by induction through the nested lists and
    dictionaries. *)
Fixpoint value_size (v : value) : nat :=
  match v with
  | VList l => S (foldr (λ x n, value_size x + n) 0 l)
  | VDict d => S (map_fold (λ _ x n, value_size x + n) 0 d)
  | _ => 1
  end.

(* ================================================================== *)
(** * Exceptions *)
(* ================================================================== *)

(** The exceptions that can travel through the module.  [CloudError] is
    the class the module catches around its client calls; [SystemExit]
    is what [self.fail(msg)] ends in ([fail_json] reports [msg] and
    exits); [OtherException] stands for an exception of any class that is
    not a [CloudError]. *)
Inductive exception : Type :=
| CloudError (msg : string)
| SystemExit (msg : string)
| KeyError (key : string)
| TypeError
| OtherException (msg : string).

(** [isinstance(exc, CloudError)], the test of [except CloudError]. *)
Definition isinstance_CloudError (exc : exception) : bool :=
  match exc with
  | CloudError _ => true
  | _ => false
  end.

(** [str(exc)] *)
Definition str (exc : exception) : string :=
  match exc with
  | CloudError msg => msg
  | SystemExit msg => msg
  | KeyError key => key
  | TypeError => "TypeError"
  | OtherException msg => msg
  end.

(* ================================================================== *)
(** * The module object *)
(* ================================================================== *)

(** [class Actions: NoAction, Create, Update, Delete = range(4)] *)
Inductive Actions : Type := NoAction | Create | Update | Delete.

#[global] Instance Actions_eq_dec : EqDecision Actions.
Proof. solve_decision. Defined.

(** The attributes of an [AzureRMVaults] instance that [exec_module]
    reads or writes.  [check_mode] is set by the base class from the
    invocation. *)
Record AzureRMVaults : Type := mkAzureRMVaults {
  resource_group : value;
  vault_name : value;
  parameters : dict;
  results : dict;
  mgmt_client : bool;
  state : value;
  to_do : Actions;
  check_mode : bool
}.

Definition set_resource_group (v : value) (self : AzureRMVaults) : AzureRMVaults :=
  mkAzureRMVaults v (vault_name self) (parameters self) (results self)
    (mgmt_client self) (state self) (to_do self) (check_mode self).

Definition set_vault_name (v : value) (self : AzureRMVaults) : AzureRMVaults :=
  mkAzureRMVaults (resource_group self) v (parameters self) (results self)
    (mgmt_client self) (state self) (to_do self) (check_mode self).

Definition set_parameters (p : dict) (self : AzureRMVaults) : AzureRMVaults :=
  mkAzureRMVaults (resource_group self) (vault_name self) p (results self)
    (mgmt_client self) (state self) (to_do self) (check_mode self).

Definition set_results (r : dict) (self : AzureRMVaults) : AzureRMVaults :=
  mkAzureRMVaults (resource_group self) (vault_name self) (parameters self) r
    (mgmt_client self) (state self) (to_do self) (check_mode self).

Definition set_mgmt_client (c : bool) (self : AzureRMVaults) : AzureRMVaults :=
  mkAzureRMVaults (resource_group self) (vault_name self) (parameters self)
    (results self) c (state self) (to_do self) (check_mode self).

Definition set_state (v : value) (self : AzureRMVaults) : AzureRMVaults :=
  mkAzureRMVaults (resource_group self) (vault_name self) (parameters self)
    (results self) (mgmt_client self) v (to_do self) (check_mode self).

Definition set_to_do (a : Actions) (self : AzureRMVaults) : AzureRMVaults :=
  mkAzureRMVaults (resource_group self) (vault_name self) (parameters self)
    (results self) (mgmt_client self) (state self) a (check_mode self).

(** [__init__]: the object as [exec_module] finds it.  [check] is the
    invocation's check mode (dry run). *)
Definition init (check : bool) : AzureRMVaults :=
  {| resource_group := VNone;
     vault_name := VNone;
     parameters := ∅;
     results := {[ "changed" := VBool false ]};
     mgmt_client := false;
     state := VNone;
     to_do := NoAction;
     check_mode := check |}.

(** The keys of [module_arg_spec], in the order they are declared. *)
Definition module_arg_spec_keys : list string :=
  [ "resource_group"; "vault_name"; "location"; "tenant_id"; "sku";
    "access_policies"; "vault_uri"; "enabled_for_deployment";
    "enabled_for_disk_encryption"; "enabled_for_template_deployment";
    "enable_soft_delete"; "create_mode"; "state" ].

(* ================================================================== *)
(** * Methods that only touch the object *)
(* ================================================================== *)

(** A computation on the object that returns a value or raises. *)
Definition Py (A : Type) : Type :=
  AzureRMVaults → AzureRMVaults * (exception + A).

#[global] Instance Py_ret : MRet Py := λ A a self, (self, inr a).

#[global] Instance Py_bind : MBind Py := λ A B k m self,
  match m self with
  | (self', inl exc) => (self', inl exc)
  | (self', inr a) => k a self'
  end.

Definition py_modify (f : AzureRMVaults → AzureRMVaults) : Py unit :=
  λ self, (f self, inr tt).

Definition py_raise {A} (exc : exception) : Py A :=
  λ self, (self, inl exc).

(** [d[key]] *)
Definition getitem (d : dict) (key : string) : Py value :=
  match d !! key with
  | Some v => mret v
  | None => py_raise (KeyError key)
  end.

(** [hasattr(self, key)] for the option names: [__init__] assigns
    [resource_group], [vault_name] and [state]; no other option name is
    an attribute of the object. *)
Definition hasattr (key : string) : bool :=
  bool_decide (key ∈ ["resource_group"; "vault_name"; "state"]).

(** [setattr(self, key, v)] *)
Definition setattr (key : string) (v : value) (self : AzureRMVaults) : AzureRMVaults :=
  if String.eqb key "resource_group" then set_resource_group v self
  else if String.eqb key "vault_name" then set_vault_name v self
  else if String.eqb key "state" then set_state v self
  else self.

(** [self.parameters.setdefault("properties", {})[name] = v] *)
Definition setdefault_properties (name : string) (v : value) : Py unit :=
  λ self,
    match parameters self !! "properties" with
    | None =>
        (set_parameters (<["properties" := VDict {[ name := v ]}]> (parameters self)) self,
         inr tt)
    | Some (VDict properties) =>
        (set_parameters
           (<["properties" := VDict (<[name := v]> properties)]> (parameters self)) self,
         inr tt)
    | Some _ => (self, inl TypeError)
    end.

(** One iteration of the loop over [module_arg_spec] (lines 225-247). *)
Definition exec_module_arg (kwargs : dict) (key : string) : Py unit :=
  if hasattr key then
    v ← getitem kwargs key;
    py_modify (setattr key v)
  else
    v ← getitem kwargs key;
    if is_not_None v then
      if String.eqb key "location" then
        py_modify (λ self, set_parameters (<["location" := v]> (parameters self)) self)
      else if String.eqb key "tenant_id" then
        setdefault_properties "tenant_id" v
      else if String.eqb key "sku" then
        setdefault_properties "sku" v
      else if String.eqb key "access_policies" then
        setdefault_properties "access_policies" v
      else if String.eqb key "vault_uri" then
        setdefault_properties "vault_uri" v
      else if String.eqb key "enabled_for_deployment" then
        setdefault_properties "enabled_for_deployment" v
      else if String.eqb key "enabled_for_disk_encryption" then
        setdefault_properties "enabled_for_disk_encryption" v
      else if String.eqb key "enabled_for_template_deployment" then
        setdefault_properties "enabled_for_template_deployment" v
      else if String.eqb key "enable_soft_delete" then
        setdefault_properties "enable_soft_delete" v
      else if String.eqb key "create_mode" then
        setdefault_properties "create_mode" v
      else mret tt
    else mret tt.

(** [for key in keys: body(key)] *)
Fixpoint for_in (keys : list string) (body : string → Py unit) : Py unit :=
  match keys with
  | [] => mret tt
  | key :: keys => body key ;; for_in keys body
  end.

(** [rename_key(d, old_name, new_name)]: the helper the module defines
    for moving a field; it returns the dictionary it leaves in [d]. *)
Definition rename_key (d : dict) (old_name new_name : string) : dict :=
  match d !! old_name with
  | Some old_value =>
      if is_not_None old_value
      then <[new_name := old_value]> (delete old_name d)
      else d
  | None => d
  end.

(** [adjust_parameters]: the test looks for [access_policies] at the top
    level of [self.parameters]; the block under it holds four comments
    and no statement, and [rename_key] is not called. *)
Definition adjust_parameters : Py unit :=
  λ self,
    match parameters self !! "access_policies" with
    | Some v => if is_not_None v then (self, inr tt) else (self, inr tt)
    | None => (self, inr tt)
    end.

(** The parameter normaliser: the first part of [exec_module], up to and
    including the call of [adjust_parameters] (lines 224-249). *)
Definition normalize (kwargs : dict) : Py unit :=
  for_in module_arg_spec_keys (exec_module_arg kwargs) ;;
  adjust_parameters.

(* ================================================================== *)
(** * Remote operations *)
(* ================================================================== *)

(** What [get_resource_group] returns; the module reads its
    [location]. *)
Record ResourceGroup : Type := { rg_location : value }.

(** What [vaults.create_or_update] returns: the vault (given by its
    [as_dict()]), or an [AzureOperationPoller] to wait on. *)
Inductive create_or_update_response : Type :=
| Vault (as_dict : dict)
| AzureOperationPoller (handle : nat).

(** The calls that leave the module.  Each one is answered by the
    environment; a call that can raise is answered by the exception or by
    the value.  A vault is given by its [as_dict()]. *)
Variant remoteE : Type → Type :=
| get_resource_group (name : value) :
    remoteE (exception + ResourceGroup)
| vaults_get (resource_group_name vault_name : value) :
    remoteE (exception + dict)
| vaults_create_or_update (resource_group_name vault_name : value) (payload : dict) :
    remoteE (exception + create_or_update_response)
| get_poller_result (handle : nat) :
    remoteE (exception + dict)
| vaults_delete (resource_group_name vault_name : value) :
    remoteE (exception + unit)
| time_sleep (seconds : nat) :
    remoteE unit.

(** A method that may call out: from the object, an interaction tree
    that ends with the object and the value returned or the exception
    raised. *)
Definition M (A : Type) : Type :=
  AzureRMVaults → itree remoteE (AzureRMVaults * (exception + A)).

#[global] Instance M_ret : MRet M := λ A a self, Ret (self, inr a).

#[global] Instance M_bind : MBind M := λ A B k m self,
  ITree.bind (m self)
    (λ r, match r with
          | (self', inl exc) => Ret (self', inl exc)
          | (self', inr a) => k a self'
          end).

Definition lift {A} (p : Py A) : M A := λ self, Ret (p self).

Definition get_self : M AzureRMVaults := λ self, Ret (self, inr self).

Definition modify (f : AzureRMVaults → AzureRMVaults) : M unit :=
  λ self, Ret (f self, inr tt).

Definition raise {A} (exc : exception) : M A := λ self, Ret (self, inl exc).

(** A call that may raise: the answer is the outcome. *)
Definition remote {X} (e : remoteE (exception + X)) : M X :=
  λ self, Vis e (λ answer, Ret (self, answer)).

(** [time.sleep(seconds)] *)
Definition sleep (seconds : nat) : M unit :=
  λ self, Vis (time_sleep seconds) (λ _, Ret (self, inr tt)).

(** [try: body / except CloudError as exc: handler(exc)] *)
Definition try_except_CloudError {A} (body : M A) (handler : exception → M A) : M A :=
  λ self,
    ITree.bind (body self)
      (λ r, match r with
            | (self', inl exc) =>
                if isinstance_CloudError exc then handler exc self'
                else Ret (self', inl exc)
            | (self', inr a) => Ret (self', inr a)
            end).

(** [while cond(): body()] *)
Definition while (cond : M value) (body : M unit) : M unit :=
  λ self,
    ITree.iter
      (λ self,
         ITree.bind (cond self)
           (λ r, match r with
                 | (self', inl exc) => Ret (inr (self', inl exc))
                 | (self', inr v) =>
                     if truthy v then
                       ITree.bind (body self')
                         (λ r', match r' with
                                | (self'', inl exc) => Ret (inr (self'', inl exc))
                                | (self'', inr _) => Ret (inl self'')
                                end)
                     else Ret (inr (self', inr tt))
                 end))
      self.

(** [self.fail(msg)]: [fail_json] reports [msg] and exits. *)
Definition fail {A} (msg : string) : M A := raise (SystemExit msg).

(** [v[key]] *)
Definition subscript (v : value) (key : string) : M value :=
  match v with
  | VDict d =>
      match d !! key with
      | Some x => mret x
      | None => raise (KeyError key)
      end
  | _ => raise TypeError
  end.

(** [self.results[key] = v] *)
Definition set_result (key : string) (v : value) : M unit :=
  modify (λ self, set_results (<[key := v]> (results self)) self).

(** [return self.results] *)
Definition return_results : M dict :=
  self ← get_self;
  mret (results self).

(* ================================================================== *)
(** * Methods that call the management client *)
(* ================================================================== *)

(** The calls of [self.log] are left out: they write to the log and
    touch neither the object nor the vault. *)

(** [get_keyvault] (lines 363-382): the vault's [as_dict()], or
    [False]. *)
Definition get_keyvault : M value :=
  self ← get_self;
  found ← try_except_CloudError
             (response ← remote (vaults_get (resource_group self) (vault_name self));
              mret (Some response))
             (λ e, mret None);
  match found with
  | Some response => mret (VDict response)
  | None => mret (VBool false)
  end.

(** [create_update_keyvault] (lines 327-345) *)
Definition create_update_keyvault : M value :=
  self ← get_self;
  response ← try_except_CloudError
                (response ← remote (vaults_create_or_update
                                      (resource_group self) (vault_name self)
                                      (parameters self));
                 match response with
                 | AzureOperationPoller handle => remote (get_poller_result handle)
                 | Vault d => mret d
                 end)
                (λ exc,
                   fail ("Error creating the Key Vault instance: " +:+ str exc));
  mret (VDict response).

(** [delete_keyvault] (lines 347-361) *)
Definition delete_keyvault : M value :=
  self ← get_self;
  try_except_CloudError
    (remote (vaults_delete (resource_group self) (vault_name self)))
    (λ e, fail ("Error deleting the Key Vault instance: " +:+ str e)) ;;
  mret (VBool true).

(** The end of [exec_module] (lines 309-312), reached by every path that
    does not return early. *)
Definition exec_module_end (response : value) : M dict :=
  (if truthy response then
     id ← subscript response "id";
     set_result "id" id
   else mret tt) ;;
  return_results.

(** The default of [location] (lines 259-260), from the resource group
    that was looked up. *)
Definition default_location (rg : ResourceGroup) : Py unit :=
  λ self,
    match parameters self !! "location" with
    | None =>
        (set_parameters (<["location" := rg_location rg]> (parameters self)) self,
         inr tt)
    | Some _ => (self, inr tt)
    end.

(** The choice of the action (lines 264-276). *)
Definition select_action (old_response : value) : Py unit :=
  λ self,
    if negb (truthy old_response) then
      if value_eqb (state self) (VStr "absent") then (self, inr tt)
      else (set_to_do Create self, inr tt)
    else
      if value_eqb (state self) (VStr "absent") then (set_to_do Delete self, inr tt)
      else if value_eqb (state self) (VStr "present") then (set_to_do Update self, inr tt)
      else (self, inr tt).

(** The action is carried out (lines 278-312).  The two early
    [return self.results] of check mode end their branch; the other paths
    go on to [exec_module_end] with the local [response]. *)
Definition dispatch (old_response : value) : M dict :=
  self ← get_self;
  if bool_decide (to_do self = Create) || bool_decide (to_do self = Update) then
    if check_mode self then
      set_result "changed" (VBool true) ;;
      return_results
    else
      response ← create_update_keyvault;
      (if negb (truthy old_response) then
         set_result "changed" (VBool true)
       else
         set_result "changed" (VBool (negb (value_eqb old_response response)))) ;;
      exec_module_end response
  else if bool_decide (to_do self = Delete) then
    set_result "changed" (VBool true) ;;
    if check_mode self then
      return_results
    else
      delete_keyvault ;;
      while get_keyvault (sleep 20) ;;
      exec_module_end VNone
  else
    set_result "changed" (VBool false) ;;
    exec_module_end old_response.

(** [exec_module] (lines 221-312): the options are normalised into the
    payload, the client is built, the resource group is looked up and
    gives the default location, the vault is fetched, the action is
    chosen and carried out. *)
Definition exec_module (kwargs : dict) : M dict :=
  lift (normalize kwargs) ;;
  modify (set_mgmt_client true) ;;
  self ← get_self;
  rg ← remote (get_resource_group (resource_group self));
  lift (default_location rg) ;;
  old_response ← get_keyvault;
  lift (select_action old_response) ;;
  dispatch old_response.

(* ================================================================== *)
(** * Runs *)
(* ================================================================== *)

(** One remote call together with the answer it got. *)
Inductive event : Type :=
| Event : ∀ X : Type, remoteE X → X → event.
Arguments Event {X} e answer.

(** [runsF ot tr r]: the tree observed as [ot] has a finite run that
    makes the calls of [tr], gets the answers recorded there, and ends
    with [r]. *)
Inductive runsF {R : Type} : itree' remoteE R → list event → R → Prop :=
| runs_Ret r :
    runsF (RetF r) [] r
| runs_Tau t tr r :
    runsF (observe t) tr r →
    runsF (TauF t) tr r
| runs_Vis {X} (e : remoteE X) (k : X → itree remoteE R) answer tr r :
    runsF (observe (k answer)) tr r →
    runsF (VisF e k) (Event e answer :: tr) r.

Definition runs {R : Type} (t : itree remoteE R) : list event → R → Prop :=
  runsF (observe t).

(** An invocation: [exec_module] on a fresh object. *)
Definition invocation (kwargs : dict) (check : bool) :
    itree remoteE (AzureRMVaults * (exception + dict)) :=
  exec_module kwargs (init check).

(** ** Reading a trace *)

Definition is_create_or_update (ev : event) : bool :=
  match ev with
  | Event e _ =>
      match e with
      | vaults_create_or_update _ _ _ => true
      | _ => false
      end
  end.

Definition is_delete (ev : event) : bool :=
  match ev with
  | Event e _ =>
      match e with
      | vaults_delete _ _ => true
      | _ => false
      end
  end.

(** The calls that change the vault. *)
Definition is_mutating (ev : event) : bool :=
  is_create_or_update ev || is_delete ev.

(** How many calls of a kind a trace holds. *)
Definition calls (kind : event → bool) (tr : list event) : nat :=
  length (List.filter kind tr).

(* ================================================================== *)
(** * What the host framework and the claims speak of *)
(* ================================================================== *)

(** Ansible hands [exec_module] a value ([None] when the option is not
    given) for every option of [module_arg_spec]. *)
Definition ansible_params (kwargs : dict) : Prop :=
  ∀ key, key ∈ module_arg_spec_keys → is_Some (kwargs !! key).

(** The options that go under [properties]. *)
Definition property_keys : list string :=
  [ "tenant_id"; "sku"; "access_policies"; "vault_uri";
    "enabled_for_deployment"; "enabled_for_disk_encryption";
    "enabled_for_template_deployment"; "enable_soft_delete"; "create_mode" ].

(** The value of an option, [None] included. *)
Definition option_value (kwargs : dict) (key : string) : value :=
  default VNone (kwargs !! key).

(** An option that is given: present and not [None]. *)
Definition given (kwargs : dict) (key : string) : option value :=
  match kwargs !! key with
  | Some v => if is_not_None v then Some v else None
  | None => None
  end.

(** ** The normalised object in closed form

    These functions describe, without running the loop, the object the
    normaliser leaves; the loop is proved to compute them. *)

(** A payload with top-level [location] [loc] (when there is one) and a
    [properties] container holding [props] (when there is something to
    hold). *)
Definition payload_of (loc : option value) (props : dict) : dict :=
  let top : dict :=
    match loc with
    | Some v => {[ "location" := v ]}
    | None => ∅
    end in
  if decide (props = ∅) then top else <["properties" := VDict props]> top.

(** The given options among [seen] that go under [properties]. *)
Definition properties_seen (kwargs : dict) (seen : list string) : dict :=
  filter (λ kv, kv.1 ∈ seen ∧ kv.1 ∈ property_keys ∧ is_not_None kv.2) kwargs.

Definition attr_seen (kwargs : dict) (seen : list string) (name : string) : value :=
  if bool_decide (name ∈ seen) then option_value kwargs name else VNone.

Definition location_seen (kwargs : dict) (seen : list string) : option value :=
  if bool_decide ("location" ∈ seen) then given kwargs "location" else None.

(** The object once the loop has gone through the options [seen]. *)
Definition after_args (kwargs : dict) (check : bool) (seen : list string) : AzureRMVaults :=
  {| resource_group := attr_seen kwargs seen "resource_group";
     vault_name := attr_seen kwargs seen "vault_name";
     parameters := payload_of (location_seen kwargs seen) (properties_seen kwargs seen);
     results := {[ "changed" := VBool false ]};
     mgmt_client := false;
     state := attr_seen kwargs seen "state";
     to_do := NoAction;
     check_mode := check |}.

(** The given options that go under [properties]. *)
Definition properties_of (kwargs : dict) : dict :=
  filter (λ kv, kv.1 ∈ property_keys ∧ is_not_None kv.2) kwargs.

(** The object the normaliser leaves. *)
Definition normalized (kwargs : dict) (check : bool) : AzureRMVaults :=
  {| resource_group := option_value kwargs "resource_group";
     vault_name := option_value kwargs "vault_name";
     parameters := payload_of (given kwargs "location") (properties_of kwargs);
     results := {[ "changed" := VBool false ]};
     mgmt_client := false;
     state := option_value kwargs "state";
     to_do := NoAction;
     check_mode := check |}.

(** ** The methods in closed form *)

(** What [get_keyvault] makes of the answer of [vaults.get]. *)
Definition get_keyvault_result (answer : exception + dict) : exception + value :=
  match answer with
  | inl exc => if isinstance_CloudError exc then inr (VBool false) else inl exc
  | inr d => inr (VDict d)
  end.

(** What an [except CloudError] clause that calls [self.fail] makes of
    an exception raised under it. *)
Definition fail_on_CloudError (context : string) (exc : exception) : exception :=
  if isinstance_CloudError exc then SystemExit (context +:+ str exc) else exc.

(** The [vaults.get] call of an object. *)
Definition get_call (self : AzureRMVaults) : remoteE (exception + dict) :=
  vaults_get (resource_group self) (vault_name self).

(** The [vaults.create_or_update] call of an object. *)
Definition create_or_update_call (self : AzureRMVaults) :
    remoteE (exception + create_or_update_response) :=
  vaults_create_or_update (resource_group self) (vault_name self) (parameters self).

(** The [vaults.delete] call of an object. *)
Definition delete_call (self : AzureRMVaults) : remoteE (exception + unit) :=
  vaults_delete (resource_group self) (vault_name self).

(** The answer of [vaults.get] says the vault is there: [get_keyvault]
    returns a true value. *)
Definition reports_present (answer : exception + dict) : Prop :=
  match get_keyvault_result answer with
  | inr v => truthy v = true
  | inl _ => False
  end.

(** The answer of [vaults.get] says the vault is not there:
    [get_keyvault] returns a false value. *)
Definition reports_absent (answer : exception + dict) : Prop :=
  match get_keyvault_result answer with
  | inr v => truthy v = false
  | inl _ => False
  end.

(** The calls of the poll after a delete: a [vaults.get] and a sleep of
    20 seconds for every answer of [present], then the [vaults.get] that
    gets the answer [last]. *)
Fixpoint polls (get : remoteE (exception + dict)) (present : list (exception + dict))
    (last : exception + dict) : list event :=
  match present with
  | [] => [Event get last]
  | answer :: present =>
      Event get answer :: Event (time_sleep 20) tt :: polls get present last
  end.

(** ** The object along [exec_module] *)

(** The object when the resource group is looked up: normalised, with
    the client built. *)
Definition prepared (kwargs : dict) (check : bool) : AzureRMVaults :=
  set_mgmt_client true (normalized kwargs check).

(** The object when the vault is fetched: [location] has its default. *)
Definition located (kwargs : dict) (check : bool) (rg : ResourceGroup) : AzureRMVaults :=
  (default_location rg (prepared kwargs check)).1.

(** The object when the action is carried out. *)
Definition decided (kwargs : dict) (check : bool) (rg : ResourceGroup)
    (old_response : value) : AzureRMVaults :=
  (select_action old_response (located kwargs check rg)).1.

(** The lookup of the resource group of an invocation. *)
Definition lookup_call (kwargs : dict) : remoteE (exception + ResourceGroup) :=
  get_resource_group (option_value kwargs "resource_group").

(** The [vaults.get] call of an invocation. *)
Definition fetch_call (kwargs : dict) : remoteE (exception + dict) :=
  vaults_get (option_value kwargs "resource_group") (option_value kwargs "vault_name").

(** [self.results['changed'] = b] *)
Definition with_changed (b : bool) (self : AzureRMVaults) : AzureRMVaults :=
  set_results (<["changed" := VBool b]> (results self)) self.

(** What the end of [exec_module] returns, and the object it leaves. *)
Definition exec_module_end_result (response : value) (self : AzureRMVaults) :
    AzureRMVaults * (exception + dict) :=
  if truthy response then
    match response with
    | VDict d =>
        match d !! "id" with
        | Some id =>
            (set_results (<["id" := id]> (results self)) self,
             inr (<["id" := id]> (results self)))
        | None => (self, inl (KeyError "id"))
        end
    | _ => (self, inl TypeError)
    end
  else (self, inr (results self)).

(** The value of [changed] after a create or an update. *)
Definition changed_after (old_response response : value) : bool :=
  if negb (truthy old_response) then true
  else negb (value_eqb old_response response).

(** The action [select_action] leaves in [to_do], starting from
    [NoAction]. *)
Definition selected (old_response desired : value) : Actions :=
  if truthy old_response then
    if value_eqb desired (VStr "absent") then Delete
    else if value_eqb desired (VStr "present") then Update
    else NoAction
  else
    if value_eqb desired (VStr "absent") then NoAction
    else Create.

(** ** What a trace shows *)

(** The answer of the first [vaults.get] of a trace: the observed state
    the invocation starts from. *)
Fixpoint fetched (tr : list event) : option (exception + dict) :=
  match tr with
  | [] => None
  | Event e answer :: tr =>
      match e in remoteE X return X → option (exception + dict) with
      | vaults_get _ _ => λ answer, Some answer
      | _ => λ _, fetched tr
      end answer
  end.

(** The answer of the lookup of the resource group. *)
Fixpoint looked_up (tr : list event) : option (exception + ResourceGroup) :=
  match tr with
  | [] => None
  | Event e answer :: tr =>
      match e in remoteE X return X → option (exception + ResourceGroup) with
      | get_resource_group _ => λ answer, Some answer
      | _ => λ _, looked_up tr
      end answer
  end.

(** The payloads of the [vaults.create_or_update] calls. *)
Fixpoint payloads (tr : list event) : list dict :=
  match tr with
  | [] => []
  | Event e _ :: tr =>
      match e with
      | vaults_create_or_update _ _ payload => payload :: payloads tr
      | _ => payloads tr
      end
  end.

(** The vault a create-or-update handed back, at once or through its
    poller. *)
Fixpoint created (tr : list event) : option dict :=
  match tr with
  | [] => None
  | Event e answer :: tr =>
      match e in remoteE X return X → option dict with
      | vaults_create_or_update _ _ _ =>
          λ answer, match answer with
                    | inr (Vault d) => Some d
                    | _ => created tr
                    end
      | get_poller_result _ =>
          λ answer, match answer with
                    | inr d => Some d
                    | inl _ => created tr
                    end
      | _ => λ _, created tr
      end answer
  end.

(** ** Concrete invocations *)

(** The options of
    [resource_group=rg1 vault_name=kv1 sku={family: A, name: standard}]
    with the given [state], [location] and [access_policies]. *)
Definition options (desired location access_policies : value) : dict :=
  list_to_map
    [ ("resource_group", VStr "rg1"); ("vault_name", VStr "kv1");
      ("location", location); ("tenant_id", VNone);
      ("sku", VDict (list_to_map [("family", VStr "A"); ("name", VStr "standard")]));
      ("access_policies", access_policies); ("vault_uri", VNone);
      ("enabled_for_deployment", VNone); ("enabled_for_disk_encryption", VNone);
      ("enabled_for_template_deployment", VNone); ("enable_soft_delete", VNone);
      ("create_mode", VNone); ("state", desired) ].

Definition rg1 : ResourceGroup := {| rg_location := VStr "westeurope" |}.

(** A vault as the service reports it. *)
Definition kv1 (sku_name : string) : dict :=
  list_to_map
    [ ("id", VStr "/subscriptions/s/resourceGroups/rg1/providers/Microsoft.KeyVault/vaults/kv1");
      ("name", VStr "kv1"); ("location", VStr "westeurope");
      ("properties",
       VDict (list_to_map
                [("sku", VDict (list_to_map [("family", VStr "A");
                                             ("name", VStr sku_name)]))])) ].

(* ================================================================== *)
(** * Playing an invocation against scripted answers *)
(* ================================================================== *)

(** The answers of the environment, call by call: one answer for the
    lookup of the resource group, for [vaults.create_or_update], for the
    poller and for [vaults.delete]; for [vaults.get], a list of answers
    taken in order (and a [CloudError] once it is used up). *)
Record script : Type := {
  on_lookup : exception + ResourceGroup;
  on_get : list (exception + dict);
  on_create_or_update : exception + create_or_update_response;
  on_poller : exception + dict;
  on_delete : exception + unit
}.

Definition answer_of (s : script) {X} (e : remoteE X) : X * script :=
  match e in remoteE X return X * script with
  | get_resource_group _ => (on_lookup s, s)
  | vaults_get _ _ =>
      match on_get s with
      | answer :: rest =>
          (answer,
           {| on_lookup := on_lookup s; on_get := rest;
              on_create_or_update := on_create_or_update s;
              on_poller := on_poller s; on_delete := on_delete s |})
      | [] => (inl (CloudError "not found"), s)
      end
  | vaults_create_or_update _ _ _ => (on_create_or_update s, s)
  | get_poller_result _ => (on_poller s, s)
  | vaults_delete _ _ => (on_delete s, s)
  | time_sleep _ => (tt, s)
  end.

(** Run a tree against a script, for at most [fuel] steps: the trace and
    the result, or [None] when the fuel runs out first. *)
Fixpoint play {R} (fuel : nat) (s : script) (t : itree remoteE R) :
    option (list event * R) :=
  match fuel with
  | 0 => None
  | S fuel =>
      match observe t with
      | RetF r => Some ([], r)
      | TauF t' => play fuel s t'
      | VisF e k =>
          let '(answer, s') := answer_of s e in
          match play fuel s' (k answer) with
          | Some (tr, r) => Some (Event e answer :: tr, r)
          | None => None
          end
      end
  end.

(** ** Scenarios *)

Definition kw_present : dict := options (VStr "present") VNone VNone.
Definition kw_absent : dict := options (VStr "absent") VNone VNone.

Definition lookup_rg1 : event := Event (get_resource_group (VStr "rg1")) (inr rg1).

Definition get_kv1 : remoteE (exception + dict) :=
  vaults_get (VStr "rg1") (VStr "kv1").

Definition delete_kv1 : remoteE (exception + unit) :=
  vaults_delete (VStr "rg1") (VStr "kv1").

(** The payload sent for [kw_present]. *)
Definition payload_kv1 : dict :=
  list_to_map
    [ ("location", VStr "westeurope");
      ("properties",
       VDict (list_to_map
                [("sku", VDict (list_to_map [("family", VStr "A");
                                             ("name", VStr "standard")]))])) ].

Definition create_or_update_kv1 : remoteE (exception + create_or_update_response) :=
  vaults_create_or_update (VStr "rg1") (VStr "kv1") payload_kv1.

(** The vault is there, is deleted, is still reported once, and is then
    reported gone. *)
Definition script_delete : script :=
  {| on_lookup := inr rg1;
     on_get := [inr (kv1 "standard"); inr (kv1 "standard"); inl (CloudError "not found")];
     on_create_or_update := inl (CloudError "unused");
     on_poller := inl (CloudError "unused");
     on_delete := inr tt |}.

Definition trace_delete : list event :=
  [ lookup_rg1;
    Event get_kv1 (inr (kv1 "standard"));
    Event delete_kv1 (inr tt);
    Event get_kv1 (inr (kv1 "standard"));
    Event (time_sleep 20) tt;
    Event get_kv1 (inl (CloudError "not found")) ].

Definition final_delete : AzureRMVaults :=
  with_changed true (decided kw_absent false rg1 (VDict (kv1 "standard"))).

(** An access policy as the playbook gives it: the permissions to keys
    are the field [keys] of the entry. *)
Definition policy_entry : dict :=
  list_to_map
    [ ("tenant_id", VStr "72f988bf"); ("object_id", VStr "99998888");
      ("keys", VList [VStr "get"; VStr "list"]) ].

Definition kw_policy : dict :=
  options (VStr "present") VNone (VList [VDict policy_entry]).

Definition result_create : dict :=
  list_to_map
    [ ("changed", VBool true);
      ("id", VStr "/subscriptions/s/resourceGroups/rg1/providers/Microsoft.KeyVault/vaults/kv1") ].

(** The vault is not there and is created. *)
Definition script_create : script :=
  {| on_lookup := inr rg1;
     on_get := [inl (CloudError "not found")];
     on_create_or_update := inr (Vault (kv1 "standard"));
     on_poller := inl (CloudError "unused");
     on_delete := inl (CloudError "unused") |}.

(** The payload sent for [kw_policy]. *)
Definition payload_policy : dict :=
  list_to_map
    [ ("location", VStr "westeurope");
      ("properties",
       VDict (list_to_map
                [("sku", VDict (list_to_map [("family", VStr "A");
                                             ("name", VStr "standard")]));
                 ("access_policies", VList [VDict policy_entry])])) ].

Definition trace_policy : list event :=
  [ lookup_rg1;
    Event get_kv1 (inl (CloudError "not found"));
    Event (vaults_create_or_update (VStr "rg1") (VStr "kv1") payload_policy)
      (inr (Vault (kv1 "standard"))) ].

Definition final_policy : AzureRMVaults :=
  (exec_module_end_result (VDict (kv1 "standard"))
     (with_changed true (decided kw_policy false rg1 (VBool false)))).1.

Definition trace_create : list event :=
  [ lookup_rg1;
    Event get_kv1 (inl (CloudError "not found"));
    Event create_or_update_kv1 (inr (Vault (kv1 "standard"))) ].

Definition final_create : AzureRMVaults :=
  (exec_module_end_result (VDict (kv1 "standard"))
     (with_changed true (decided kw_present false rg1 (VBool false)))).1.

(** The vault is not there and is not wanted; the lookup of the resource
    group fails. *)
Definition script_no_group : script :=
  {| on_lookup := inl (SystemExit "Parameter error: resource group rg1 not found");
     on_get := [];
     on_create_or_update := inl (CloudError "unused");
     on_poller := inl (CloudError "unused");
     on_delete := inl (CloudError "unused") |}.

Definition trace_no_group : list event :=
  [ Event (get_resource_group (VStr "rg1"))
      (inl (SystemExit "Parameter error: resource group rg1 not found")) ].

(** The vault is there, with a premium SKU, and [state] is [present]. *)
Definition script_update : script :=
  {| on_lookup := inr rg1;
     on_get := [inr (kv1 "premium")];
     on_create_or_update := inr (Vault (kv1 "standard"));
     on_poller := inl (CloudError "unused");
     on_delete := inl (CloudError "unused") |}.

Definition trace_update : list event :=
  [ lookup_rg1;
    Event get_kv1 (inr (kv1 "premium"));
    Event create_or_update_kv1 (inr (Vault (kv1 "standard"))) ].

Definition final_update : AzureRMVaults :=
  (exec_module_end_result (VDict (kv1 "standard"))
     (with_changed true (decided kw_present false rg1 (VDict (kv1 "premium"))))).1.

(** The same in check mode: the trace stops after the fetch. *)
Definition trace_check : list event :=
  [ lookup_rg1; Event get_kv1 (inr (kv1 "premium")) ].

Definition final_check : AzureRMVaults :=
  with_changed true (decided kw_present true rg1 (VDict (kv1 "premium"))).

(** The fetch of the vault fails with an exception that is not a
    [CloudError]. *)
Definition script_get_broken : script :=
  {| on_lookup := inr rg1;
     on_get := [inl (OtherException "connection reset")];
     on_create_or_update := inl (CloudError "unused");
     on_poller := inl (CloudError "unused");
     on_delete := inl (CloudError "unused") |}.

Definition trace_get_broken : list event :=
  [ lookup_rg1; Event get_kv1 (inl (OtherException "connection reset")) ].

(** The fetch of the vault fails with a [CloudError]; [state] is
    [absent]. *)
Definition script_not_found : script :=
  {| on_lookup := inr rg1;
     on_get := [inl (CloudError "not found")];
     on_create_or_update := inl (CloudError "unused");
     on_poller := inl (CloudError "unused");
     on_delete := inl (CloudError "unused") |}.

Definition trace_not_found : list event :=
  [ lookup_rg1; Event get_kv1 (inl (CloudError "not found")) ].

Definition final_not_found : AzureRMVaults :=
  with_changed false (decided kw_absent false rg1 (VBool false)).

(** A call that changes the vault and raised: the words the module puts
    before the cause when it reports the failure, and the exception. *)
Definition failed_operation (ev : event) : option (string * exception) :=
  match ev with
  | Event e answer =>
      match e in remoteE X return X → option (string * exception) with
      | vaults_create_or_update _ _ _ =>
          λ answer, match answer with
                    | inl exc => Some ("Error creating the Key Vault instance: ", exc)
                    | inr _ => None
                    end
      | get_poller_result _ =>
          λ answer, match answer with
                    | inl exc => Some ("Error creating the Key Vault instance: ", exc)
                    | inr _ => None
                    end
      | vaults_delete _ _ =>
          λ answer, match answer with
                    | inl exc => Some ("Error deleting the Key Vault instance: ", exc)
                    | inr _ => None
                    end
      | _ => λ _, None
      end answer
  end.

(** The create-or-update is refused by the service. *)
Definition script_create_refused : script :=
  {| on_lookup := inr rg1;
     on_get := [inl (CloudError "not found")];
     on_create_or_update := inl (CloudError "quota exceeded");
     on_poller := inl (CloudError "unused");
     on_delete := inl (CloudError "unused") |}.

Definition trace_create_refused : list event :=
  [ lookup_rg1;
    Event get_kv1 (inl (CloudError "not found"));
    Event create_or_update_kv1 (inl (CloudError "quota exceeded")) ].

Definition final_create_refused : AzureRMVaults :=
  decided kw_present false rg1 (VBool false).

(** The create-or-update fails with an exception that is not a
    [CloudError]. *)
Definition script_create_broken : script :=
  {| on_lookup := inr rg1;
     on_get := [inl (CloudError "not found")];
     on_create_or_update := inl (OtherException "connection reset");
     on_poller := inl (CloudError "unused");
     on_delete := inl (CloudError "unused") |}.

Definition trace_create_broken : list event :=
  [ lookup_rg1;
    Event get_kv1 (inl (CloudError "not found"));
    Event create_or_update_kv1 (inl (OtherException "connection reset")) ].

(* ================================================================== *)
(** * More to read from a run *)
(* ================================================================== *)

(** The operation an event calls, by the name it has in the module. *)
Definition operation (ev : event) : string :=
  match ev with
  | Event e _ =>
      match e with
      | get_resource_group _ => "get_resource_group"
      | vaults_get _ _ => "vaults.get"
      | vaults_create_or_update _ _ _ => "vaults.create_or_update"
      | get_poller_result _ => "get_poller_result"
      | vaults_delete _ _ => "vaults.delete"
      | time_sleep _ => "time.sleep"
      end
  end.

(** The payload of the options [kwargs] once [location] has its default
    from the resource group [rg]. *)
Definition payload_sent (kwargs : dict) (rg : ResourceGroup) : dict :=
  payload_of (Some (default (rg_location rg) (given kwargs "location")))
    (properties_of kwargs).

(** An event of the trace [tr] is aimed at the resource group and the
    vault that the options [kwargs] name: the lookup names the group, the
    calls on the vault name the group and the vault, a create-or-update
    sends the payload of the options, and a sleep lasts 20 seconds. *)
Definition aimed (kwargs : dict) (tr : list event) (ev : event) : Prop :=
  match ev with
  | Event e _ =>
      match e with
      | get_resource_group name =>
          name = option_value kwargs "resource_group"
      | vaults_get rg name =>
          rg = option_value kwargs "resource_group" ∧
          name = option_value kwargs "vault_name"
      | vaults_create_or_update rg name payload =>
          rg = option_value kwargs "resource_group" ∧
          name = option_value kwargs "vault_name" ∧
          ∃ group, looked_up tr = Some (inr group) ∧ payload = payload_sent kwargs group
      | get_poller_result _ => True
      | vaults_delete rg name =>
          rg = option_value kwargs "resource_group" ∧
          name = option_value kwargs "vault_name"
      | time_sleep seconds => seconds = 20
      end
  end.

(** The result of an invocation that reports [changed] and, when there
    is one, the [id] of a vault. *)
Definition reported (changed : bool) (id : option value) : dict :=
  match id with
  | Some id => <["id" := id]> {[ "changed" := VBool changed ]}
  | None => {[ "changed" := VBool changed ]}
  end.

(* ================================================================== *)
(** * Runs that have not ended *)
(* ================================================================== *)

(** [beginsF ot tr]: the tree observed as [ot] can make the calls of
    [tr] and get the answers recorded there.  Nothing is said of what
    comes after: the tree may have ended, may go on, or may never end. *)
Inductive beginsF {R : Type} : itree' remoteE R → list event → Prop :=
| begins_nil ot :
    beginsF ot []
| begins_Tau t tr :
    beginsF (observe t) tr →
    beginsF (TauF t) tr
| begins_Vis {X} (e : remoteE X) (k : X → itree remoteE R) answer tr :
    beginsF (observe (k answer)) tr →
    beginsF (VisF e k) (Event e answer :: tr).

Definition begins {R : Type} (t : itree remoteE R) : list event → Prop :=
  beginsF (observe t).

(** A tree can always end: whatever calls it has made, there are answers
    to the calls to come with which it ends. *)
Definition can_always_end {R : Type} (t : itree remoteE R) : Prop :=
  ∀ tr, begins t tr → ∃ tr' r, runs t (tr ++ tr') r.

(** ** More scenarios *)

(** The options as Ansible hands them over when the playbook gives the
    credentials too: a parameter that [module_arg_spec] does not
    declare. *)
Definition kw_with_secret : dict := <["secret" := VStr "hunter2"]> kw_present.

(** [exec_module] called without [sku]. *)
Definition kw_no_sku : dict := delete "sku" kw_present.

(** [state] is neither [present] nor [absent]. *)
Definition kw_stopped : dict := options (VStr "stopped") VNone VNone.

Definition final_stopped : AzureRMVaults :=
  (exec_module_end_result (VDict (kv1 "premium"))
     (with_changed false (decided kw_stopped false rg1 (VDict (kv1 "premium"))))).1.

(** The vault is not there; the create-or-update hands back a poller,
    and the poller hands back the vault. *)
Definition script_poller : script :=
  {| on_lookup := inr rg1;
     on_get := [inl (CloudError "not found")];
     on_create_or_update := inr (AzureOperationPoller 7);
     on_poller := inr (kv1 "standard");
     on_delete := inl (CloudError "unused") |}.

Definition trace_poller : list event :=
  [ lookup_rg1;
    Event get_kv1 (inl (CloudError "not found"));
    Event create_or_update_kv1 (inr (AzureOperationPoller 7));
    Event (get_poller_result 7) (inr (kv1 "standard")) ].

(** The vault is created and handed back without its [id]. *)
Definition script_create_no_id : script :=
  {| on_lookup := inr rg1;
     on_get := [inl (CloudError "not found")];
     on_create_or_update := inr (Vault (delete "id" (kv1 "standard")));
     on_poller := inl (CloudError "unused");
     on_delete := inl (CloudError "unused") |}.

Definition trace_create_no_id : list event :=
  [ lookup_rg1;
    Event get_kv1 (inl (CloudError "not found"));
    Event create_or_update_kv1 (inr (Vault (delete "id" (kv1 "standard")))) ].

Definition final_create_no_id : AzureRMVaults :=
  with_changed true (decided kw_present false rg1 (VBool false)).

(** The lookup of the resource group raises a [CloudError]. *)
Definition script_lookup_refused : script :=
  {| on_lookup := inl (CloudError "resource group rg1 could not be found");
     on_get := [];
     on_create_or_update := inl (CloudError "unused");
     on_poller := inl (CloudError "unused");
     on_delete := inl (CloudError "unused") |}.

Definition trace_lookup_refused : list event :=
  [ Event (get_resource_group (VStr "rg1"))
      (inl (CloudError "resource group rg1 could not be found")) ].

(** The vault is there and is deleted; during the poll [vaults.get]
    fails with an exception that is not a [CloudError]. *)
Definition script_poll_broken : script :=
  {| on_lookup := inr rg1;
     on_get := [inr (kv1 "standard"); inl (OtherException "connection reset")];
     on_create_or_update := inl (CloudError "unused");
     on_poller := inl (CloudError "unused");
     on_delete := inr tt |}.

Definition trace_poll_broken : list event :=
  [ lookup_rg1;
    Event get_kv1 (inr (kv1 "standard"));
    Event delete_kv1 (inr tt);
    Event get_kv1 (inl (OtherException "connection reset")) ].
(* ================================================================== *)
(** * Values: induction and equality *)
(* ================================================================== *)

Lemma value_size_list_elem (l : list value) (x : value) :
  x ∈ l → value_size x < value_size (VList l).
Proof.
  simpl. induction 1 as [x l|x y l _ IH]; simpl in *; lia.
Qed.

Lemma value_size_dict_elem (d : dict) (k : string) (x : value) :
  d !! k = Some x → value_size x < value_size (VDict d).
Proof.
  simpl. revert k x.
  apply (map_fold_weak_ind
           (λ (n : nat) (m : dict), ∀ k x, m !! k = Some x → value_size x < S n)).
  - intros k x. by rewrite lookup_empty.
  - intros i y m n Hi IH k x Hk.
    destruct (decide (i = k)) as [->|Hne].
    + rewrite lookup_insert_eq in Hk. injection Hk as ->. lia.
    + rewrite lookup_insert_ne in Hk by done. specialize (IH _ _ Hk). lia.
Qed.

(** Structural induction on values, with the induction hypothesis
    available for every element of a list and every entry of a
    dictionary. *)
Lemma value_nested_ind (P : value → Prop) :
  P VNone →
  (∀ b, P (VBool b)) →
  (∀ s, P (VStr s)) →
  (∀ l, Forall P l → P (VList l)) →
  (∀ d : dict, map_Forall (λ _, P) d → P (VDict d)) →
  ∀ v, P v.
Proof.
  intros HN HB HS HL HD v.
  assert (Hall : ∀ n w, value_size w < n → P w);
    [|apply (Hall (S (value_size v))); lia].
  induction n as [|n IH]; intros w Hw; [lia|].
  destruct w as [|b|s|l|d]; auto.
  - apply HL, Forall_forall. intros x Hx. apply IH.
    pose proof (value_size_list_elem _ _ Hx). lia.
  - apply HD. intros k x Hk. apply IH.
    pose proof (value_size_dict_elem _ _ _ Hk). lia.
Qed.

Lemma map_fold_andb_true (d : dict) (f : string → value → bool) :
  map_fold (λ k x acc, acc && f k x) true d = true ↔
  ∀ k x, d !! k = Some x → f k x = true.
Proof.
  apply (map_fold_weak_ind
           (λ (b : bool) (m : dict),
              b = true ↔ ∀ k x, m !! k = Some x → f k x = true)).
  - split; [|done]. intros _ k x. by rewrite lookup_empty.
  - intros i y m b Hi IH. rewrite andb_true_iff, IH. split.
    + intros [Hm Hy] k x Hk. destruct (decide (i = k)) as [->|Hne].
      * rewrite lookup_insert_eq in Hk. by injection Hk as <-.
      * rewrite lookup_insert_ne in Hk by done. eauto.
    + intros H. split.
      * intros k x Hk. apply H. rewrite lookup_insert_ne; [done|].
        intros ->. congruence.
      * apply H. by rewrite lookup_insert_eq.
Qed.

(** [value_eqb] decides equality of values. *)
Lemma value_eqb_eq (v1 v2 : value) : value_eqb v1 v2 = true ↔ v1 = v2.
Proof.
  revert v2. induction v1 as [|a|a|l1 IH|d1 IH] using value_nested_ind;
    intros [|b|b|l2|d2]; simpl; try (split; [discriminate|congruence]); try done.
  - rewrite Bool.eqb_true_iff. split; congruence.
  - rewrite String.eqb_eq. split; congruence.
  - revert l2. induction IH as [|x l1 Hx _ IHl]; intros [|y l2];
      try (split; [discriminate|congruence]); try done.
    rewrite andb_true_iff, Hx, IHl. split.
    + intros [-> [= ->]]. done.
    + intros [= -> ->]. done.
  - rewrite andb_true_iff, bool_decide_eq_true, map_fold_andb_true. split.
    + intros [Hdom H]. f_equal. apply map_eq. intros k.
      destruct (d1 !! k) as [x|] eqn:Hk.
      * specialize (H _ _ Hk). destruct (d2 !! k) as [y|]; [|done].
        apply (IH _ _ Hk) in H. by subst.
      * apply not_elem_of_dom in Hk. rewrite Hdom in Hk.
        by apply not_elem_of_dom in Hk.
    + intros [= ->]. split; [done|]. intros k x Hk. rewrite Hk.
      by apply (IH _ _ Hk).
Qed.

Lemma value_eqb_refl (v : value) : value_eqb v v = true.
Proof. by apply value_eqb_eq. Qed.

Lemma value_eqb_neq (v1 v2 : value) : value_eqb v1 v2 = false ↔ v1 ≠ v2.
Proof.
  rewrite <- value_eqb_eq. destruct (value_eqb v1 v2); split; congruence.
Qed.

Lemma truthy_dict (d : dict) : truthy (VDict d) = true ↔ d ≠ ∅.
Proof.
  simpl. rewrite negb_true_iff, Nat.eqb_neq. by rewrite map_size_empty_iff.
Qed.

Lemma truthy_dict_lookup (d : dict) (k : string) (v : value) :
  d !! k = Some v → truthy (VDict d) = true.
Proof. intros H. apply truthy_dict. intros ->. by rewrite lookup_empty in H. Qed.

(* ================================================================== *)
(** * The parameter normaliser *)
(* ================================================================== *)

Section normaliser.
Variable kwargs : dict.
Variable check : bool.

Lemma elem_of_snoc (seen : list string) (key name : string) :
  name ∈ seen ++ [key] ↔ name ∈ seen ∨ name = key.
Proof. by rewrite elem_of_app, list_elem_of_singleton. Qed.

Lemma attr_seen_snoc_ne seen key name :
  name ≠ key → attr_seen kwargs (seen ++ [key]) name = attr_seen kwargs seen name.
Proof.
  intros Hne. unfold attr_seen.
  rewrite (bool_decide_ext (name ∈ seen ++ [key]) (name ∈ seen)); [done|].
  rewrite elem_of_snoc. naive_solver.
Qed.

Lemma attr_seen_snoc_eq seen key v :
  kwargs !! key = Some v → attr_seen kwargs (seen ++ [key]) key = v.
Proof.
  intros Hv. unfold attr_seen, option_value.
  rewrite bool_decide_eq_true_2; [by rewrite Hv|].
  rewrite elem_of_snoc. by right.
Qed.

Lemma location_seen_snoc_ne seen key :
  key ≠ "location" →
  location_seen kwargs (seen ++ [key]) = location_seen kwargs seen.
Proof.
  intros Hne. unfold location_seen.
  rewrite (bool_decide_ext ("location" ∈ seen ++ [key]) ("location" ∈ seen)); [done|].
  rewrite elem_of_snoc. naive_solver.
Qed.

Lemma location_seen_snoc_eq seen :
  location_seen kwargs (seen ++ ["location"]) = given kwargs "location".
Proof.
  unfold location_seen. rewrite bool_decide_eq_true_2; [done|].
  rewrite elem_of_snoc. by right.
Qed.

Lemma properties_seen_snoc_skip seen key :
  key ∉ property_keys ∨ given kwargs key = None →
  properties_seen kwargs (seen ++ [key]) = properties_seen kwargs seen.
Proof.
  intros Hskip. unfold properties_seen. apply map_filter_ext.
  intros k x Hk. simpl. rewrite elem_of_snoc. split; [|naive_solver].
  intros ([Hin| ->] & Hprop & Hx); [done|].
  destruct Hskip as [Hskip|Hskip]; [done|].
  unfold given in Hskip. rewrite Hk in Hskip.
  destruct (is_not_None x); [done|]. by destruct Hx.
Qed.

Lemma properties_seen_snoc_insert seen key v :
  key ∈ property_keys → kwargs !! key = Some v → is_not_None v = true →
  properties_seen kwargs (seen ++ [key]) = <[key := v]> (properties_seen kwargs seen).
Proof.
  intros Hprop Hv Hnn. unfold properties_seen. apply map_eq. intros k.
  destruct (decide (k = key)) as [->|Hne].
  - rewrite lookup_insert_eq. apply map_lookup_filter_Some. simpl.
    rewrite elem_of_snoc, Hnn. naive_solver.
  - rewrite lookup_insert_ne by done.
    rewrite !map_lookup_filter. destruct (kwargs !! k) as [x|]; [simpl|done].
    apply option_guard_iff. rewrite elem_of_snoc. naive_solver.
Qed.

Lemma properties_seen_all :
  properties_seen kwargs module_arg_spec_keys = properties_of kwargs.
Proof.
  unfold properties_seen, properties_of. apply map_filter_ext.
  intros k x _. simpl. split; [naive_solver|]. intros [Hk Hx]. repeat split; [|done..].
  revert Hk. unfold property_keys, module_arg_spec_keys.
  rewrite !elem_of_cons. naive_solver.
Qed.

Lemma payload_of_location loc props v :
  <["location" := v]> (payload_of loc props) = payload_of (Some v) props.
Proof.
  unfold payload_of. destruct (decide (props = ∅)), loc; simpl;
    apply map_eq; intros k;
    (destruct (decide (k = "location")) as [->|?];
     [|destruct (decide (k = "properties")) as [->|?]]);
    by simplify_map_eq.
Qed.

Lemma payload_of_properties loc props :
  payload_of loc props !! "properties" =
  if decide (props = ∅) then None else Some (VDict props).
Proof.
  unfold payload_of. destruct (decide (props = ∅)), loc; by simplify_map_eq.
Qed.

Lemma payload_of_lookup_location loc props :
  payload_of loc props !! "location" = loc.
Proof.
  unfold payload_of. destruct (decide (props = ∅)), loc; by simplify_map_eq.
Qed.

Lemma payload_of_insert_property loc props name v :
  <["properties" := VDict (<[name := v]> props)]> (payload_of loc props) =
  payload_of loc (<[name := v]> props).
Proof.
  unfold payload_of.
  destruct (decide (<[name := v]> props = ∅)) as [He|_].
  { by apply insert_non_empty in He. }
  destruct (decide (props = ∅)); [done|]. by rewrite insert_insert_eq.
Qed.

Lemma setdefault_properties_payload name v self loc props :
  parameters self = payload_of loc props →
  setdefault_properties name v self =
  (set_parameters (payload_of loc (<[name := v]> props)) self, inr tt).
Proof.
  intros Hp. unfold setdefault_properties.
  rewrite Hp, payload_of_properties. destruct (decide (props = ∅)) as [->|_].
  - rewrite <- payload_of_insert_property. by rewrite insert_empty.
  - by rewrite payload_of_insert_property.
Qed.

(** One iteration of the loop, on the closed form. *)
Lemma exec_module_arg_step seen key v :
  key ∈ module_arg_spec_keys → kwargs !! key = Some v →
  exec_module_arg kwargs key (after_args kwargs check seen) =
  (after_args kwargs check (seen ++ [key]), inr tt).
Proof.
  intros Hkey Hv. unfold module_arg_spec_keys in Hkey.
  assert (Hgiven : given kwargs key = if is_not_None v then Some v else None).
  { unfold given. by rewrite Hv. }
  repeat (apply elem_of_cons in Hkey as [->|Hkey]); [..|by apply elem_of_nil in Hkey].
  all: unfold exec_module_arg, getitem; rewrite Hv.
  all: match goal with
       | |- context [hasattr ?k] =>
           let b := eval vm_compute in (hasattr k) in change (hasattr k) with b
       end; cbv iota.
  all: repeat match goal with
       | |- context [String.eqb ?a ?b] =>
           let r := eval vm_compute in (String.eqb a b) in
           change (String.eqb a b) with r
       end; cbv iota.
  all: unfold mbind, mret, Py_bind, Py_ret, py_modify; cbv beta iota.
  all: try (destruct (is_not_None v) eqn:Hnn; cbv iota).
  all: try (erewrite setdefault_properties_payload by reflexivity).
  all: unfold setattr, set_resource_group, set_vault_name, set_state, set_parameters.
  all: repeat match goal with
       | |- context [String.eqb ?a ?b] =>
           let r := eval vm_compute in (String.eqb a b) in
           change (String.eqb a b) with r
       end; cbv iota.
  all: unfold after_args; cbn [resource_group vault_name parameters results
                               mgmt_client state to_do check_mode].
  all: f_equal; f_equal.
  all: try (symmetry; by apply attr_seen_snoc_eq).
  all: try (symmetry; by apply attr_seen_snoc_ne).
  all: try rewrite payload_of_location.
  all: try (rewrite location_seen_snoc_eq, Hgiven).
  all: try (rewrite location_seen_snoc_ne by done).
  all: try (rewrite (properties_seen_snoc_insert _ _ v) by (done || compute_done)).
  all: try (rewrite properties_seen_snoc_skip by (by right)).
  all: try (rewrite properties_seen_snoc_skip
              by (left; unfold property_keys; rewrite !not_elem_of_cons;
                  repeat split; (done || apply not_elem_of_nil))).
  all: try done.
  all: unfold location_seen; rewrite Hgiven; by case_bool_decide.
Qed.

(** The loop over a list of options, from any point. *)
Lemma for_in_after_args todo seen :
  (∀ key, key ∈ todo → key ∈ module_arg_spec_keys ∧ is_Some (kwargs !! key)) →
  for_in todo (exec_module_arg kwargs) (after_args kwargs check seen) =
  (after_args kwargs check (seen ++ todo), inr tt).
Proof.
  revert seen. induction todo as [|key todo IH]; intros seen Hall.
  - rewrite app_nil_r. reflexivity.
  - destruct (Hall key) as [Hkey [v Hv]]; [by left|].
    cbn [for_in]. unfold mbind, Py_bind.
    rewrite (exec_module_arg_step _ _ v Hkey Hv).
    rewrite IH; [by rewrite <- app_assoc|].
    intros k Hk. apply Hall. by right.
Qed.

Lemma after_args_nil : after_args kwargs check [] = init check.
Proof.
  unfold after_args, init.
  assert (properties_seen kwargs [] = ∅) as ->; [|done].
  apply map_eq. intros k. rewrite lookup_empty.
  apply map_lookup_filter_None. right. intros x _ [Hin _]. simpl in Hin.
  by apply elem_of_nil in Hin.
Qed.

Lemma after_args_all :
  ansible_params kwargs →
  after_args kwargs check module_arg_spec_keys = normalized kwargs check.
Proof.
  intros Hk. unfold after_args, normalized. rewrite properties_seen_all.
  unfold attr_seen, location_seen.
  by rewrite !bool_decide_eq_true_2 by compute_done.
Qed.

Lemma adjust_parameters_id self : adjust_parameters self = (self, inr tt).
Proof.
  unfold adjust_parameters. destruct (parameters self !! "access_policies") as [v|];
    [by destruct (is_not_None v)|done].
Qed.

(** The normaliser never raises on the options Ansible hands over, and
    leaves the object in the closed form. *)
Lemma normalize_normalized :
  ansible_params kwargs →
  normalize kwargs (init check) = (normalized kwargs check, inr tt).
Proof.
  intros Hk. unfold normalize, mbind, Py_bind.
  rewrite <- after_args_nil, for_in_after_args, app_nil_l, after_args_all by auto.
  apply adjust_parameters_id.
Qed.

Lemma properties_of_lookup key v :
  properties_of kwargs !! key = Some v ↔
  key ∈ property_keys ∧ kwargs !! key = Some v ∧ v ≠ VNone.
Proof.
  unfold properties_of. rewrite map_lookup_filter_Some. simpl.
  destruct v; naive_solver.
Qed.
End normaliser.

(* ================================================================== *)
(** * Runs of interaction trees *)
(* ================================================================== *)

Ltac inj_existT :=
  repeat match goal with
         | H : existT _ _ = existT _ _ |- _ => apply inj_pair2 in H
         end.

Section runs_of_trees.
Context {R : Type}.

Lemma runs_Ret_iff (r r' : R) (tr : list event) :
  runs (Ret r) tr r' ↔ tr = [] ∧ r' = r.
Proof.
  unfold runs. simpl. split.
  - inversion 1. by subst.
  - intros [-> ->]. constructor.
Qed.

Lemma runs_Tau_iff (t : itree remoteE R) (tr : list event) (r : R) :
  runs (Tau t) tr r ↔ runs t tr r.
Proof.
  unfold runs. simpl. split.
  - inversion 1. by subst.
  - by constructor.
Qed.

Lemma runs_Vis_iff {X} (e : remoteE X) (k : X → itree remoteE R)
    (tr : list event) (r : R) :
  runs (Vis e k) tr r ↔
  ∃ answer tr', tr = Event e answer :: tr' ∧ runs (k answer) tr' r.
Proof.
  unfold runs. simpl. split.
  - inversion 1; subst. inj_existT. subst. eauto.
  - intros (answer & tr' & -> & H). by constructor.
Qed.

Lemma runsF_bind_inv {A} (k : A → itree remoteE R) ot tr r :
  runsF ot tr r →
  ∀ t, ot = observe (ITree.bind t k) →
  ∃ tr1 tr2 a, runs t tr1 a ∧ runs (k a) tr2 r ∧ tr = tr1 ++ tr2.
Proof.
  induction 1 as [r|u tr r H IH|X e h x tr r H IH]; intros t Heq;
    rewrite observe_bind in Heq; unfold runs;
    destruct (observe t) as [a|t'|Y e' h'] eqn:Ht; cbn in Heq; try discriminate.
  - exists [], [], a. rewrite <- Heq. repeat split; constructor.
  - exists [], tr, a. rewrite <- Heq. repeat split; constructor. exact H.
  - injection Heq as ->.
    destruct (IH _ eq_refl) as (tr1 & tr2 & a & H1 & H2 & ->).
    exists tr1, tr2, a. repeat split; [constructor|..]; done.
  - eexists [], (_ :: tr), a. rewrite <- Heq. repeat split; constructor. exact H.
  - inversion Heq; subst. inj_existT. subst.
    destruct (IH _ eq_refl) as (tr1 & tr2 & a & H1 & H2 & ->).
    eexists (_ :: tr1), tr2, a. repeat split; [constructor|..]; done.
Qed.

Lemma runsF_bind_intro {A} (k : A → itree remoteE R) ot tr1 a :
  runsF ot tr1 a →
  ∀ t tr2 r, ot = observe t → runs (k a) tr2 r →
  runs (ITree.bind t k) (tr1 ++ tr2) r.
Proof.
  induction 1 as [a|u tr a H IH|X e h x tr a H IH]; intros t tr2 r Heq Hk;
    unfold runs; rewrite observe_bind, <- Heq; cbn.
  - exact Hk.
  - constructor. by eapply IH.
  - constructor. by eapply IH.
Qed.

(** A run of [bind t k] is a run of [t] followed by a run of [k] on its
    result. *)
Lemma runs_bind {A} (t : itree remoteE A) (k : A → itree remoteE R) tr r :
  runs (ITree.bind t k) tr r ↔
  ∃ tr1 tr2 a, runs t tr1 a ∧ runs (k a) tr2 r ∧ tr = tr1 ++ tr2.
Proof.
  split.
  - intros H. by eapply runsF_bind_inv.
  - intros (tr1 & tr2 & a & H1 & H2 & ->). by eapply runsF_bind_intro.
Qed.

(** One turn of a loop. *)
Lemma runs_iter {I} (body : I → itree remoteE (I + R)) (i : I) tr r :
  runs (ITree.iter body i) tr r ↔
  ∃ tr1 tr2 lr,
    runs (body i) tr1 lr ∧ tr = tr1 ++ tr2 ∧
    match lr with
    | inl i' => runs (ITree.iter body i') tr2 r
    | inr r' => tr2 = [] ∧ r = r'
    end.
Proof.
  change (runs (ITree.iter body i) tr r) with
    (runs (ITree.bind (body i)
             (λ lr, match lr with
                    | inl l => Tau (ITree.iter body l)
                    | inr r => Ret r
                    end)) tr r).
  rewrite runs_bind. split.
  - intros (tr1 & tr2 & [i'|r'] & H1 & H2 & ->); exists tr1, tr2.
    + exists (inl i'). by rewrite runs_Tau_iff in H2.
    + exists (inr r'). by rewrite runs_Ret_iff in H2.
  - intros (tr1 & tr2 & [i'|r'] & H1 & -> & H2); exists tr1, tr2.
    + exists (inl i'). by rewrite runs_Tau_iff.
    + exists (inr r'). by rewrite runs_Ret_iff.
Qed.
End runs_of_trees.

(* ================================================================== *)
(** * Runs of methods *)
(* ================================================================== *)

Section runs_of_methods.
Context {A : Type}.
Implicit Types (self : AzureRMVaults) (tr : list event).
Implicit Types (r : AzureRMVaults * (exception + A)).

Lemma runs_mret (a : A) self tr r :
  runs ((mret a : M A) self) tr r ↔ tr = [] ∧ r = (self, inr a).
Proof. apply runs_Ret_iff. Qed.

Lemma runs_raise (exc : exception) self tr r :
  runs (raise exc self) tr r ↔ tr = [] ∧ r = (self, inl exc).
Proof. apply runs_Ret_iff. Qed.

Lemma runs_fail (msg : string) self tr r :
  runs (fail msg self) tr r ↔ tr = [] ∧ r = (self, inl (SystemExit msg)).
Proof. apply runs_Ret_iff. Qed.

Lemma runs_lift (p : Py A) self tr r :
  runs (lift p self) tr r ↔ tr = [] ∧ r = p self.
Proof. apply runs_Ret_iff. Qed.

Lemma runs_remote (e : remoteE (exception + A)) self tr r :
  runs (remote e self) tr r ↔ ∃ answer, tr = [Event e answer] ∧ r = (self, answer).
Proof.
  unfold remote. rewrite runs_Vis_iff. split.
  - intros (answer & tr' & -> & H). apply runs_Ret_iff in H as [-> ->]. eauto.
  - intros (answer & -> & ->). exists answer, []. by rewrite runs_Ret_iff.
Qed.

(** A run of [x ← m; k x]: a run of [m], and, when [m] returns, a run
    of [k] on what it returned; an exception of [m] ends the run. *)
Lemma runs_mbind {B} (m : M B) (k : B → M A) self tr r :
  runs ((m ≫= k) self) tr r ↔
  ∃ tr1 self1 o,
    runs (m self) tr1 (self1, o) ∧
    match o with
    | inl exc => tr = tr1 ∧ r = (self1, inl exc)
    | inr b => ∃ tr2, runs (k b self1) tr2 r ∧ tr = tr1 ++ tr2
    end.
Proof.
  unfold mbind, M_bind. rewrite runs_bind. split.
  - intros (tr1 & tr2 & [self1 [exc|b]] & H1 & H2 & ->); exists tr1, self1.
    + exists (inl exc). apply runs_Ret_iff in H2 as [-> ->].
      by rewrite app_nil_r.
    + exists (inr b). eauto.
  - intros (tr1 & self1 & [exc|b] & H1 & H2).
    + destruct H2 as [-> ->]. exists tr1, [], (self1, inl exc).
      by rewrite runs_Ret_iff, app_nil_r.
    + destruct H2 as (tr2 & H2 & ->). by exists tr1, tr2, (self1, inr b).
Qed.

Lemma runs_try_except_CloudError (body : M A) (handler : exception → M A) self tr r :
  runs (try_except_CloudError body handler self) tr r ↔
  ∃ tr1 self1 o,
    runs (body self) tr1 (self1, o) ∧
    match o with
    | inl exc =>
        if isinstance_CloudError exc
        then ∃ tr2, runs (handler exc self1) tr2 r ∧ tr = tr1 ++ tr2
        else tr = tr1 ∧ r = (self1, inl exc)
    | inr a => tr = tr1 ∧ r = (self1, inr a)
    end.
Proof.
  unfold try_except_CloudError. rewrite runs_bind. split.
  - intros (tr1 & tr2 & [self1 [exc|a]] & H1 & H2 & ->); exists tr1, self1.
    + exists (inl exc). destruct (isinstance_CloudError exc); [eauto|].
      apply runs_Ret_iff in H2 as [-> ->]. by rewrite app_nil_r.
    + exists (inr a). apply runs_Ret_iff in H2 as [-> ->]. by rewrite app_nil_r.
  - intros (tr1 & self1 & [exc|a] & H1 & H2).
    + destruct (isinstance_CloudError exc) eqn:Hc.
      * destruct H2 as (tr2 & H2 & ->). exists tr1, tr2, (self1, inl exc).
        by rewrite Hc.
      * destruct H2 as [-> ->]. exists tr1, [], (self1, inl exc).
        by rewrite Hc, runs_Ret_iff, app_nil_r.
    + destruct H2 as [-> ->]. exists tr1, [], (self1, inr a).
      by rewrite runs_Ret_iff, app_nil_r.
Qed.
End runs_of_methods.

Lemma runs_get_self self tr r :
  runs (get_self self) tr r ↔ tr = [] ∧ r = (self, inr self).
Proof. apply runs_Ret_iff. Qed.

Lemma runs_modify f self tr r :
  runs (modify f self) tr r ↔ tr = [] ∧ r = (f self, inr tt).
Proof. apply runs_Ret_iff. Qed.

Lemma runs_set_result key v self tr r :
  runs (set_result key v self) tr r ↔
  tr = [] ∧ r = (set_results (<[key := v]> (results self)) self, inr tt).
Proof. apply runs_Ret_iff. Qed.

Lemma runs_sleep seconds self tr r :
  runs (sleep seconds self) tr r ↔
  tr = [Event (time_sleep seconds) tt] ∧ r = (self, inr tt).
Proof.
  unfold sleep. rewrite runs_Vis_iff. split.
  - intros ([] & tr' & -> & H). by apply runs_Ret_iff in H as [-> ->].
  - intros [-> ->]. exists tt, []. by rewrite runs_Ret_iff.
Qed.

Lemma runs_return_results self tr r :
  runs (return_results self) tr r ↔ tr = [] ∧ r = (self, inr (results self)).
Proof.
  change (runs (return_results self) tr r)
    with (runs (Ret (self, inr (results self))) tr r).
  apply runs_Ret_iff.
Qed.
(* ================================================================== *)
(** * Stepping through a run *)
(* ================================================================== *)

Lemma runsF_Ret_inv {R} (r r' : R) tr : runsF (RetF r) tr r' → tr = [] ∧ r' = r.
Proof. inversion 1. by subst. Qed.

Lemma runsF_Tau_inv {R} (t : itree remoteE R) tr r :
  runsF (TauF t) tr r → runsF (observe t) tr r.
Proof. inversion 1. by subst. Qed.

Lemma runsF_Vis_inv {R X} (e : remoteE X) (k : X → itree remoteE R) tr r :
  runsF (VisF e k) tr r →
  ∃ answer tr', tr = Event e answer :: tr' ∧ runsF (observe (k answer)) tr' r.
Proof. inversion 1; subst. inj_existT. subst. eauto. Qed.

(** Unfold the monad of methods, and nothing else, in a run. *)
Ltac unfold_run_in H :=
  unfold runs in H;
  lazy beta iota zeta delta
    [observe _observe ITree.bind ITree.subst ITree.trigger
     mbind mret M_bind M_ret lift get_self modify raise remote sleep fail
     try_except_CloudError subscript set_result return_results
     get_keyvault create_update_keyvault delete_keyvault exec_module_end] in H.

Ltac unfold_run :=
  unfold runs;
  lazy beta iota zeta delta
    [observe _observe ITree.bind ITree.subst ITree.trigger
     mbind mret M_bind M_ret lift get_self modify raise remote sleep fail
     try_except_CloudError subscript set_result return_results
     get_keyvault create_update_keyvault delete_keyvault exec_module_end].

(** One step of a run that is a hypothesis: a return ends it, a call
    yields its answer, and a test splits the cases. *)
Ltac run_step H :=
  unfold_run_in H;
  lazymatch type of H with
  | runsF (RetF _) _ _ =>
      apply runsF_Ret_inv in H; destruct H as [? ?]; subst
  | runsF (TauF _) _ _ =>
      apply runsF_Tau_inv in H
  | runsF (VisF _ _) _ _ =>
      let answer := fresh "answer" in
      let tr := fresh "tr" in
      apply runsF_Vis_inv in H; destruct H as (answer & tr & ? & H); subst
  | runsF _ _ _ =>
      first [ match type of H with
              | context [match ?x with _ => _ end] => is_var x; destruct x
              end
            | match type of H with
              | context [if ?b then _ else _] => destruct b eqn:?
              end ]
  end.

(** Close a goal that names the answers of a run that was stepped
    through. *)
Ltac run_close :=
  split; [reflexivity|];
  unfold get_keyvault_result, fail_on_CloudError; simpl;
  repeat match goal with
         | Hb : isinstance_CloudError _ = _ |- _ => rewrite Hb
         end;
  reflexivity.

(** Build a run from the answers that are given. *)
Ltac run_build :=
  repeat (unfold_run; first [apply runs_Ret | apply runs_Tau | apply runs_Vis]).

(* ================================================================== *)
(** * The methods that call the client *)
(* ================================================================== *)

(** [get_keyvault] makes one [vaults.get] call, leaves the object as it
    is, and returns [False] on a [CloudError], the vault otherwise; an
    exception of another class goes through. *)
Lemma runs_get_keyvault self tr r :
  runs (get_keyvault self) tr r ↔
  ∃ answer, tr = [Event (get_call self) answer] ∧ r = (self, get_keyvault_result answer).
Proof.
  split.
  - intros H. repeat run_step H; eexists; run_close.
  - intros (answer & -> & ->).
    destruct answer as [exc|d]; [destruct exc|]; run_build.
Qed.

(** [create_update_keyvault]: one [vaults.create_or_update] call, and, if
    it hands back a poller, the wait for the poller's result. *)
Lemma runs_create_update_keyvault self tr r :
  runs (create_update_keyvault self) tr r ↔
  ∃ answer,
    match answer with
    | inl exc =>
        tr = [Event (create_or_update_call self) answer] ∧
        r = (self, inl (fail_on_CloudError "Error creating the Key Vault instance: " exc))
    | inr (Vault d) =>
        tr = [Event (create_or_update_call self) answer] ∧
        r = (self, inr (VDict d))
    | inr (AzureOperationPoller handle) =>
        ∃ answer',
          tr = [Event (create_or_update_call self) answer;
                Event (get_poller_result handle) answer'] ∧
          r = (self,
               match answer' with
               | inl exc =>
                   inl (fail_on_CloudError "Error creating the Key Vault instance: " exc)
               | inr d => inr (VDict d)
               end)
    end.
Proof.
  split.
  - intros H. repeat run_step H.
    all: first [ eexists (inl _); run_close
               | eexists (inr (Vault _)); run_close
               | eexists (inr (AzureOperationPoller _)); eexists; run_close ].
  - intros (answer & H).
    destruct answer as [exc|[d|handle]].
    + destruct H as [-> ->]. destruct exc; run_build.
    + destruct H as [-> ->]. run_build.
    + destruct H as (answer' & -> & ->).
      destruct answer' as [exc|d]; [destruct exc|]; run_build.
Qed.

(** [delete_keyvault]: one [vaults.delete] call. *)
Lemma runs_delete_keyvault self tr r :
  runs (delete_keyvault self) tr r ↔
  ∃ answer,
    tr = [Event (delete_call self) answer] ∧
    r = (self,
         match answer with
         | inl exc =>
             inl (fail_on_CloudError "Error deleting the Key Vault instance: " exc)
         | inr _ => inr (VBool true)
         end).
Proof.
  split.
  - intros H. repeat run_step H; eexists; run_close.
  - intros (answer & -> & ->).
    destruct answer as [exc|[]]; [destruct exc|]; run_build.
Qed.

(* ================================================================== *)
(** * The poll after a delete *)
(* ================================================================== *)

(** The three ways an answer of [vaults.get] can go. *)
Lemma get_keyvault_result_cases answer :
  reports_present answer ∨ reports_absent answer ∨
  ∃ exc, get_keyvault_result answer = inl exc.
Proof.
  unfold reports_present, reports_absent.
  destruct (get_keyvault_result answer) as [exc|v]; [eauto|].
  destruct (truthy v); auto.
Qed.

Lemma reports_present_iff answer :
  reports_present answer ↔ ∃ d, answer = inr d ∧ d ≠ ∅.
Proof.
  unfold reports_present. destruct answer as [exc|d]; simpl.
  - destruct (isinstance_CloudError exc); simpl.
    + split; [done|]. by intros (d & [=] & _).
    + split; [done|]. by intros (d & [=] & _).
  - rewrite negb_true_iff, Nat.eqb_neq, map_size_empty_iff. split; [eauto|].
    by intros (d' & [= <-] & Hd).
Qed.

Lemma reports_absent_iff answer :
  reports_absent answer ↔
  (∃ exc, answer = inl exc ∧ isinstance_CloudError exc = true) ∨ answer = inr ∅.
Proof.
  unfold reports_absent. destruct answer as [exc|d]; simpl.
  - destruct (isinstance_CloudError exc) eqn:Hc; simpl.
    + split; [eauto|done].
    + split; [done|]. intros [(exc' & [= <-] & Hc')|[=]]. congruence.
  - rewrite negb_false_iff, Nat.eqb_eq, map_size_empty_iff. split.
    + intros ->. by right.
    + by intros [(exc & [=] & _)|[= ->]].
Qed.

(** One turn of [while self.get_keyvault(): time.sleep(20)]. *)
Lemma runs_while_turn self tr r :
  runs (while get_keyvault (sleep 20) self) tr r ↔
  ∃ answer,
    match get_keyvault_result answer with
    | inl exc => tr = [Event (get_call self) answer] ∧ r = (self, inl exc)
    | inr v =>
        if truthy v then
          ∃ tr', tr = Event (get_call self) answer :: Event (time_sleep 20) tt :: tr' ∧
                 runs (while get_keyvault (sleep 20) self) tr' r
        else tr = [Event (get_call self) answer] ∧ r = (self, inr tt)
    end.
Proof.
  unfold while at 1. rewrite runs_iter. split.
  - intros (tr1 & tr2 & lr & H1 & -> & H2).
    apply runs_bind in H1 as (tra & trb & [self1 o] & Ha & Hb & ->).
    apply runs_get_keyvault in Ha as (answer & -> & Heq).
    injection Heq as -> ->.
    exists answer. destruct (get_keyvault_result answer) as [exc|v].
    + apply runs_Ret_iff in Hb as [-> ->]. by destruct H2 as [-> ->].
    + destruct (truthy v).
      * apply runs_bind in Hb as (trc & trd & [self2 o2] & Hc & Hd & ->).
        apply runs_sleep in Hc as [-> Heq]. injection Heq as -> ->.
        apply runs_Ret_iff in Hd as [-> ->]. eauto.
      * apply runs_Ret_iff in Hb as [-> ->]. by destruct H2 as [-> ->].
  - intros (answer & H).
    assert (Hget : runs (get_keyvault self) [Event (get_call self) answer]
                     (self, get_keyvault_result answer)).
    { apply runs_get_keyvault. eauto. }
    destruct (get_keyvault_result answer) as [exc|v] eqn:Hres.
    + destruct H as [-> ->].
      exists [Event (get_call self) answer], [], (inr (self, inl exc)).
      split; [|done]. apply runs_bind.
      exists [Event (get_call self) answer], [], (self, inl exc).
      split; [done|]. split; [|done]. by apply runs_Ret_iff.
    + destruct (truthy v) eqn:Hv.
      * destruct H as (tr' & -> & H).
        exists [Event (get_call self) answer; Event (time_sleep 20) tt], tr', (inl self).
        split; [|done]. apply runs_bind.
        exists [Event (get_call self) answer], [Event (time_sleep 20) tt], (self, inr v).
        split; [done|]. split; [|done]. rewrite Hv. apply runs_bind.
        exists [Event (time_sleep 20) tt], [], (self, inr tt).
        split; [by apply runs_sleep|]. split; [|done]. by apply runs_Ret_iff.
      * destruct H as [-> ->].
        exists [Event (get_call self) answer], [], (inr (self, inr tt)).
        split; [|done]. apply runs_bind.
        exists [Event (get_call self) answer], [], (self, inr v).
        split; [done|]. split; [|done]. rewrite Hv. by apply runs_Ret_iff.
Qed.

(** The poll: the vault is fetched, with a sleep of 20 seconds after
    every answer that reports it present, until an answer reports it
    absent or raises; the object is left as it is. *)
Lemma runs_poll self tr r :
  runs (while get_keyvault (sleep 20) self) tr r ↔
  ∃ present last,
    Forall reports_present present ∧
    tr = polls (get_call self) present last ∧
    ((reports_absent last ∧ r = (self, inr tt)) ∨
     (∃ exc, get_keyvault_result last = inl exc ∧ r = (self, inl exc))).
Proof.
  split.
  - remember (length tr) as n eqn:Hn.
    revert tr Hn. induction (lt_wf n) as [n _ IH]. intros tr -> H.
    apply runs_while_turn in H as (answer & H).
    destruct (get_keyvault_result answer) as [exc|v] eqn:Hres.
    + destruct H as [-> ->]. exists [], answer. eauto 10.
    + destruct (truthy v) eqn:Hv.
      * destruct H as (tr' & -> & H).
        destruct (IH (length tr') ltac:(simpl; lia) tr' eq_refl H)
          as (present & last & Hp & -> & Hlast).
        exists (answer :: present), last. split; [|done].
        constructor; [|done]. unfold reports_present. by rewrite Hres.
      * destruct H as [-> ->]. exists [], answer. split; [done|]. split; [done|].
        left. split; [|done]. unfold reports_absent. by rewrite Hres.
  - intros (present & last & Hp & -> & Hlast).
    induction Hp as [|answer present Ha _ IH]; apply runs_while_turn.
    + exists last. destruct Hlast as [[Habs ->]|(exc & Hexc & ->)].
      * unfold reports_absent in Habs.
        destruct (get_keyvault_result last) as [|v]; [done|]. by rewrite Habs.
      * by rewrite Hexc.
    + exists answer. unfold reports_present in Ha.
      destruct (get_keyvault_result answer) as [|v]; [done|]. rewrite Ha. eauto.
Qed.

(* ================================================================== *)
(** * The object along [exec_module] *)
(* ================================================================== *)

Lemma default_location_ok rg self :
  default_location rg self = ((default_location rg self).1, inr tt).
Proof.
  unfold default_location. by destruct (parameters self !! "location").
Qed.

Lemma select_action_ok old_response self :
  select_action old_response self = ((select_action old_response self).1, inr tt).
Proof.
  unfold select_action.
  by destruct (negb (truthy old_response)), (value_eqb (state self) (VStr "absent")),
    (value_eqb (state self) (VStr "present")).
Qed.

(** ** A method followed by the rest *)

Section rest.
Context {A B : Type}.
Implicit Types (self : AzureRMVaults) (tr : list event).
Implicit Types (r : AzureRMVaults * (exception + B)).

Lemma runs_bind_lift (p : Py A) (k : A → M B) self tr r :
  runs ((lift p ≫= k) self) tr r ↔
  match p self with
  | (self1, inl exc) => tr = [] ∧ r = (self1, inl exc)
  | (self1, inr a) => runs (k a self1) tr r
  end.
Proof.
  rewrite runs_mbind. setoid_rewrite runs_lift. split.
  - intros (tr1 & self1 & o & [-> <-] & H). destruct o as [exc|a]; [done|].
    by destruct H as (tr2 & H & ->).
  - intros H. exists [], (p self).1, (p self).2. destruct (p self) as [self1 [exc|a]];
      simpl; eauto.
Qed.

Lemma runs_bind_remote (e : remoteE (exception + A)) (k : A → M B) self tr r :
  runs ((remote e ≫= k) self) tr r ↔
  ∃ answer tr',
    tr = Event e answer :: tr' ∧
    match answer with
    | inl exc => tr' = [] ∧ r = (self, inl exc)
    | inr a => runs (k a self) tr' r
    end.
Proof.
  rewrite runs_mbind. setoid_rewrite runs_remote. split.
  - intros (tr1 & self1 & o & (answer & -> & Heq) & H). injection Heq as -> ->.
    exists answer. destruct answer as [exc|a].
    + destruct H as [-> ->]. by exists [].
    + destruct H as (tr2 & H & ->). by exists tr2.
  - intros (answer & tr' & -> & H). exists [Event e answer], self, answer.
    split; [eauto|]. destruct answer as [exc|a].
    + by destruct H as [-> ->].
    + by exists tr'.
Qed.
End rest.

Section rest_of_pure.
Context {B : Type}.
Implicit Types (self : AzureRMVaults) (tr : list event).
Implicit Types (r : AzureRMVaults * (exception + B)).

Lemma runs_bind_modify f (k : unit → M B) self tr r :
  runs ((modify f ≫= k) self) tr r ↔ runs (k tt (f self)) tr r.
Proof. done. Qed.

Lemma runs_bind_get_self (k : AzureRMVaults → M B) self tr r :
  runs ((get_self ≫= k) self) tr r ↔ runs (k self self) tr r.
Proof. done. Qed.

Lemma runs_bind_set_result key v (k : unit → M B) self tr r :
  runs ((set_result key v ≫= k) self) tr r ↔
  runs (k tt (set_results (<[key := v]> (results self)) self)) tr r.
Proof. done. Qed.

Lemma runs_bind_get_keyvault (k : value → M B) self tr r :
  runs ((get_keyvault ≫= k) self) tr r ↔
  ∃ fetched tr',
    tr = Event (get_call self) fetched :: tr' ∧
    match get_keyvault_result fetched with
    | inl exc => tr' = [] ∧ r = (self, inl exc)
    | inr old_response => runs (k old_response self) tr' r
    end.
Proof.
  rewrite runs_mbind. setoid_rewrite runs_get_keyvault. split.
  - intros (tr1 & self1 & o & (fetched & -> & Heq) & H). injection Heq as -> ->.
    exists fetched. destruct (get_keyvault_result fetched) as [exc|old].
    + destruct H as [-> ->]. by exists [].
    + destruct H as (tr2 & H & ->). by exists tr2.
  - intros (fetched & tr' & -> & H).
    exists [Event (get_call self) fetched], self, (get_keyvault_result fetched).
    split; [eauto|]. destruct (get_keyvault_result fetched) as [exc|old].
    + by destruct H as [-> ->].
    + by exists tr'.
Qed.
End rest_of_pure.

Section along.
Variable kwargs : dict.
Variable check : bool.

Lemma located_fields rg :
  resource_group (located kwargs check rg) = option_value kwargs "resource_group" ∧
  vault_name (located kwargs check rg) = option_value kwargs "vault_name" ∧
  state (located kwargs check rg) = option_value kwargs "state" ∧
  to_do (located kwargs check rg) = NoAction ∧
  check_mode (located kwargs check rg) = check ∧
  results (located kwargs check rg) = {[ "changed" := VBool false ]}.
Proof.
  unfold located, default_location.
  by destruct (parameters (prepared kwargs check) !! "location").
Qed.

Lemma get_call_located rg : get_call (located kwargs check rg) = fetch_call kwargs.
Proof.
  unfold get_call, fetch_call.
  destruct (located_fields rg) as (-> & -> & _). done.
Qed.

Lemma decided_fields rg old :
  resource_group (decided kwargs check rg old) = option_value kwargs "resource_group" ∧
  vault_name (decided kwargs check rg old) = option_value kwargs "vault_name" ∧
  state (decided kwargs check rg old) = option_value kwargs "state" ∧
  check_mode (decided kwargs check rg old) = check ∧
  results (decided kwargs check rg old) = {[ "changed" := VBool false ]} ∧
  parameters (decided kwargs check rg old) = parameters (located kwargs check rg).
Proof.
  destruct (located_fields rg) as (Hrg & Hname & Hstate & Htodo & Hcheck & Hres).
  unfold decided, select_action.
  by destruct (negb (truthy old)),
    (value_eqb (state (located kwargs check rg)) (VStr "absent")),
    (value_eqb (state (located kwargs check rg)) (VStr "present")).
Qed.

(** The run of [exec_module] up to the point where the action is
    carried out: the lookup of the resource group, then the fetch of
    the vault. *)
Lemma runs_invocation tr r :
  ansible_params kwargs →
  runs (invocation kwargs check) tr r ↔
  ∃ answer,
    match answer with
    | inl exc =>
        tr = [Event (lookup_call kwargs) answer] ∧
        r = (prepared kwargs check, inl exc)
    | inr rg =>
        ∃ fetched tr',
          tr = Event (lookup_call kwargs) answer ::
               Event (fetch_call kwargs) fetched :: tr' ∧
          match get_keyvault_result fetched with
          | inl exc => tr' = [] ∧ r = (located kwargs check rg, inl exc)
          | inr old_response =>
              runs (dispatch old_response (decided kwargs check rg old_response)) tr' r
          end
    end.
Proof.
  intros Hk. unfold invocation, exec_module.
  rewrite runs_bind_lift, (normalize_normalized _ _ Hk).
  rewrite runs_bind_modify, runs_bind_get_self, runs_bind_remote.
  fold (prepared kwargs check).
  change (resource_group (prepared kwargs check)) with (option_value kwargs "resource_group").
  fold (lookup_call kwargs).
  assert (Hstep : ∀ rg tr',
    runs ((lift (default_location rg) ≫= λ _,
           get_keyvault ≫= λ old_response,
           lift (select_action old_response) ≫= λ _, dispatch old_response)
            (prepared kwargs check)) tr' r ↔
    ∃ fetched tr'',
      tr' = Event (fetch_call kwargs) fetched :: tr'' ∧
      match get_keyvault_result fetched with
      | inl exc => tr'' = [] ∧ r = (located kwargs check rg, inl exc)
      | inr old_response =>
          runs (dispatch old_response (decided kwargs check rg old_response)) tr'' r
      end).
  { intros rg tr'. rewrite runs_bind_lift, default_location_ok.
    fold (located kwargs check rg). rewrite runs_bind_get_keyvault, get_call_located.
    split; intros (fetched & tr'' & -> & H); exists fetched, tr''; (split; [done|]);
      destruct (get_keyvault_result fetched) as [exc|old]; try done.
    - by rewrite runs_bind_lift, select_action_ok in H.
    - by rewrite runs_bind_lift, select_action_ok. }
  split.
  - intros (answer & tr' & -> & H). exists answer. destruct answer as [exc|rg].
    + by destruct H as [-> ->].
    + apply Hstep in H as (fetched & tr'' & -> & H). eauto.
  - intros ([exc|rg] & H).
    + destruct H as [-> ->]. by exists (inl exc), [].
    + destruct H as (fetched & tr' & -> & H). eexists (inr rg), _.
      split; [done|]. apply Hstep. eauto.
Qed.
End along.

(* ================================================================== *)
(** * The action is carried out *)
(* ================================================================== *)

(** A tree that returns at once has one run. *)
Lemma runs_pure {R} (t : itree remoteE R) (x : R) tr r :
  observe t = RetF x → runs t tr r ↔ tr = [] ∧ r = x.
Proof. unfold runs. intros ->. apply (runs_Ret_iff x). Qed.

Lemma runs_exec_module_end response self tr r :
  runs (exec_module_end response self) tr r ↔
  tr = [] ∧ r = exec_module_end_result response self.
Proof.
  apply runs_pure. unfold exec_module_end, exec_module_end_result.
  destruct (truthy response); [|done].
  destruct response as [|b|s|l|d]; try done.
  unfold subscript, mbind, M_bind. rewrite !observe_bind.
  by destruct (d !! "id") as [id|].
Qed.

Section dispatch.
Variable old_response : value.
Variable self : AzureRMVaults.
Implicit Types (tr : list event) (r : AzureRMVaults * (exception + dict)).

(** Check mode, create or update: nothing is called. *)
Lemma runs_dispatch_check_create_update tr r :
  to_do self = Create ∨ to_do self = Update → check_mode self = true →
  runs (dispatch old_response self) tr r ↔
  tr = [] ∧ r = (with_changed true self, inr (results (with_changed true self))).
Proof.
  intros Htodo Hcheck. unfold dispatch. rewrite runs_bind_get_self.
  destruct Htodo as [-> | ->]; simpl; rewrite Hcheck;
    rewrite runs_bind_set_result; apply runs_return_results.
Qed.

(** Create or update. *)
Lemma runs_dispatch_create_update tr r :
  to_do self = Create ∨ to_do self = Update → check_mode self = false →
  runs (dispatch old_response self) tr r ↔
  ∃ o,
    runs (create_update_keyvault self) tr (self, o) ∧
    match o with
    | inl exc => r = (self, inl exc)
    | inr response =>
        r = exec_module_end_result response
              (with_changed (changed_after old_response response) self)
    end.
Proof.
  intros Htodo Hcheck. unfold dispatch. rewrite runs_bind_get_self.
  assert (bool_decide (to_do self = Create) || bool_decide (to_do self = Update) = true)
    as -> by (by destruct Htodo as [-> | ->]).
  rewrite Hcheck. rewrite runs_mbind. split.
  - intros (tr1 & self1 & o & H1 & H2).
    assert (self1 = self) as ->.
    { apply runs_create_update_keyvault in H1 as ([exc|[d|h]] & H1).
      - by destruct H1 as [_ [= -> _]].
      - by destruct H1 as [_ [= -> _]].
      - by destruct H1 as (a & _ & [= -> _]). }
    exists o. destruct o as [exc|response].
    + by destruct H2 as [-> ->].
    + destruct H2 as (tr2 & H2 & ->).
      unfold changed_after, with_changed.
      destruct (negb (truthy old_response));
        rewrite runs_bind_set_result, runs_exec_module_end in H2;
        destruct H2 as [-> ->]; by rewrite app_nil_r.
  - intros (o & H1 & H2). exists tr, self, o. split; [done|].
    destruct o as [exc|response]; [done|]. exists []. rewrite app_nil_r.
    split; [|done]. unfold changed_after, with_changed in H2.
    destruct (negb (truthy old_response));
      by rewrite runs_bind_set_result, runs_exec_module_end.
Qed.

(** Check mode, delete: nothing is called. *)
Lemma runs_dispatch_check_delete tr r :
  to_do self = Delete → check_mode self = true →
  runs (dispatch old_response self) tr r ↔
  tr = [] ∧ r = (with_changed true self, inr (results (with_changed true self))).
Proof.
  intros Htodo Hcheck. unfold dispatch. rewrite runs_bind_get_self, Htodo. simpl.
  rewrite runs_bind_set_result. simpl. rewrite Hcheck. apply runs_return_results.
Qed.

(** Delete: the delete call, then the poll. *)
Lemma runs_dispatch_delete tr r :
  to_do self = Delete → check_mode self = false →
  runs (dispatch old_response self) tr r ↔
  ∃ answer tr',
    tr = Event (delete_call self) answer :: tr' ∧
    match answer with
    | inl exc =>
        tr' = [] ∧
        r = (with_changed true self,
             inl (fail_on_CloudError "Error deleting the Key Vault instance: " exc))
    | inr _ =>
        ∃ present last,
          Forall reports_present present ∧
          tr' = polls (get_call self) present last ∧
          ((reports_absent last ∧
            r = (with_changed true self, inr (results (with_changed true self)))) ∨
           (∃ exc, get_keyvault_result last = inl exc ∧
                   r = (with_changed true self, inl exc)))
    end.
Proof.
  intros Htodo Hcheck. unfold dispatch. rewrite runs_bind_get_self, Htodo. simpl.
  rewrite runs_bind_set_result. simpl. rewrite Hcheck. fold (with_changed true self).
  rewrite runs_mbind. setoid_rewrite runs_delete_keyvault.
  assert (Hpoll : ∀ tr' r,
    runs ((while get_keyvault (sleep 20) ≫= λ _, exec_module_end VNone)
            (with_changed true self)) tr' r ↔
    ∃ present last,
      Forall reports_present present ∧
      tr' = polls (get_call self) present last ∧
      ((reports_absent last ∧
        r = (with_changed true self, inr (results (with_changed true self)))) ∨
       (∃ exc, get_keyvault_result last = inl exc ∧
               r = (with_changed true self, inl exc)))).
  { intros tr' r'. rewrite runs_mbind. setoid_rewrite runs_poll.
    change (get_call (with_changed true self)) with (get_call self).
    split.
    - intros (tr1 & self1 & o & (present & last & Hp & -> & Hlast) & H).
      exists present, last. split; [done|].
      destruct Hlast as [[Habs Heq]|(exc & Hexc & Heq)]; injection Heq as -> ->.
      + destruct H as (tr2 & H & ->).
        apply runs_exec_module_end in H as [-> ->]. rewrite app_nil_r. eauto.
      + destruct H as [-> ->]. eauto.
    - intros (present & last & Hp & -> & Hlast).
      destruct Hlast as [[Habs ->]|(exc & Hexc & ->)].
      + exists (polls (get_call self) present last), (with_changed true self), (inr tt).
        split; [eauto 10|]. exists []. rewrite app_nil_r.
        split; [|done]. by apply runs_exec_module_end.
      + exists (polls (get_call self) present last), (with_changed true self), (inl exc).
        split; [|done]. eauto 10. }
  split.
  - intros (tr1 & self1 & o & (answer & -> & Heq) & H). injection Heq as -> ->.
    exists answer. destruct answer as [exc|[]].
    + destruct H as [-> ->]. by exists [].
    + destruct H as (tr2 & H & ->). exists tr2. split; [done|]. by apply Hpoll.
  - intros (answer & tr' & -> & H).
    eexists [_], _, _. split; [by exists answer|].
    destruct answer as [exc|[]].
    + by destruct H as [-> ->].
    + exists tr'. split; [|done]. by apply Hpoll.
Qed.

(** No action. *)
Lemma runs_dispatch_no_action tr r :
  to_do self = NoAction →
  runs (dispatch old_response self) tr r ↔
  tr = [] ∧ r = exec_module_end_result old_response (with_changed false self).
Proof.
  intros Htodo. unfold dispatch. rewrite runs_bind_get_self, Htodo. simpl.
  rewrite runs_bind_set_result. apply runs_exec_module_end.
Qed.
End dispatch.

(* ================================================================== *)
(** * Concrete runs *)
(* ================================================================== *)

(** What [play] finds is a run. *)
Lemma play_runs {R} (fuel : nat) (s : script) (t : itree remoteE R) tr r :
  play fuel s t = Some (tr, r) → runs t tr r.
Proof.
  revert s t tr r. induction fuel as [|fuel IH]; intros s t tr r; [done|].
  unfold runs. simpl. destruct (observe t) as [r'|t'|X e k].
  - intros [= <- <-]. constructor.
  - intros H. constructor. by eapply IH.
  - destruct (answer_of s e) as [answer s'].
    destruct (play fuel s' (k answer)) as [[tr' r']|] eqn:Hplay; [|done].
    intros [= <- <-]. constructor. by eapply IH.
Qed.

(** Close an equation between closed terms by evaluation. *)
Ltac vm_refl :=
  lazymatch goal with
  | |- ?a = ?b => exact (eq_refl b <: a = b)
  end.

Lemma ansible_params_options desired location access_policies :
  ansible_params (options desired location access_policies).
Proof.
  intros key Hkey. unfold module_arg_spec_keys in Hkey.
  repeat (apply elem_of_cons in Hkey as [->|Hkey]); [..|by apply elem_of_nil in Hkey];
    by eexists.
Qed.

(* ================================================================== *)
(** * The invocation, case by case *)
(* ================================================================== *)

Section cases.
Variable kwargs : dict.
Variable check : bool.
Hypothesis Hkwargs : ansible_params kwargs.

Lemma to_do_decided rg old_response :
  to_do (decided kwargs check rg old_response) =
  selected old_response (option_value kwargs "state").
Proof.
  destruct (located_fields kwargs check rg) as (_ & _ & Hstate & Htodo & _).
  unfold decided, select_action, selected. rewrite Hstate.
  by destruct (truthy old_response),
    (value_eqb (option_value kwargs "state") (VStr "absent")),
    (value_eqb (option_value kwargs "state") (VStr "present")).
Qed.

Lemma get_call_decided rg old_response :
  get_call (decided kwargs check rg old_response) = fetch_call kwargs.
Proof.
  unfold get_call, fetch_call.
  by destruct (decided_fields kwargs check rg old_response) as (-> & -> & _).
Qed.

(** The three ways an invocation can go: the lookup of the resource
    group raises; the fetch of the vault raises; or both answer and the
    chosen action is carried out. *)
Lemma invocation_cases tr self' out :
  runs (invocation kwargs check) tr (self', out) →
  (∃ exc,
     tr = [Event (lookup_call kwargs) (inl exc)] ∧
     self' = prepared kwargs check ∧ out = inl exc) ∨
  (∃ rg answer exc,
     tr = [Event (lookup_call kwargs) (inr rg); Event (fetch_call kwargs) answer] ∧
     get_keyvault_result answer = inl exc ∧
     self' = located kwargs check rg ∧ out = inl exc) ∨
  (∃ rg answer old_response tr',
     tr = Event (lookup_call kwargs) (inr rg) ::
          Event (fetch_call kwargs) answer :: tr' ∧
     get_keyvault_result answer = inr old_response ∧
     runs (dispatch old_response (decided kwargs check rg old_response)) tr'
       (self', out)).
Proof using Hkwargs.
  intros H. apply (runs_invocation _ _ _ _ Hkwargs) in H as ([exc|rg] & H).
  - destruct H as [-> [= -> ->]]. left. eauto.
  - destruct H as (answer & tr' & -> & H).
    destruct (get_keyvault_result answer) as [exc|old_response] eqn:Hres.
    + destruct H as [-> [= -> ->]]. right. left. eauto 10.
    + right. right. eauto 10.
Qed.
End cases.

(** The run of [dispatch] changes [results] and nothing else. *)
Lemma dispatch_frame old_response self tr self' out :
  runs (dispatch old_response self) tr (self', out) →
  ∃ res, self' = set_results res self.
Proof.
  intros H.
  assert (Hend : ∀ response s, ∃ res, (exec_module_end_result response s).1 = set_results res s).
  { intros response s. unfold exec_module_end_result.
    destruct (truthy response); [|by exists (results s); destruct s].
    destruct response as [| | | |d]; try (by exists (results s); destruct s).
    destruct (d !! "id"); [by eexists|by exists (results s); destruct s]. }
  assert (Hself : ∀ b, ∃ res, with_changed b self = set_results res self) by (by eexists).
  destruct (to_do self) eqn:Htodo.
  - apply runs_dispatch_no_action in H as [-> Heq]; [|done].
    destruct (Hend old_response (with_changed false self)) as [res Hres].
    rewrite <- Heq in Hres. simpl in Hres. subst. by eexists.
  - destruct (check_mode self) eqn:Hcheck.
    + apply runs_dispatch_check_create_update in H as [-> [= -> ->]]; auto.
    + apply runs_dispatch_create_update in H as (o & _ & H); auto.
      destruct o as [exc|response]; [injection H as -> ->; by exists (results self); destruct self|].
      destruct (Hend response (with_changed (changed_after old_response response) self))
        as [res Hres].
      rewrite <- H in Hres. simpl in Hres. subst. by eexists.
  - destruct (check_mode self) eqn:Hcheck.
    + apply runs_dispatch_check_create_update in H as [-> [= -> ->]]; auto.
    + apply runs_dispatch_create_update in H as (o & _ & H); auto.
      destruct o as [exc|response]; [injection H as -> ->; by exists (results self); destruct self|].
      destruct (Hend response (with_changed (changed_after old_response response) self))
        as [res Hres].
      rewrite <- H in Hres. simpl in Hres. subst. by eexists.
  - destruct (check_mode self) eqn:Hcheck.
    + apply runs_dispatch_check_delete in H as [-> [= -> ->]]; auto.
    + apply runs_dispatch_delete in H as (answer & tr' & -> & H); auto.
      destruct answer as [exc|[]].
      * destruct H as [-> [= -> ->]]. auto.
      * destruct H as (present & last & _ & _ & [[_ [= -> ->]]|(exc & _ & [= -> ->])]); auto.
Qed.

(* ================================================================== *)
(** * The reconciler chooses its action *)
(* ================================================================== *)

(** C1.  In every invocation that fetches the vault, the action left in
    [to_do] is the one the observed and the desired state call for:
    [NoAction] when the vault is reported absent and [state] is
    [absent], [Create] when it is reported absent and [state] is
    [present], [Delete] when it is reported present and [state] is
    [absent], [Update] when it is reported present and [state] is
    [present].  The vault is reported present when [get_keyvault] returns
    a vault (a non-empty dictionary), and absent when it returns a false
    value. *)
Theorem action_selected kwargs check tr self' out answer :
  ansible_params kwargs →
  runs (invocation kwargs check) tr (self', out) →
  fetched tr = Some answer →
  (reports_absent answer → option_value kwargs "state" = VStr "absent" →
   to_do self' = NoAction) ∧
  (reports_absent answer → option_value kwargs "state" = VStr "present" →
   to_do self' = Create) ∧
  (reports_present answer → option_value kwargs "state" = VStr "absent" →
   to_do self' = Delete) ∧
  (reports_present answer → option_value kwargs "state" = VStr "present" →
   to_do self' = Update).
Proof.
  intros Hk Hrun Hfetched.
  apply (invocation_cases _ _ Hk) in Hrun
    as [(exc & -> & _)|[(rg & a & exc & -> & Hres & _)
                       |(rg & a & old & tr' & -> & Hres & Hrun)]].
  - done.
  - injection Hfetched as ->. unfold reports_absent, reports_present. rewrite Hres.
    by repeat split.
  - injection Hfetched as ->. unfold reports_absent, reports_present. rewrite Hres.
    apply dispatch_frame in Hrun as [res ->]. simpl.
    rewrite to_do_decided. unfold selected.
    repeat split; intros Ht Hs; by rewrite Ht, Hs.
Qed.

Lemma action_selected_witness :
  runs (invocation kw_absent false) trace_delete
    (final_delete, inr {[ "changed" := VBool true ]}) ∧
  to_do final_delete = Delete.
Proof.
  assert (Hrun : runs (invocation kw_absent false) trace_delete
                   (final_delete, inr {[ "changed" := VBool true ]})).
  { apply (play_runs 20 script_delete). vm_refl. }
  split; [exact Hrun|].
  refine (proj1 (proj2 (proj2
    (action_selected kw_absent false trace_delete final_delete _
       (inr (kv1 "standard")) (ansible_params_options _ _ _) Hrun _))) _ _).
  - reflexivity.
  - change (truthy (VDict (kv1 "standard")) = true). vm_refl.
  - reflexivity.
Defined.

(* ================================================================== *)
(** * The payload the normaliser builds *)
(* ================================================================== *)

Lemma parameters_normalized kwargs check :
  parameters (normalized kwargs check) =
  payload_of (given kwargs "location") (properties_of kwargs).
Proof. done. Qed.

Lemma given_Some kwargs key v :
  given kwargs key = Some v ↔ kwargs !! key = Some v ∧ v ≠ VNone.
Proof.
  unfold given. destruct (kwargs !! key) as [w|]; [|naive_solver].
  destruct w; simpl; naive_solver.
Qed.

Lemma properties_of_given kwargs key :
  key ∈ property_keys → properties_of kwargs !! key = given kwargs key.
Proof.
  intros Hkey. destruct (given kwargs key) as [v|] eqn:Hg.
  - apply given_Some in Hg as [Hv Hnn]. by apply properties_of_lookup.
  - destruct (properties_of kwargs !! key) as [v|] eqn:Hp; [|done].
    apply properties_of_lookup in Hp as (_ & Hv & Hnn).
    assert (given kwargs key = Some v) by (by apply given_Some). congruence.
Qed.

(** C5.  Every option among tenant id, SKU, access policies, vault URI,
    the three enablement flags, the soft-delete flag and the create mode
    that is not [None] is an entry of the [properties] container of the
    payload, under its own name and with its value; an option that is
    [None] has no entry there; the container is there only when it holds
    something; the top level of the payload holds nothing but [location]
    and [properties]; and [properties] holds nothing but these options. *)
Theorem properties_container kwargs check :
  ansible_params kwargs →
  ∃ self,
    normalize kwargs (init check) = (self, inr tt) ∧
    (∀ key v,
       key ∈ property_keys → kwargs !! key = Some v → v ≠ VNone →
       ∃ props, parameters self !! "properties" = Some (VDict props) ∧
                props !! key = Some v) ∧
    (∀ key,
       key ∈ property_keys → kwargs !! key = Some VNone →
       ∀ props, parameters self !! "properties" = Some (VDict props) →
                props !! key = None) ∧
    ((∀ key, key ∈ property_keys → kwargs !! key = Some VNone) →
     parameters self !! "properties" = None) ∧
    (∀ key, is_Some (parameters self !! key) → key = "location" ∨ key = "properties") ∧
    (∀ props key,
       parameters self !! "properties" = Some (VDict props) →
       is_Some (props !! key) → key ∈ property_keys).
Proof.
  intros Hk. exists (normalized kwargs check).
  split; [by apply normalize_normalized|].
  rewrite parameters_normalized, payload_of_properties.
  assert (Htop : ∀ key, is_Some (payload_of (given kwargs "location")
                                   (properties_of kwargs) !! key) →
                        key = "location" ∨ key = "properties").
  { intros key. unfold payload_of.
    destruct (decide (key = "location")) as [->|?]; [by left|].
    destruct (decide (key = "properties")) as [->|?]; [by right|].
    destruct (decide (properties_of kwargs = ∅)), (given kwargs "location");
      simplify_map_eq; by intros [? [=]]. }
  split; [|split; [|split; [|split]]].
  - intros key v Hkey Hv Hnn. exists (properties_of kwargs).
    assert (Hp : properties_of kwargs !! key = Some v) by (by apply properties_of_lookup).
    split; [|done]. destruct (decide (properties_of kwargs = ∅)) as [He|]; [|done].
    by rewrite He, lookup_empty in Hp.
  - intros key Hkey Hnone props Hprops.
    destruct (decide (properties_of kwargs = ∅)); [done|].
    injection Hprops as <-. destruct (properties_of kwargs !! key) as [v|] eqn:Hp; [|done].
    apply properties_of_lookup in Hp as (_ & Hv & Hnn). congruence.
  - intros Hnone. destruct (decide (properties_of kwargs = ∅)) as [|Hne]; [done|].
    exfalso. apply Hne. apply map_eq. intros key. rewrite lookup_empty.
    destruct (properties_of kwargs !! key) as [v|] eqn:Hp; [|done].
    apply properties_of_lookup in Hp as (Hkey & Hv & Hnn).
    specialize (Hnone key Hkey). congruence.
  - done.
  - intros props key Hp [v Hv]. destruct (decide (properties_of kwargs = ∅)); [done|].
    injection Hp as <-. by apply properties_of_lookup in Hv as (? & _).
Qed.

Lemma properties_container_witness :
  ansible_params kw_present ∧
  ∃ props,
    parameters (normalize kw_present (init false)).1 !! "properties" = Some (VDict props) ∧
    props !! "sku" =
      Some (VDict (list_to_map [("family", VStr "A"); ("name", VStr "standard")])).
Proof.
  split; [apply ansible_params_options|].
  destruct (properties_container kw_present false (ansible_params_options _ _ _))
    as (self & Hnorm & Hgiven & _).
  rewrite Hnorm. apply Hgiven.
  - unfold property_keys. rewrite !elem_of_cons. auto.
  - reflexivity.
  - discriminate.
Defined.

(** C2, on the code.  The normaliser hands an access policy over as it
    got it, and so it is sent: for the entry [policy_entry], which
    carries its key permissions in the field [keys], the entry in the
    payload the normaliser builds, and in the payload of the
    create-or-update call, still has the top-level field [keys] and has
    no [permissions] container. *)
Theorem access_policy_left_flat :
  ∃ props,
    parameters (normalize kw_policy (init false)).1 !! "properties" = Some (VDict props) ∧
    runs (invocation kw_policy false) trace_policy (final_policy, inr result_create) ∧
    payloads trace_policy = [payload_policy] ∧
    payload_policy !! "properties" = Some (VDict props) ∧
    props !! "access_policies" = Some (VList [VDict policy_entry]) ∧
    policy_entry !! "keys" = Some (VList [VStr "get"; VStr "list"]) ∧
    policy_entry !! "permissions" = None.
Proof.
  exists (list_to_map
            [ ("sku", VDict (list_to_map [("family", VStr "A");
                                          ("name", VStr "standard")]));
              ("access_policies", VList [VDict policy_entry]) ]).
  split; [vm_refl|].
  split; [apply (play_runs 20 script_create); vm_refl|].
  split; [reflexivity|].
  split; [vm_refl|]. split; [vm_refl|]. split; vm_refl.
Qed.

(** [rename_key] moves a field that is there, and leaves the dictionary
    alone otherwise; [adjust_parameters] never calls it. *)
Lemma rename_key_moves (d : dict) old_name new_name v :
  d !! old_name = Some v → v ≠ VNone → old_name ≠ new_name →
  rename_key d old_name new_name !! new_name = Some v ∧
  rename_key d old_name new_name !! old_name = None.
Proof.
  intros Hv Hnn Hne. unfold rename_key. rewrite Hv.
  destruct v; try done; by simplify_map_eq.
Qed.

(* ================================================================== *)
(** * The location of the payload *)
(* ================================================================== *)

Lemma parameters_located kwargs check rg :
  parameters (located kwargs check rg) !! "location" =
  Some (default (rg_location rg) (given kwargs "location")).
Proof.
  unfold located, default_location.
  change (parameters (prepared kwargs check))
    with (payload_of (given kwargs "location") (properties_of kwargs)).
  rewrite payload_of_lookup_location.
  destruct (given kwargs "location") as [v|] eqn:Hg; simpl.
  - change (parameters (prepared kwargs check))
      with (payload_of (given kwargs "location") (properties_of kwargs)).
    by rewrite payload_of_lookup_location.
  - by rewrite lookup_insert_eq.
Qed.

Lemma parameters_located_properties kwargs check rg :
  parameters (located kwargs check rg) !! "properties" =
  parameters (normalized kwargs check) !! "properties".
Proof.
  unfold located, default_location.
  destruct (parameters (prepared kwargs check) !! "location"); simpl; [done|].
  by rewrite lookup_insert_ne.
Qed.

Lemma payloads_app tr1 tr2 : payloads (tr1 ++ tr2) = payloads tr1 ++ payloads tr2.
Proof.
  induction tr1 as [|[X e a] tr1 IH]; [done|]. simpl. destruct e; simpl; by rewrite ?IH.
Qed.

Lemma payloads_polls rg name present last :
  payloads (polls (vaults_get rg name) present last) = [].
Proof. induction present as [|a present IH]; [done|]. simpl. exact IH. Qed.

Lemma calls_app kind tr1 tr2 : calls kind (tr1 ++ tr2) = calls kind tr1 + calls kind tr2.
Proof. unfold calls. by rewrite List.filter_app, length_app. Qed.

Lemma calls_polls kind rg name present last :
  (∀ answer, kind (Event (vaults_get rg name) answer) = false) →
  kind (Event (time_sleep 20) tt) = false →
  calls kind (polls (vaults_get rg name) present last) = 0.
Proof.
  intros Hget Hsleep. unfold calls.
  induction present as [|a present IH]; simpl; by rewrite ?Hget, ?Hsleep.
Qed.

(** What [dispatch] sends and calls. *)
Lemma dispatch_trace old_response self tr self' out :
  runs (dispatch old_response self) tr (self', out) →
  (∀ payload, payload ∈ payloads tr → payload = parameters self) ∧
  calls is_create_or_update tr =
    (if check_mode self then 0
     else if bool_decide (to_do self = Create ∨ to_do self = Update) then 1 else 0) ∧
  calls is_delete tr =
    (if check_mode self then 0
     else if bool_decide (to_do self = Delete) then 1 else 0).
Proof.
  intros H. destruct (to_do self) eqn:Htodo.
  - apply runs_dispatch_no_action in H as [-> _]; [|done].
    split; [by intros p Hp; apply elem_of_nil in Hp|]. by destruct (check_mode self).
  - destruct (check_mode self) eqn:Hcheck.
    + apply runs_dispatch_check_create_update in H as [-> _]; auto.
      split; [by intros p Hp; apply elem_of_nil in Hp|done].
    + apply runs_dispatch_create_update in H as (o & H & _); auto.
      apply runs_create_update_keyvault in H as ([exc|[d|h]] & H).
      * destruct H as [-> _]. split; [|done]. intros p Hp. simpl in Hp.
        by apply list_elem_of_singleton in Hp.
      * destruct H as [-> _]. split; [|done]. intros p Hp. simpl in Hp.
        by apply list_elem_of_singleton in Hp.
      * destruct H as (a & -> & _). split; [|done]. intros p Hp. simpl in Hp.
        by apply list_elem_of_singleton in Hp.
  - destruct (check_mode self) eqn:Hcheck.
    + apply runs_dispatch_check_create_update in H as [-> _]; auto.
      split; [by intros p Hp; apply elem_of_nil in Hp|done].
    + apply runs_dispatch_create_update in H as (o & H & _); auto.
      apply runs_create_update_keyvault in H as ([exc|[d|h]] & H).
      * destruct H as [-> _]. split; [|done]. intros p Hp. simpl in Hp.
        by apply list_elem_of_singleton in Hp.
      * destruct H as [-> _]. split; [|done]. intros p Hp. simpl in Hp.
        by apply list_elem_of_singleton in Hp.
      * destruct H as (a & -> & _). split; [|done]. intros p Hp. simpl in Hp.
        by apply list_elem_of_singleton in Hp.
  - destruct (check_mode self) eqn:Hcheck.
    + apply runs_dispatch_check_delete in H as [-> _]; auto.
      split; [by intros p Hp; apply elem_of_nil in Hp|done].
    + apply runs_dispatch_delete in H as (answer & tr' & -> & H); auto.
      destruct answer as [exc|[]].
      * destruct H as [-> _]. split; [by intros p Hp; apply elem_of_nil in Hp|done].
      * destruct H as (present & last & _ & -> & _). unfold get_call.
        split; [|split].
        -- intros p Hp. simpl in Hp. rewrite payloads_polls in Hp.
           by apply elem_of_nil in Hp.
        -- change (Event (delete_call self) (inr ()) :: ?l)
             with ([Event (delete_call self) (inr ())] ++ l).
           rewrite calls_app, calls_polls; done.
        -- change (Event (delete_call self) (inr ()) :: ?l)
             with ([Event (delete_call self) (inr ())] ++ l).
           rewrite calls_app, calls_polls; done.
Qed.

(** C6.  When [location] is given, the payload the normaliser builds has
    it at the top level, as given, and so has the payload of every
    create-or-update call; when [location] is not given, the payload the
    normaliser builds has no top-level [location], and the payload of
    every create-or-update call carries the location of the resource
    group that was looked up. *)
Theorem location_of_payload kwargs check :
  ansible_params kwargs →
  ∃ self,
    normalize kwargs (init check) = (self, inr tt) ∧
    (∀ v, kwargs !! "location" = Some v → v ≠ VNone →
          parameters self !! "location" = Some v) ∧
    (kwargs !! "location" = Some VNone → parameters self !! "location" = None) ∧
    (∀ tr self' out rg payload,
       runs (invocation kwargs check) tr (self', out) →
       looked_up tr = Some (inr rg) →
       payload ∈ payloads tr →
       (∀ v, kwargs !! "location" = Some v → v ≠ VNone →
             payload !! "location" = Some v) ∧
       (kwargs !! "location" = Some VNone →
        payload !! "location" = Some (rg_location rg))).
Proof.
  intros Hk. exists (normalized kwargs check).
  split; [by apply normalize_normalized|].
  rewrite parameters_normalized, payload_of_lookup_location.
  split; [|split].
  - intros v Hv Hnn. by apply given_Some.
  - intros Hv. unfold given. by rewrite Hv.
  - intros tr self' out rg payload Hrun Hrg Hp.
    apply (invocation_cases _ _ Hk) in Hrun
      as [(exc & -> & _)|[(rg' & a & exc & -> & _)
                         |(rg' & a & old & tr' & -> & Hres & Hrun)]].
    + done.
    + by apply elem_of_nil in Hp.
    + injection Hrg as ->. simpl in Hp.
      apply dispatch_trace in Hrun as (Hpayload & _).
      apply Hpayload in Hp as ->.
      destruct (decided_fields kwargs check rg old) as (_ & _ & _ & _ & _ & ->).
      rewrite parameters_located. split.
      * intros v Hv Hnn. assert (given kwargs "location" = Some v) as ->; [|done].
        by apply given_Some.
      * intros Hv. unfold given. by rewrite Hv.
Qed.

Lemma location_of_payload_witness :
  ansible_params kw_present ∧
  runs (invocation kw_present false) trace_create (final_create, inr result_create) ∧
  payload_kv1 ∈ payloads trace_create ∧
  payload_kv1 !! "location" = Some (VStr "westeurope").
Proof.
  assert (Hrun : runs (invocation kw_present false) trace_create
                   (final_create, inr result_create)).
  { apply (play_runs 20 script_create). vm_refl. }
  assert (Hin : payload_kv1 ∈ payloads trace_create) by (simpl; apply list_elem_of_here).
  split; [apply ansible_params_options|]. split; [exact Hrun|]. split; [exact Hin|].
  destruct (location_of_payload kw_present false (ansible_params_options _ _ _))
    as (self & _ & _ & _ & Hsent).
  refine (proj2 (Hsent trace_create final_create _ rg1 payload_kv1 Hrun _ Hin) _);
    reflexivity.
Defined.

(* ================================================================== *)
(** * The resource group is looked up first *)
(* ================================================================== *)

(** C10.  Every invocation, whatever [state] is and whatever action it
    would choose, starts with the lookup of the resource group.  When the
    lookup raises, the invocation ends there with that exception and the
    vault is not fetched.  When it answers, the payload has its
    [location] (the one given, or else the resource group's) and the
    vault is fetched next; the payload keeps this [location] to the end
    of the invocation, also when the fetch itself raises, so the default
    was in place before the fetch. *)
Theorem lookup_comes_first kwargs check tr self' out :
  ansible_params kwargs →
  runs (invocation kwargs check) tr (self', out) →
  ∃ answer tr',
    tr = Event (lookup_call kwargs) answer :: tr' ∧
    match answer with
    | inl exc => tr' = [] ∧ out = inl exc
    | inr rg =>
        (∃ fetched tr'', tr' = Event (fetch_call kwargs) fetched :: tr'') ∧
        parameters self' !! "location" =
          Some (default (rg_location rg) (given kwargs "location"))
    end.
Proof.
  intros Hk Hrun.
  apply (invocation_cases _ _ Hk) in Hrun
    as [(exc & -> & _ & ->)|[(rg & a & exc & -> & _ & -> & ->)
                            |(rg & a & old & tr' & -> & Hres & Hrun)]].
  - by exists (inl exc), [].
  - eexists (inr rg), _. split; [done|]. split; [eauto|]. apply parameters_located.
  - eexists (inr rg), _. split; [done|]. split; [eauto|].
    apply dispatch_frame in Hrun as [res ->]. simpl.
    destruct (decided_fields kwargs check rg old) as (_ & _ & _ & _ & _ & ->).
    apply parameters_located.
Qed.

Lemma lookup_comes_first_witness :
  ansible_params kw_absent ∧
  runs (invocation kw_absent false) trace_no_group
    (prepared kw_absent false,
     inl (SystemExit "Parameter error: resource group rg1 not found")) ∧
  ∃ answer tr',
    trace_no_group = Event (lookup_call kw_absent) answer :: tr' ∧
    match answer with
    | inl exc =>
        tr' = [] ∧
        inl (SystemExit "Parameter error: resource group rg1 not found")
        = (inl exc : exception + dict)
    | inr rg =>
        (∃ fetched tr'', tr' = Event (fetch_call kw_absent) fetched :: tr'') ∧
        parameters (prepared kw_absent false) !! "location" =
          Some (default (rg_location rg) (given kw_absent "location"))
    end.
Proof.
  assert (Hrun : runs (invocation kw_absent false) trace_no_group
                   (prepared kw_absent false,
                    inl (SystemExit "Parameter error: resource group rg1 not found"))).
  { apply (play_runs 20 script_no_group). vm_refl. }
  split; [apply ansible_params_options|]. split; [exact Hrun|].
  exact (lookup_comes_first kw_absent false trace_no_group _ _
           (ansible_params_options _ _ _) Hrun).
Defined.

(* ================================================================== *)
(** * Check mode *)
(* ================================================================== *)

Lemma results_decided_changed kwargs check rg old b :
  results (with_changed b (decided kwargs check rg old)) = {[ "changed" := VBool b ]}.
Proof.
  unfold with_changed. simpl.
  destruct (decided_fields kwargs check rg old) as (_ & _ & _ & _ & -> & _).
  by rewrite insert_singleton_eq.
Qed.

Lemma exec_module_end_result_changed response self res :
  (exec_module_end_result response self).2 = inr res →
  res !! "changed" = results self !! "changed".
Proof.
  unfold exec_module_end_result. destruct (truthy response); [|by intros [= <-]].
  destruct response as [| | | |d]; try done.
  destruct (d !! "id"); [|done]. intros [= <-]. by rewrite lookup_insert_ne.
Qed.

(** C7.  An invocation in check mode makes no create-or-update and no
    delete call; when it returns, [changed] is true if the action chosen
    is [Create], [Update] or [Delete] and false if it is [NoAction]; and
    it does return whenever an action other than [NoAction] is chosen. *)
Theorem check_mode_calls_nothing kwargs tr self' out :
  ansible_params kwargs →
  runs (invocation kwargs true) tr (self', out) →
  calls is_mutating tr = 0 ∧
  (∀ res, out = inr res →
          res !! "changed" = Some (VBool (bool_decide (to_do self' ≠ NoAction)))) ∧
  (to_do self' ≠ NoAction → ∃ res, out = inr res).
Proof.
  intros Hk Hrun.
  apply (invocation_cases _ _ Hk) in Hrun
    as [(exc & -> & -> & ->)|[(rg & a & exc & -> & _ & -> & ->)
                             |(rg & a & old & tr' & -> & Hres & Hrun)]].
  - repeat split; [done|]. by intros [].
  - repeat split; [done|]. destruct (located_fields kwargs true rg) as (_ & _ & _ & -> & _).
    by intros [].
  - pose proof (dispatch_frame _ _ _ _ _ Hrun) as [res' Hself].
    assert (Htodo : to_do self' = to_do (decided kwargs true rg old)) by (by subst).
    destruct (decided_fields kwargs true rg old) as (_ & _ & _ & Hcheck & Hresults & _).
    rewrite Htodo. destruct (to_do (decided kwargs true rg old)) eqn:Hdo.
    + apply runs_dispatch_no_action in Hrun as [-> Heq]; [|done].
      split; [done|]. split; [|done]. intros res ->.
      apply (f_equal snd) in Heq. simpl in Heq. symmetry in Heq.
      apply exec_module_end_result_changed in Heq as ->.
      by rewrite results_decided_changed.
    + apply runs_dispatch_check_create_update in Hrun as [-> Heq]; auto.
      injection Heq as _ ->. rewrite Hresults, insert_singleton_eq.
      split; [done|]. split; [by intros res [= <-]|eauto].
    + apply runs_dispatch_check_create_update in Hrun as [-> Heq]; auto.
      injection Heq as _ ->. rewrite Hresults, insert_singleton_eq.
      split; [done|]. split; [by intros res [= <-]|eauto].
    + apply runs_dispatch_check_delete in Hrun as [-> Heq]; auto.
      injection Heq as _ ->. rewrite Hresults, insert_singleton_eq.
      split; [done|]. split; [by intros res [= <-]|eauto].
Qed.

Lemma check_mode_calls_nothing_witness :
  ansible_params kw_present ∧
  runs (invocation kw_present true) trace_check
    (final_check, inr {[ "changed" := VBool true ]}) ∧
  calls is_mutating trace_check = 0 ∧
  to_do final_check = Update.
Proof.
  assert (Hrun : runs (invocation kw_present true) trace_check
                   (final_check, inr {[ "changed" := VBool true ]})).
  { apply (play_runs 20 script_update). vm_refl. }
  split; [apply ansible_params_options|]. split; [exact Hrun|].
  split; [|vm_refl].
  exact (proj1 (check_mode_calls_nothing kw_present trace_check final_check _
                  (ansible_params_options _ _ _) Hrun)).
Defined.

(* ================================================================== *)
(** * Create and update *)
(* ================================================================== *)

Lemma created_create_update self tr o :
  runs (create_update_keyvault self) tr (self, o) →
  calls is_create_or_update tr = 1 ∧
  ∀ response, o = inr response → ∃ new, response = VDict new ∧ created tr = Some new.
Proof.
  intros H. apply runs_create_update_keyvault in H as ([exc|[d|h]] & H).
  - destruct H as [-> Heq]. injection Heq as ->. by split.
  - destruct H as [-> Heq]. injection Heq as ->. split; [done|].
    intros ? [= <-]. eauto.
  - destruct H as ([exc|d] & -> & Heq); injection Heq as ->; (split; [done|]); [done|].
    intros ? [= <-]. eauto.
Qed.

(** C3, as the code has it.  In an invocation that is not in check mode,
    with [state] [present]:
    - when the vault is reported present, one create-or-update call is
      made, whatever the payload, and when the invocation returns,
      [changed] is true exactly when the vault handed back differs from
      the vault that was fetched;
    - when the vault is reported absent, one create-or-update call is
      made, and when the invocation returns, [changed] is true. *)
Theorem create_or_update_once kwargs tr self' out :
  ansible_params kwargs →
  runs (invocation kwargs false) tr (self', out) →
  option_value kwargs "state" = VStr "present" →
  (∀ old, fetched tr = Some (inr old) → old ≠ ∅ →
     calls is_create_or_update tr = 1 ∧
     ∀ res, out = inr res →
       ∃ new changed,
         created tr = Some new ∧
         res !! "changed" = Some (VBool changed) ∧
         (changed = true ↔ old ≠ new)) ∧
  (∀ answer, fetched tr = Some answer → reports_absent answer →
     calls is_create_or_update tr = 1 ∧
     ∀ res, out = inr res → res !! "changed" = Some (VBool true)).
Proof.
  intros Hk Hrun Hstate.
  apply (invocation_cases _ _ Hk) in Hrun
    as [(exc & -> & _)|[(rg & a & exc & -> & Hres & _)
                       |(rg & a & old_response & tr' & -> & Hres & Hrun)]].
  - split; by intros.
  - split.
    + intros old [= ->]. done.
    + intros answer [= ->]. unfold reports_absent. by rewrite Hres.
  - destruct (decided_fields kwargs false rg old_response)
      as (_ & _ & _ & Hcheck & Hresults & _).
    pose proof (to_do_decided kwargs false rg old_response) as Htodo.
    rewrite Hstate in Htodo. unfold selected in Htodo. simpl in Htodo.
    assert (Hcu : to_do (decided kwargs false rg old_response) = Create ∨
                  to_do (decided kwargs false rg old_response) = Update).
    { destruct (truthy old_response); auto. }
    apply (runs_dispatch_create_update _ _ _ _ Hcu Hcheck) in Hrun as (o & Hrun & Hout).
    apply created_create_update in Hrun as [Hcalls Hcreated].
    assert (Hchanged : ∀ res, out = inr res →
              ∃ new, created tr' = Some new ∧
                     res !! "changed" =
                       Some (VBool (changed_after old_response (VDict new)))).
    { intros res ->. destruct o as [exc|response]; [done|].
      destruct (Hcreated response eq_refl) as (new & -> & Hnew).
      exists new. split; [done|].
      apply (f_equal snd) in Hout. simpl in Hout. symmetry in Hout.
      apply exec_module_end_result_changed in Hout as ->.
      unfold with_changed. simpl. by rewrite lookup_insert_eq. }
    split.
    + intros old [= ->] Hold. simpl in Hres. injection Hres as <-.
      split; [exact Hcalls|]. intros res Hret.
      destruct (Hchanged res Hret) as (new & Hnew & Hres).
      exists new, (changed_after (VDict old) (VDict new)).
      split; [done|]. split; [done|].
      unfold changed_after. rewrite (proj2 (truthy_dict old) Hold).
      change (negb true) with false. cbv iota.
      rewrite negb_true_iff, value_eqb_neq. split; congruence.
    + intros answer [= ->] Habs. unfold reports_absent in Habs. rewrite Hres in Habs.
      split; [exact Hcalls|]. intros res Hret.
      destruct (Hchanged res Hret) as (new & Hnew & ->).
      unfold changed_after. by rewrite Habs.
Qed.

Lemma create_or_update_once_witness :
  ansible_params kw_present ∧
  runs (invocation kw_present false) trace_update (final_update, inr result_create) ∧
  calls is_create_or_update trace_update = 1 ∧
  ∃ new changed,
    created trace_update = Some new ∧
    result_create !! "changed" = Some (VBool changed) ∧
    (changed = true ↔ kv1 "premium" ≠ new).
Proof.
  assert (Hrun : runs (invocation kw_present false) trace_update
                   (final_update, inr result_create)).
  { apply (play_runs 20 script_update). vm_refl. }
  split; [apply ansible_params_options|]. split; [exact Hrun|].
  destruct (proj1 (create_or_update_once kw_present trace_update final_update _
                     (ansible_params_options _ _ _) Hrun eq_refl)
              (kv1 "premium") eq_refl) as [Hcalls Hchanged].
  { intros He. apply (f_equal (λ d : dict, d !! "id")) in He. discriminate He. }
  split; [exact Hcalls|]. exact (Hchanged _ eq_refl).
Defined.

(** The claim as it is worded covers check mode too, and fails there:
    in check mode, with the vault present and [state] [present], no
    create-or-update call is made. *)
Lemma check_mode_update_counterexample :
  ¬ (∀ kwargs check tr self' out old,
       ansible_params kwargs →
       runs (invocation kwargs check) tr (self', out) →
       option_value kwargs "state" = VStr "present" →
       fetched tr = Some (inr old) → old ≠ ∅ →
       calls is_create_or_update tr = 1).
Proof.
  intros Hclaim.
  assert (Hrun : runs (invocation kw_present true) trace_check
                   (final_check, inr {[ "changed" := VBool true ]})).
  { apply (play_runs 20 script_update). vm_refl. }
  specialize (Hclaim kw_present true trace_check final_check _ (kv1 "premium")
                (ansible_params_options _ _ _) Hrun eq_refl eq_refl).
  discriminate Hclaim.
  intros He. apply (f_equal (λ d : dict, d !! "id")) in He. discriminate He.
Qed.

(* ================================================================== *)
(** * Delete and the poll *)
(* ================================================================== *)

Lemma reports_absent_not_raised answer exc :
  reports_absent answer → get_keyvault_result answer ≠ inl exc.
Proof. unfold reports_absent. by destruct (get_keyvault_result answer). Qed.

(** C4, as the code has it.  In an invocation that is not in check mode
    and chooses [Delete], the trace is: the lookup, the fetch that found
    the vault, one [vaults.delete] call, and then, when the delete call
    answered, the poll: [vaults.get], with a sleep of 20 seconds after
    every answer that reports the vault present, up to the first answer
    that does not.  Nothing in the poll changes the vault.  The poll ends
    in one of two ways: the last answer reports the vault absent, and
    then the invocation returns; or the last [vaults.get] raised an
    exception that is not a [CloudError], which [get_keyvault] does not
    catch, and then the invocation ends with that exception.  When the
    delete call itself raised, there is no poll.  There is no bound on
    the poll: whatever the number of answers that report the vault
    present before one reports it absent, the invocation has that run. *)
Theorem delete_then_poll kwargs :
  ansible_params kwargs →
  (∀ tr self' out,
     runs (invocation kwargs false) tr (self', out) →
     to_do self' = Delete →
     ∃ rg old answer tr',
       tr = Event (lookup_call kwargs) (inr rg) ::
            Event (fetch_call kwargs) (inr old) ::
            Event (vaults_delete (option_value kwargs "resource_group")
                     (option_value kwargs "vault_name")) answer :: tr' ∧
       calls is_delete tr = 1 ∧
       calls is_mutating tr' = 0 ∧
       match answer with
       | inl exc => tr' = [] ∧ ∃ exc', out = inl exc'
       | inr _ =>
           ∃ present last,
             Forall reports_present present ∧
             tr' = polls (fetch_call kwargs) present last ∧
             ¬ reports_present last ∧
             ((∃ res, out = inr res) ↔ reports_absent last) ∧
             (∀ res, out = inr res → res = {[ "changed" := VBool true ]}) ∧
             (reports_absent last ∨
              ∃ exc, last = inl exc ∧ isinstance_CloudError exc = false ∧
                     out = inl exc)
       end) ∧
  (∀ rg old present last,
     option_value kwargs "state" = VStr "absent" →
     old ≠ ∅ →
     Forall reports_present present →
     reports_absent last →
     ∃ self',
       runs (invocation kwargs false)
         (Event (lookup_call kwargs) (inr rg) ::
          Event (fetch_call kwargs) (inr old) ::
          Event (vaults_delete (option_value kwargs "resource_group")
                   (option_value kwargs "vault_name")) (inr tt) ::
          polls (fetch_call kwargs) present last)
         (self', inr {[ "changed" := VBool true ]}) ∧
       to_do self' = Delete).
Proof.
  intros Hk. split.
  - intros tr self' out Hrun Htodo.
    apply (invocation_cases _ _ Hk) in Hrun
      as [(exc & -> & -> & _)|[(rg & a & exc & -> & _ & -> & _)
                              |(rg & a & old_response & tr' & -> & Hres & Hrun)]].
    + done.
    + by destruct (located_fields kwargs false rg) as (_ & _ & _ & Hdo & _); congruence.
    + assert (Hdo : to_do (decided kwargs false rg old_response) = Delete).
      { pose proof (dispatch_frame _ _ _ _ _ Hrun) as [res' ->]. exact Htodo. }
      clear Htodo. rename Hdo into Htodo.
      destruct (decided_fields kwargs false rg old_response)
        as (Hrg & Hname & _ & Hcheck & Hresults & _).
      assert (∃ old, a = inr old) as [old ->].
      { rewrite to_do_decided in Htodo. unfold selected in Htodo.
        destruct a as [exc|old]; [|by eexists]. simpl in Hres.
        destruct (isinstance_CloudError exc); [|done]. injection Hres as <-.
        simpl in Htodo. by destruct (value_eqb _ _). }
      apply (runs_dispatch_delete _ _ _ _ Htodo Hcheck) in Hrun
        as (answer & tr'' & -> & Hrun).
      unfold delete_call in *. rewrite Hrg, Hname in *.
      rewrite get_call_decided in Hrun. unfold fetch_call in *.
      exists rg, old, answer, tr''. split; [done|].
      destruct answer as [exc|[]].
      * destruct Hrun as [-> Heq]. injection Heq as -> ->. repeat split; eauto.
      * destruct Hrun as (present & last & Hp & -> & Hlast).
        split; [|split].
        { change (calls is_delete [Event (lookup_call kwargs) (inr rg);
                                   Event (vaults_get (option_value kwargs "resource_group")
                                            (option_value kwargs "vault_name")) (inr old);
                                   Event (vaults_delete
                                            (option_value kwargs "resource_group")
                                            (option_value kwargs "vault_name")) (inr ())]
                  + calls is_delete
                      (polls (vaults_get (option_value kwargs "resource_group")
                                (option_value kwargs "vault_name")) present last) = 1).
          by rewrite calls_polls. }
        { by rewrite calls_polls. }
        exists present, last. split; [done|]. split; [done|].
        rewrite results_decided_changed in Hlast.
        destruct Hlast as [[Habs Heq]|(exc & Hexc & Heq)]; injection Heq as -> ->.
        -- split; [|split; [|split]].
           ++ unfold reports_absent in Habs. unfold reports_present.
              destruct (get_keyvault_result last); [done|]. congruence.
           ++ split; eauto.
           ++ by intros res [= <-].
           ++ by left.
        -- split; [|split; [|split]].
           ++ unfold reports_present. rewrite Hexc. tauto.
           ++ split; [by intros [res [=]]|].
              intros Habs. by apply reports_absent_not_raised with (exc := exc) in Habs.
           ++ by intros res [=].
           ++ right. destruct last as [e|d]; [|done]. simpl in Hexc.
              destruct (isinstance_CloudError e) eqn:Hc; [done|].
              injection Hexc as <-. by exists e.
  - intros rg old present last Hstate Hold Hp Habs.
    destruct (decided_fields kwargs false rg (VDict old))
      as (Hrg & Hname & _ & Hcheck & Hresults & _).
    assert (Htodo : to_do (decided kwargs false rg (VDict old)) = Delete).
    { rewrite to_do_decided, Hstate. unfold selected.
      by rewrite (proj2 (truthy_dict old) Hold). }
    exists (with_changed true (decided kwargs false rg (VDict old))).
    split; [|done].
    apply (runs_invocation _ _ _ _ Hk). exists (inr rg).
    eexists (inr old), _. split; [done|]. simpl.
    apply (runs_dispatch_delete _ _ _ _ Htodo Hcheck).
    eexists (inr tt), _. unfold delete_call. rewrite Hrg, Hname. split; [done|].
    exists present, last. split; [done|]. rewrite get_call_decided. split; [done|].
    left. split; [done|]. by rewrite results_decided_changed.
Qed.

Lemma delete_then_poll_witness :
  ansible_params kw_absent ∧
  runs (invocation kw_absent false) trace_delete
    (final_delete, inr {[ "changed" := VBool true ]}) ∧
  to_do final_delete = Delete ∧
  ∃ rg old answer tr',
    trace_delete =
      Event (lookup_call kw_absent) (inr rg) ::
      Event (fetch_call kw_absent) (inr old) ::
      Event (vaults_delete (option_value kw_absent "resource_group")
               (option_value kw_absent "vault_name")) answer :: tr' ∧
    calls is_delete trace_delete = 1 ∧
    calls is_mutating tr' = 0.
Proof.
  assert (Hrun : runs (invocation kw_absent false) trace_delete
                   (final_delete, inr {[ "changed" := VBool true ]})).
  { apply (play_runs 20 script_delete). vm_refl. }
  assert (Htodo : to_do final_delete = Delete) by vm_refl.
  split; [apply ansible_params_options|]. split; [exact Hrun|]. split; [exact Htodo|].
  destruct (proj1 (delete_then_poll kw_absent (ansible_params_options _ _ _))
              trace_delete final_delete _ Hrun Htodo)
    as (rg & old & answer & tr' & Htr & Hdel & Hmut & _).
  exists rg, old, answer, tr'. auto.
Defined.

(** The claim as it is worded lets the poll end only on a fetch that
    reports the vault absent, and fails when [vaults.get] raises an
    exception that is not a [CloudError] during the poll: the poll ends
    there, and no fetch has reported the vault absent. *)
Lemma poll_exception_counterexample :
  ¬ (∀ kwargs tr self' out rg old tr',
       ansible_params kwargs →
       runs (invocation kwargs false) tr (self', out) →
       to_do self' = Delete →
       tr = Event (lookup_call kwargs) (inr rg) ::
            Event (fetch_call kwargs) (inr old) ::
            Event (vaults_delete (option_value kwargs "resource_group")
                     (option_value kwargs "vault_name")) (inr tt) :: tr' →
       ∃ present last,
         Forall reports_present present ∧
         tr' = polls (fetch_call kwargs) present last ∧
         reports_absent last).
Proof.
  intros Hclaim.
  assert (Hrun : runs (invocation kw_absent false) trace_poll_broken
                   (final_delete, inl (OtherException "connection reset"))).
  { apply (play_runs 20 script_poll_broken). vm_refl. }
  destruct (Hclaim kw_absent trace_poll_broken final_delete _ rg1 (kv1 "standard")
              [Event get_kv1 (inl (OtherException "connection reset"))]
              (ansible_params_options _ _ _) Hrun eq_refl eq_refl)
    as (present & last & _ & Hpolls & Habs).
  destruct present as [|answer present]; simpl in Hpolls.
  - injection Hpolls as Hev. inversion Hev as [Hlast]. inj_existT. subst last.
    exact Habs.
  - injection Hpolls as _ Hrest. discriminate Hrest.
Qed.

(* ================================================================== *)
(** * Failures of the remote calls *)
(* ================================================================== *)

Lemma isinstance_fail_on_CloudError context exc :
  isinstance_CloudError (fail_on_CloudError context exc) = false.
Proof. unfold fail_on_CloudError. by destruct exc. Qed.

Lemma get_keyvault_result_raised answer exc :
  get_keyvault_result answer = inl exc → isinstance_CloudError exc = false.
Proof.
  destruct answer as [e|d]; [|done]. simpl.
  destruct (isinstance_CloudError e) eqn:Hc; [done|]. by intros [= <-].
Qed.

Lemma create_update_raised self tr exc :
  runs (create_update_keyvault self) tr (self, inl exc) →
  isinstance_CloudError exc = false.
Proof.
  intros H. apply runs_create_update_keyvault in H as ([e|[d|h]] & H).
  - destruct H as [_ [= ->]]. apply isinstance_fail_on_CloudError.
  - by destruct H as [_ [=]].
  - destruct H as ([e|d] & _ & [= Heq]). subst.
    apply isinstance_fail_on_CloudError.
Qed.

(** No [CloudError] leaves [dispatch]. *)
Lemma dispatch_no_CloudError old_response self tr self' exc :
  runs (dispatch old_response self) tr (self', inl exc) →
  isinstance_CloudError exc = false.
Proof.
  intros H.
  assert (Hend : ∀ response s, (exec_module_end_result response s).2 = inl exc →
                               isinstance_CloudError exc = false).
  { intros response s. unfold exec_module_end_result.
    destruct (truthy response); [|done].
    destruct response as [| | | |d]; try (by intros [= <-]).
    destruct (d !! "id"); [done|by intros [= <-]]. }
  assert (Hcu : to_do self = Create ∨ to_do self = Update →
                isinstance_CloudError exc = false).
  { intros Htodo. destruct (check_mode self) eqn:Hcheck.
    - by apply (runs_dispatch_check_create_update _ _ _ _ Htodo Hcheck) in H as [_ [=]].
    - apply (runs_dispatch_create_update _ _ _ _ Htodo Hcheck) in H as (o & Hrun & H).
      destruct o as [exc'|response].
      + injection H as _ ->. by apply create_update_raised in Hrun.
      + eapply Hend. by rewrite <- H. }
  destruct (to_do self) eqn:Htodo; [|by auto|by auto|].
  - apply (runs_dispatch_no_action _ _ _ _ Htodo) in H as [-> Heq].
    apply (Hend old_response (with_changed false self)). by rewrite <- Heq.
  - destruct (check_mode self) eqn:Hcheck.
    + by apply (runs_dispatch_check_delete _ _ _ _ Htodo Hcheck) in H as [_ [=]].
    + apply (runs_dispatch_delete _ _ _ _ Htodo Hcheck) in H as (answer & tr' & -> & H).
      destruct answer as [e|[]].
      * destruct H as [_ Heq]. injection Heq as _ ->.
        apply isinstance_fail_on_CloudError.
      * destruct H as (present & last & _ & _ & [[_ [=]]|(e & He & Heq)]).
        injection Heq as _ ->. by apply get_keyvault_result_raised in He.
Qed.

(** C8, as the code has it.  When the first fetch of the vault raises a
    [CloudError], the vault counts as absent: the action is chosen as for
    an absent vault, the exception does not come out of the invocation,
    and with [state] [absent] the invocation makes no further call and
    returns [changed = false]. *)
Theorem fetch_CloudError_is_absent kwargs check tr self' out exc :
  ansible_params kwargs →
  runs (invocation kwargs check) tr (self', out) →
  fetched tr = Some (inl exc) →
  isinstance_CloudError exc = true →
  reports_absent (inl exc) ∧
  (option_value kwargs "state" = VStr "absent" → to_do self' = NoAction) ∧
  (option_value kwargs "state" = VStr "present" → to_do self' = Create) ∧
  out ≠ inl exc ∧
  (option_value kwargs "state" = VStr "absent" →
   ∃ rg, tr = [Event (lookup_call kwargs) (inr rg); Event (fetch_call kwargs) (inl exc)] ∧
         out = inr {[ "changed" := VBool false ]}).
Proof.
  intros Hk Hrun Hfetched Hcloud.
  assert (Habs : reports_absent (inl exc)).
  { unfold reports_absent. simpl. by rewrite Hcloud. }
  split; [exact Habs|].
  apply (invocation_cases _ _ Hk) in Hrun
    as [(e & -> & _)|[(rg & a & e & -> & Hres & _)
                     |(rg & a & old_response & tr' & -> & Hres & Hrun)]].
  - done.
  - injection Hfetched as ->. simpl in Hres. by rewrite Hcloud in Hres.
  - injection Hfetched as ->. simpl in Hres. rewrite Hcloud in Hres.
    injection Hres as <-.
    pose proof (dispatch_frame _ _ _ _ _ Hrun) as [res' Hself].
    assert (Htodo : to_do self' = selected (VBool false) (option_value kwargs "state")).
    { rewrite Hself. simpl. apply to_do_decided. }
    unfold selected in Htodo. simpl in Htodo.
    split; [by intros Hs; rewrite Hs in Htodo|].
    split; [by intros Hs; rewrite Hs in Htodo|].
    split.
    + intros ->. apply dispatch_no_CloudError in Hrun. congruence.
    + intros Hs. exists rg.
      assert (Hdo : to_do (decided kwargs check rg (VBool false)) = NoAction).
      { rewrite to_do_decided, Hs. done. }
      apply (runs_dispatch_no_action _ _ _ _ Hdo) in Hrun as [-> [= _ ->]].
      split; [done|].
      destruct (decided_fields kwargs check rg (VBool false))
        as (_ & _ & _ & _ & Hresults & _).
      by rewrite Hresults, insert_singleton_eq.
Qed.

Lemma fetch_CloudError_is_absent_witness :
  ansible_params kw_absent ∧
  runs (invocation kw_absent false) trace_not_found
    (final_not_found, inr {[ "changed" := VBool false ]}) ∧
  fetched trace_not_found = Some (inl (CloudError "not found")) ∧
  to_do final_not_found = NoAction.
Proof.
  assert (Hrun : runs (invocation kw_absent false) trace_not_found
                   (final_not_found, inr {[ "changed" := VBool false ]})).
  { apply (play_runs 20 script_not_found). vm_refl. }
  split; [apply ansible_params_options|]. split; [exact Hrun|]. split; [reflexivity|].
  exact (proj1 (proj2 (fetch_CloudError_is_absent kw_absent false trace_not_found
                         final_not_found _ (CloudError "not found")
                         (ansible_params_options _ _ _) Hrun eq_refl eq_refl))
           eq_refl).
Defined.

(** The claim as it is worded speaks of any failure of the fetch, and
    fails for an exception that is not a [CloudError]: it comes out of
    the invocation. *)
Lemma fetch_failure_counterexample :
  ¬ (∀ kwargs check tr self' out exc,
       ansible_params kwargs →
       runs (invocation kwargs check) tr (self', out) →
       fetched tr = Some (inl exc) →
       out ≠ inl exc).
Proof.
  intros Hclaim.
  assert (Hrun : runs (invocation kw_absent false) trace_get_broken
                   (located kw_absent false rg1,
                    inl (OtherException "connection reset"))).
  { apply (play_runs 20 script_get_broken). vm_refl. }
  exact (Hclaim kw_absent false trace_get_broken _ _ (OtherException "connection reset")
           (ansible_params_options _ _ _) Hrun eq_refl eq_refl).
Qed.

Lemma failed_operation_polls rg name present last ev :
  ev ∈ polls (vaults_get rg name) present last → failed_operation ev = None.
Proof.
  induction present as [|a present IH]; simpl.
  - intros Hin. by apply list_elem_of_singleton in Hin as ->.
  - intros Hin. apply elem_of_cons in Hin as [->|Hin]; [done|].
    apply elem_of_cons in Hin as [->|Hin]; [done|]. auto.
Qed.

(** C9, as the code has it.  When [vaults.create_or_update], the wait
    on its poller, or [vaults.delete] raises, that call is the last of
    the invocation and the only one that changes the vault: nothing is
    tried again.  The invocation ends with the exception the [except
    CloudError] clause makes of it: for a [CloudError], the failure
    [self.fail] reports, whose message is the words for the operation
    followed by the cause; an exception of another class comes out as it
    is. *)
Theorem failed_call_aborts kwargs check tr self' out ev context exc :
  ansible_params kwargs →
  runs (invocation kwargs check) tr (self', out) →
  ev ∈ tr →
  failed_operation ev = Some (context, exc) →
  (∃ tr0, tr = tr0 ++ [ev]) ∧
  calls is_mutating tr = 1 ∧
  out = inl (fail_on_CloudError context exc) ∧
  (isinstance_CloudError exc = true → out = inl (SystemExit (context +:+ str exc))).
Proof.
  intros Hk Hrun Hin Hfailed.
  assert (Hmsg : out = inl (fail_on_CloudError context exc) →
                 isinstance_CloudError exc = true →
                 out = inl (SystemExit (context +:+ str exc))).
  { intros -> Hc. unfold fail_on_CloudError. by rewrite Hc. }
  apply (invocation_cases _ _ Hk) in Hrun
    as [(e & -> & _)|[(rg & a & e & -> & _)
                     |(rg & a & old_response & tr' & -> & Hres & Hrun)]].
  - by apply list_elem_of_singleton in Hin as ->.
  - apply elem_of_cons in Hin as [->|Hin]; [done|].
    by apply list_elem_of_singleton in Hin as ->.
  - apply elem_of_cons in Hin as [->|Hin]; [done|].
    apply elem_of_cons in Hin as [->|Hin]; [done|].
    destruct (decided_fields kwargs check rg old_response) as (_ & _ & _ & Hcheck & _).
    set (self := decided kwargs check rg old_response) in *.
    assert (Hcu : to_do self = Create ∨ to_do self = Update →
              (∃ tr0, Event (lookup_call kwargs) (inr rg) ::
                      Event (fetch_call kwargs) a :: tr' = tr0 ++ [ev]) ∧
              calls is_mutating (Event (lookup_call kwargs) (inr rg) ::
                                 Event (fetch_call kwargs) a :: tr') = 1 ∧
              out = inl (fail_on_CloudError context exc)).
    { intros Htodo. destruct check.
      - apply (runs_dispatch_check_create_update _ _ _ _ Htodo Hcheck) in Hrun as [-> _].
        by apply elem_of_nil in Hin.
      - apply (runs_dispatch_create_update _ _ _ _ Htodo Hcheck) in Hrun
          as (o & Hrun & Hout).
        apply runs_create_update_keyvault in Hrun as ([e|[d|h]] & Hrun).
        + destruct Hrun as [-> Heq]. injection Heq as ->. injection Hout as _ ->.
          apply list_elem_of_singleton in Hin as ->. injection Hfailed as <- <-.
          split; [by eexists [_; _]|done].
        + destruct Hrun as [-> _]. by apply list_elem_of_singleton in Hin as ->.
        + destruct Hrun as (a' & -> & Heq). injection Heq as ->.
          apply elem_of_cons in Hin as [->|Hin]; [done|].
          apply list_elem_of_singleton in Hin as ->.
          destruct a' as [e|d]; [|done]. injection Hout as _ ->.
          injection Hfailed as <- <-. split; [by eexists [_; _; _]|done]. }
    destruct (to_do self) eqn:Htodo.
    + apply (runs_dispatch_no_action _ _ _ _ Htodo) in Hrun as [-> _].
      by apply elem_of_nil in Hin.
    + destruct Hcu as (? & ? & ?); auto.
    + destruct Hcu as (? & ? & ?); auto.
    + clear Hcu. destruct check.
      * apply (runs_dispatch_check_delete _ _ _ _ Htodo Hcheck) in Hrun as [-> _].
        by apply elem_of_nil in Hin.
      * apply (runs_dispatch_delete _ _ _ _ Htodo Hcheck) in Hrun
          as (answer & tr'' & -> & Hrun).
        destruct answer as [e|[]].
        -- destruct Hrun as [-> Heq]. injection Heq as _ ->.
           apply list_elem_of_singleton in Hin as ->. injection Hfailed as <- <-.
           split; [by eexists [_; _]|]. auto.
        -- destruct Hrun as (present & last & _ & -> & _).
           apply elem_of_cons in Hin as [->|Hin]; [done|].
           apply failed_operation_polls in Hin. congruence.
Qed.

Lemma failed_call_aborts_witness :
  ansible_params kw_present ∧
  runs (invocation kw_present false) trace_create_refused
    (final_create_refused,
     inl (SystemExit "Error creating the Key Vault instance: quota exceeded")) ∧
  calls is_mutating trace_create_refused = 1.
Proof.
  assert (Hrun : runs (invocation kw_present false) trace_create_refused
                   (final_create_refused,
                    inl (SystemExit
                           "Error creating the Key Vault instance: quota exceeded"))).
  { apply (play_runs 20 script_create_refused). vm_refl. }
  split; [apply ansible_params_options|]. split; [exact Hrun|].
  refine (proj1 (proj2 (failed_call_aborts kw_present false trace_create_refused
                          final_create_refused _
                          (Event create_or_update_kv1 (inl (CloudError "quota exceeded")))
                          _ _ (ansible_params_options _ _ _) Hrun _ eq_refl))).
  unfold trace_create_refused. rewrite !elem_of_cons. auto.
Defined.

(** The claim as it is worded speaks of any failure of the call, and
    fails for an exception that is not a [CloudError]: the invocation
    ends with that exception, not with the failure that names the
    operation. *)
Lemma failed_call_counterexample :
  ¬ (∀ kwargs check tr self' out ev context exc,
       ansible_params kwargs →
       runs (invocation kwargs check) tr (self', out) →
       ev ∈ tr →
       failed_operation ev = Some (context, exc) →
       out = inl (SystemExit (context +:+ str exc))).
Proof.
  intros Hclaim.
  assert (Hrun : runs (invocation kw_present false) trace_create_broken
                   (final_create_refused, inl (OtherException "connection reset"))).
  { apply (play_runs 20 script_create_broken). vm_refl. }
  specialize (Hclaim kw_present false trace_create_broken _ _
                (Event create_or_update_kv1 (inl (OtherException "connection reset")))
                "Error creating the Key Vault instance: "
                (OtherException "connection reset")
                (ansible_params_options _ _ _) Hrun).
  discriminate Hclaim.
  - unfold trace_create_broken. rewrite !elem_of_cons. auto.
  - reflexivity.
Qed.

(* ================================================================== *)
(** * The helper [rename_key] *)
(* ================================================================== *)

(** X1.  When [old_name] holds a value that is not [None],
    [rename_key(d, old_name, new_name)] leaves that value under
    [new_name] (over whatever [new_name] held before), leaves nothing
    under [old_name] unless the two names are the same, and leaves every
    other key of [d] as it was. *)
Lemma rename_key_lookup (d : dict) old_name new_name v key :
  d !! old_name = Some v → v ≠ VNone →
  rename_key d old_name new_name !! key =
    if decide (key = new_name) then Some v
    else if decide (key = old_name) then None
    else d !! key.
Proof.
  intros Hv Hnn. unfold rename_key. rewrite Hv.
  assert (is_not_None v = true) as -> by (by destruct v).
  destruct (decide (key = new_name)) as [->|Hnew].
  - by rewrite lookup_insert_eq.
  - rewrite lookup_insert_ne by done.
    destruct (decide (key = old_name)) as [->|Hold].
    + by rewrite lookup_delete_eq.
    + by rewrite lookup_delete_ne.
Qed.

Lemma rename_key_lookup_witness :
  rename_key policy_entry "keys" "key_permissions" !! "key_permissions" =
    Some (VList [VStr "get"; VStr "list"]) ∧
  rename_key policy_entry "keys" "key_permissions" !! "keys" = None ∧
  rename_key policy_entry "keys" "key_permissions" !! "tenant_id" =
    Some (VStr "72f988bf").
Proof.
  assert (Hkeys : policy_entry !! "keys" = Some (VList [VStr "get"; VStr "list"]))
    by vm_refl.
  assert (Hnn : VList [VStr "get"; VStr "list"] ≠ VNone) by discriminate.
  split; [|split].
  - exact (rename_key_lookup policy_entry "keys" "key_permissions" _ "key_permissions"
             Hkeys Hnn).
  - exact (rename_key_lookup policy_entry "keys" "key_permissions" _ "keys" Hkeys Hnn).
  - rewrite (rename_key_lookup policy_entry "keys" "key_permissions" _ "tenant_id"
               Hkeys Hnn).
    vm_refl.
Defined.

Lemma is_not_None_false v : is_not_None v = false ↔ v = VNone.
Proof. by destruct v. Qed.

(** X2.  [rename_key] leaves the dictionary as it was in exactly three
    cases: [old_name] is not a key, [old_name] holds [None], or the two
    names are the same.  In particular a field that is absent or [None]
    is not created under [new_name]. *)
Lemma rename_key_unchanged (d : dict) old_name new_name :
  rename_key d old_name new_name = d ↔
  d !! old_name = None ∨ d !! old_name = Some VNone ∨ old_name = new_name.
Proof.
  unfold rename_key. destruct (d !! old_name) as [v|] eqn:Hv; [|by split; auto].
  destruct (is_not_None v) eqn:Hnn.
  - split.
    + intros Heq. right. right.
      destruct (decide (old_name = new_name)) as [|Hne]; [done|].
      apply (f_equal (λ m : dict, m !! old_name)) in Heq.
      rewrite lookup_insert_ne, lookup_delete_eq, Hv in Heq by done. done.
    + intros [?|[[= ->]|<-]]; [done|done|].
      by rewrite insert_delete_id.
  - apply is_not_None_false in Hnn as ->. by split; auto.
Qed.

(** X3.  Renaming back undoes a renaming: when [new_name] is not a key
    of [d], [rename_key] from [old_name] to [new_name] followed by
    [rename_key] from [new_name] to [old_name] gives [d] again. *)
Lemma rename_key_back (d : dict) old_name new_name :
  d !! new_name = None →
  rename_key (rename_key d old_name new_name) new_name old_name = d.
Proof.
  intros Hnew. unfold rename_key at 2.
  destruct (d !! old_name) as [v|] eqn:Hv.
  - destruct (is_not_None v) eqn:Hnn.
    + assert (old_name ≠ new_name) as Hne by congruence.
      unfold rename_key. rewrite lookup_insert_eq, Hnn.
      rewrite delete_insert_eq, (delete_id (delete old_name d)).
      * by apply insert_delete_id.
      * by rewrite lookup_delete_ne.
    + unfold rename_key. by rewrite Hnew.
  - unfold rename_key. by rewrite Hnew.
Qed.

Lemma rename_key_back_witness :
  policy_entry !! "key_permissions" = None ∧
  rename_key (rename_key policy_entry "keys" "key_permissions") "key_permissions" "keys"
  = policy_entry.
Proof.
  assert (Hnew : policy_entry !! "key_permissions" = None) by vm_refl.
  split; [exact Hnew|].
  exact (rename_key_back policy_entry "keys" "key_permissions" Hnew).
Defined.

(* ================================================================== *)
(** * The loop over the options *)
(* ================================================================== *)

Lemma exec_module_arg_ext kwargs1 kwargs2 key :
  kwargs1 !! key = kwargs2 !! key →
  exec_module_arg kwargs1 key = exec_module_arg kwargs2 key.
Proof. intros H. unfold exec_module_arg, getitem. by rewrite H. Qed.

Lemma for_in_ext keys body1 body2 :
  (∀ key, key ∈ keys → body1 key = body2 key) →
  for_in keys body1 = for_in keys body2.
Proof.
  induction keys as [|key keys IH]; intros H; [done|]. simpl.
  rewrite (H key) by apply list_elem_of_here.
  rewrite IH; [done|]. intros k Hk. apply H. by apply list_elem_of_further.
Qed.

(** X4.  [exec_module] reads [kwargs] at the keys of [module_arg_spec]
    and nowhere else: two dictionaries of options that agree on those
    keys give the same normaliser and the same invocation, whatever else
    they hold (the credentials Ansible passes along, for one). *)
Theorem only_declared_options_are_read kwargs1 kwargs2 check :
  (∀ key, key ∈ module_arg_spec_keys → kwargs1 !! key = kwargs2 !! key) →
  normalize kwargs1 = normalize kwargs2 ∧
  invocation kwargs1 check = invocation kwargs2 check.
Proof.
  intros H.
  assert (Hn : normalize kwargs1 = normalize kwargs2).
  { unfold normalize. rewrite (for_in_ext _ (exec_module_arg kwargs1) (exec_module_arg kwargs2));
      [done|]. intros key Hkey. by apply exec_module_arg_ext, H. }
  split; [exact Hn|]. unfold invocation, exec_module. by rewrite Hn.
Qed.

Lemma kw_with_secret_agrees key :
  key ∈ module_arg_spec_keys → kw_with_secret !! key = kw_present !! key.
Proof.
  intros Hkey. unfold kw_with_secret. apply lookup_insert_ne. intros <-.
  unfold module_arg_spec_keys in Hkey.
  repeat (apply elem_of_cons in Hkey as [Hkey|Hkey]; [discriminate Hkey|]).
  by apply elem_of_nil in Hkey.
Qed.

Lemma only_declared_options_are_read_witness :
  kw_with_secret !! "secret" = Some (VStr "hunter2") ∧
  kw_present !! "secret" = None ∧
  invocation kw_with_secret false = invocation kw_present false.
Proof.
  split; [vm_refl|]. split; [vm_refl|].
  exact (proj2 (only_declared_options_are_read kw_with_secret kw_present false
                  kw_with_secret_agrees)).
Defined.

Lemma after_args_same_keys kwargs check seen1 seen2 :
  (∀ key, key ∈ seen1 ↔ key ∈ seen2) →
  after_args kwargs check seen1 = after_args kwargs check seen2.
Proof.
  intros H. unfold after_args, attr_seen, location_seen, properties_seen.
  rewrite !(bool_decide_ext _ _ (H _)).
  f_equal. f_equal. apply map_filter_ext. intros k x _. simpl. by rewrite H.
Qed.

(** X5.  The order in which the loop visits the keys of
    [module_arg_spec] does not matter: when every option has a value in
    [kwargs], the loop run over any permutation of the keys, followed by
    [adjust_parameters], leaves the object the normaliser leaves. *)
Theorem order_of_options_is_irrelevant kwargs check keys :
  ansible_params kwargs →
  keys ≡ₚ module_arg_spec_keys →
  (for_in keys (exec_module_arg kwargs) ;; adjust_parameters) (init check) =
  normalize kwargs (init check).
Proof.
  intros Hk Hperm.
  rewrite (normalize_normalized _ _ Hk).
  unfold mbind, Py_bind. rewrite <- (after_args_nil kwargs check).
  rewrite for_in_after_args.
  - rewrite adjust_parameters_id. simpl.
    rewrite (after_args_same_keys _ _ keys module_arg_spec_keys).
    + by rewrite after_args_all.
    + intros key. by rewrite Hperm.
  - intros key Hkey. rewrite Hperm in Hkey. auto.
Qed.

Lemma order_of_options_is_irrelevant_witness :
  ansible_params kw_present ∧
  reverse module_arg_spec_keys ≡ₚ module_arg_spec_keys ∧
  (for_in (reverse module_arg_spec_keys) (exec_module_arg kw_present) ;;
   adjust_parameters) (init false) =
  normalize kw_present (init false).
Proof.
  split; [apply ansible_params_options|].
  split; [apply reverse_Permutation|].
  exact (order_of_options_is_irrelevant kw_present false (reverse module_arg_spec_keys)
           (ansible_params_options _ _ _) (reverse_Permutation _)).
Defined.

Lemma exec_module_arg_missing kwargs key self :
  kwargs !! key = None →
  exec_module_arg kwargs key self = (self, inl (KeyError key)).
Proof.
  intros H. unfold exec_module_arg, getitem. rewrite H. by destruct (hasattr key).
Qed.

Lemma for_in_first_missing kwargs check todo seen :
  (∀ key, key ∈ todo → key ∈ module_arg_spec_keys) →
  (∃ key, key ∈ todo ∧ kwargs !! key = None) →
  ∃ key seen',
    key ∈ todo ∧ kwargs !! key = None ∧
    for_in todo (exec_module_arg kwargs) (after_args kwargs check seen) =
    (after_args kwargs check seen', inl (KeyError key)).
Proof.
  revert seen. induction todo as [|k todo IH]; intros seen Hspec (key & Hin & Hkey).
  - by apply elem_of_nil in Hin.
  - simpl. unfold mbind, Py_bind.
    destruct (kwargs !! k) as [v|] eqn:Hk.
    + rewrite (exec_module_arg_step _ _ _ _ v); [|apply Hspec, list_elem_of_here|done].
      destruct (IH (seen ++ [k])) as (key' & seen' & Hin' & Hkey' & Heq).
      * intros ? ?. by apply Hspec, list_elem_of_further.
      * exists key. split; [|done].
        apply elem_of_cons in Hin as [->|Hin]; [congruence|done].
      * exists key', seen'. split; [by apply list_elem_of_further|]. split; [done|].
        exact Heq.
    + rewrite exec_module_arg_missing by done.
      exists k, seen. split; [apply list_elem_of_here|done].
Qed.

Lemma ansible_params_Forall kwargs :
  ansible_params kwargs ↔ Forall (λ key, is_Some (kwargs !! key)) module_arg_spec_keys.
Proof. by rewrite Forall_forall. Qed.

(** Without a value for every option, the invocation is over before its
    first call. *)
Lemma invocation_missing kwargs check :
  ¬ ansible_params kwargs →
  ∃ key seen,
    key ∈ module_arg_spec_keys ∧ kwargs !! key = None ∧
    ∀ tr r, runs (invocation kwargs check) tr r ↔
            tr = [] ∧ r = (after_args kwargs check seen, inl (KeyError key)).
Proof.
  intros Hk. rewrite ansible_params_Forall in Hk.
  apply not_Forall_Exists in Hk; [|apply _].
  apply Exists_exists in Hk as (key0 & Hin0 & Hnone).
  destruct (for_in_first_missing kwargs check module_arg_spec_keys [])
    as (key & seen & Hin & Hkey & Heq); [done|..].
  { exists key0. split; [done|]. by apply eq_None_not_Some. }
  exists key, seen. split; [done|]. split; [done|].
  intros tr r. unfold invocation, exec_module. rewrite runs_bind_lift.
  unfold normalize, mbind at 1, Py_bind. rewrite <- (after_args_nil kwargs check), Heq.
  done.
Qed.

(** X6.  When [kwargs] lacks a key of [module_arg_spec], [kwargs[key]]
    raises: the invocation ends with [KeyError] for a key that is
    missing, and it has made no remote call at all. *)
Theorem missing_option_raises_KeyError kwargs check :
  ¬ ansible_params kwargs →
  ∃ key self',
    key ∈ module_arg_spec_keys ∧ kwargs !! key = None ∧
    ∀ tr r, runs (invocation kwargs check) tr r ↔
            tr = [] ∧ r = (self', inl (KeyError key)).
Proof.
  intros Hk. destruct (invocation_missing kwargs check Hk) as (key & seen & H).
  by exists key, (after_args kwargs check seen).
Qed.

(** A name is in a list that is written out. *)
Ltac in_list :=
  unfold property_keys, module_arg_spec_keys;
  repeat first [apply list_elem_of_here | apply list_elem_of_further].

Lemma kw_no_sku_incomplete : ¬ ansible_params kw_no_sku.
Proof.
  intros H. destruct (H "sku") as [v Hv]; [in_list|].
  unfold kw_no_sku in Hv. by rewrite lookup_delete_eq in Hv.
Qed.

Lemma missing_option_raises_KeyError_witness :
  ¬ ansible_params kw_no_sku ∧
  ∃ key self',
    kw_no_sku !! key = None ∧
    runs (invocation kw_no_sku false) [] (self', inl (KeyError key)).
Proof.
  split; [exact kw_no_sku_incomplete|].
  destruct (missing_option_raises_KeyError kw_no_sku false kw_no_sku_incomplete)
    as (key & self' & _ & Hkey & Hruns).
  exists key, self'. split; [exact Hkey|]. by apply Hruns.
Defined.

(** X7.  No option of [module_arg_spec] falls through the loop: a value
    that is not [None] ends up in the attribute of its name
    ([resource_group], [vault_name], [state]), at the top level of the
    payload ([location]), or under [properties] in the payload (every
    other option). *)
Theorem no_option_is_dropped kwargs check key v :
  ansible_params kwargs →
  key ∈ module_arg_spec_keys →
  kwargs !! key = Some v →
  v ≠ VNone →
  ∃ self,
    normalize kwargs (init check) = (self, inr tt) ∧
    (key = "resource_group" ∧ resource_group self = v ∨
     key = "vault_name" ∧ vault_name self = v ∨
     key = "state" ∧ state self = v ∨
     key = "location" ∧ parameters self !! "location" = Some v ∨
     key ∈ property_keys ∧
     ∃ props, parameters self !! "properties" = Some (VDict props) ∧
              props !! key = Some v).
Proof.
  intros Hk Hkey Hv Hnn. exists (normalized kwargs check).
  split; [by apply normalize_normalized|].
  assert (Hprop : key ∈ property_keys →
            ∃ props, parameters (normalized kwargs check) !! "properties" =
                       Some (VDict props) ∧ props !! key = Some v).
  { intros Hin. exists (properties_of kwargs).
    assert (Hlook : properties_of kwargs !! key = Some v).
    { rewrite properties_of_given by done. by apply given_Some. }
    split; [|done]. rewrite parameters_normalized, payload_of_properties.
    destruct (decide (properties_of kwargs = ∅)) as [He|]; [|done].
    by rewrite He, lookup_empty in Hlook. }
  unfold module_arg_spec_keys in Hkey.
  repeat (apply elem_of_cons in Hkey as [->|Hkey]); [..|by apply elem_of_nil in Hkey].
  - left. split; [done|]. simpl. unfold option_value. by rewrite Hv.
  - right. left. split; [done|]. simpl. unfold option_value. by rewrite Hv.
  - right. right. right. left. split; [done|].
    rewrite parameters_normalized, payload_of_lookup_location. by apply given_Some.
  - right. right. right. right.
    assert ("tenant_id" ∈ property_keys) by in_list. auto.
  - right. right. right. right.
    assert ("sku" ∈ property_keys) by in_list. auto.
  - right. right. right. right.
    assert ("access_policies" ∈ property_keys) by in_list. auto.
  - right. right. right. right.
    assert ("vault_uri" ∈ property_keys) by in_list. auto.
  - right. right. right. right.
    assert ("enabled_for_deployment" ∈ property_keys)
      by in_list. auto.
  - right. right. right. right.
    assert ("enabled_for_disk_encryption" ∈ property_keys)
      by in_list. auto.
  - right. right. right. right.
    assert ("enabled_for_template_deployment" ∈ property_keys)
      by in_list. auto.
  - right. right. right. right.
    assert ("enable_soft_delete" ∈ property_keys)
      by in_list. auto.
  - right. right. right. right.
    assert ("create_mode" ∈ property_keys) by in_list. auto.
  - right. right. left. split; [done|]. simpl. unfold option_value. by rewrite Hv.
Qed.

Lemma no_option_is_dropped_witness :
  ∃ self props,
    normalize kw_present (init false) = (self, inr tt) ∧
    parameters self !! "properties" = Some (VDict props) ∧
    props !! "sku" =
      Some (VDict (list_to_map [("family", VStr "A"); ("name", VStr "standard")])).
Proof.
  destruct (no_option_is_dropped kw_present false "sku"
              (VDict (list_to_map [("family", VStr "A"); ("name", VStr "standard")]))
              (ansible_params_options _ _ _))
    as (self & Hself & [[[=] _]|[[[=] _]|[[[=] _]|[[[=] _]|[_ (props & Hp & Hsku)]]]]]).
  - in_list.
  - vm_refl.
  - discriminate.
  - exists self, props. exact (conj Hself (conj Hp Hsku)).
Defined.

(* ================================================================== *)
(** * Runs that have not ended *)
(* ================================================================== *)

Section begins_of_trees.
Context {R : Type}.

Lemma runs_begins (t : itree remoteE R) tr r : runs t tr r → begins t tr.
Proof. unfold runs, begins. induction 1; by constructor. Qed.

Lemma begins_app (t : itree remoteE R) tr1 tr2 : begins t (tr1 ++ tr2) → begins t tr1.
Proof.
  unfold begins. generalize (observe t). intros ot. revert ot.
  induction tr1 as [|ev tr1 IH]; intros ot H; [constructor|].
  simpl in H. remember (ev :: tr1 ++ tr2) as tr eqn:Htr.
  induction H as [ot|u tr H IHu|X e k a tr H _]; [done| |].
  - constructor. by apply IHu.
  - injection Htr as <- ->. constructor. by apply IH.
Qed.

(** What is left of a tree that can always end can always end. *)
Lemma can_always_end_Tau (t : itree remoteE R) :
  can_always_end (Tau t) → can_always_end t.
Proof.
  intros Ht tr Hb. destruct (Ht tr) as (tr' & r & H); [by constructor|].
  rewrite runs_Tau_iff in H. eauto.
Qed.

Lemma can_always_end_Vis {X} (e : remoteE X) (k : X → itree remoteE R) answer :
  can_always_end (Vis e k) → can_always_end (k answer).
Proof.
  intros Ht tr Hb. destruct (Ht (Event e answer :: tr)) as (tr' & r & H).
  { by apply (begins_Vis e k). }
  apply runs_Vis_iff in H as (a & tr'' & [= Ha Htr] & H).
  apply inj_pair2 in Ha. subst. eauto.
Qed.

Lemma can_always_end_observe (t u : itree remoteE R) :
  observe t = observe u → can_always_end u → can_always_end t.
Proof. unfold can_always_end, begins, runs. by intros ->. Qed.

Lemma can_always_end_Ret (r : R) : can_always_end (Ret r).
Proof.
  intros tr Hb. inversion Hb; subst. exists [], r. by apply runs_Ret_iff.
Qed.

Lemma can_always_end_Vis_intro {X} (e : remoteE X) (k : X → itree remoteE R) :
  X → (∀ answer, can_always_end (k answer)) → can_always_end (Vis e k).
Proof.
  intros x Hk tr Hb. unfold begins in Hb. simpl in Hb.
  inversion Hb as [ot|?|X' e' k' a tr0 Hb']; subst.
  - destruct (Hk x [] (begins_nil _)) as (tr' & r & H).
    exists (Event e x :: tr'), r. apply runs_Vis_iff. eauto.
  - inj_existT. subst.
    destruct (Hk a tr0 Hb') as (tr' & r & H).
    exists tr', r. apply runs_Vis_iff. eauto.
Qed.
End begins_of_trees.

Lemma beginsF_bind_end {A R} (k : A → itree remoteE R) ot tr :
  beginsF ot tr →
  (∀ a, can_always_end (k a)) →
  ∀ t, can_always_end t → ot = observe (ITree.bind t k) →
  ∃ tr' r, runs (ITree.bind t k) (tr ++ tr') r.
Proof.
  intros Hb Hk. induction Hb as [ot|u tr Hb IH|X e h x tr Hb IH]; intros t Ht Heq.
  - destruct (Ht [] (begins_nil _)) as (tr1 & a & H1).
    destruct (Hk a [] (begins_nil _)) as (tr2 & r & H2).
    exists (tr1 ++ tr2), r. apply runs_bind. eauto 10.
  - rewrite observe_bind in Heq.
    destruct (observe t) as [a|t'|Y e' h'] eqn:Hobs; cbn in Heq; try discriminate.
    + destruct (Hk a tr) as (tr' & r & H).
      { unfold begins. rewrite <- Heq. by constructor. }
      exists tr', r. apply runs_bind. exists [], (tr ++ tr'), a.
      split; [|done]. unfold runs. rewrite Hobs. constructor.
    + injection Heq as ->.
      destruct (IH t') as (tr' & r & H); [|done|].
      { apply can_always_end_Tau.
        apply (can_always_end_observe _ t); [by rewrite Hobs|done]. }
      exists tr', r. unfold runs. rewrite observe_bind, Hobs. cbn. by constructor.
  - rewrite observe_bind in Heq.
    destruct (observe t) as [a|t'|Y e' h'] eqn:Hobs; cbn in Heq; try discriminate.
    + destruct (Hk a (Event e x :: tr)) as (tr' & r & H).
      { unfold begins. rewrite <- Heq. by constructor. }
      exists tr', r. apply runs_bind. exists [], (Event e x :: tr ++ tr'), a.
      split; [|done]. unfold runs. rewrite Hobs. constructor.
    + inversion Heq; subst. inj_existT. subst.
      destruct (IH (h' x)) as (tr' & r & H); [|done|].
      { apply (can_always_end_Vis e').
        apply (can_always_end_observe _ t); [by rewrite Hobs|done]. }
      exists tr', r. unfold runs. rewrite observe_bind, Hobs. cbn.
      by apply (runs_Vis e').
Qed.

(** A tree followed by another can always end when both can. *)
Lemma can_always_end_bind {A R} (t : itree remoteE A) (k : A → itree remoteE R) :
  can_always_end t → (∀ a, can_always_end (k a)) → can_always_end (ITree.bind t k).
Proof. intros Ht Hk tr Hb. by eapply beginsF_bind_end. Qed.

Lemma beginsF_iter_end {I R} (body : I → itree remoteE (I + R)) ot tr :
  beginsF ot tr →
  (∀ i, can_always_end (body i)) →
  (∀ i, ∃ tr r, runs (ITree.iter body i) tr r) →
  ∀ t, can_always_end t →
  ot = observe (ITree.bind t (λ lr, match lr with
                                    | inl i => Tau (ITree.iter body i)
                                    | inr r => Ret r
                                    end)) →
  ∃ tr' r, runs (ITree.bind t (λ lr, match lr with
                                     | inl i => Tau (ITree.iter body i)
                                     | inr r => Ret r
                                     end)) (tr ++ tr') r.
Proof.
  intros Hb Hbody Hend.
  induction Hb as [ot|u tr Hb IH|X e h x tr Hb IH]; intros t Ht Heq.
  - destruct (Ht [] (begins_nil _)) as (tr1 & lr & H1).
    destruct lr as [i|r].
    + destruct (Hend i) as (tr2 & r & H2).
      exists (tr1 ++ tr2), r. apply runs_bind. exists tr1, tr2, (inl i).
      split; [done|]. split; [|done]. by apply runs_Tau_iff.
    + exists (tr1 ++ []), r. apply runs_bind. exists tr1, [], (inr r).
      split; [done|]. split; [|done]. by apply runs_Ret_iff.
  - rewrite observe_bind in Heq.
    destruct (observe t) as [lr|t'|Y e' h'] eqn:Hobs; cbn in Heq; try discriminate.
    + destruct lr as [i|r]; [|discriminate]. injection Heq as ->.
      destruct (IH (body i)) as (tr' & r & H); [done|done|].
      exists tr', r. apply runs_bind. exists [], (tr ++ tr'), (inl i).
      split; [unfold runs; rewrite Hobs; constructor|].
      split; [|done]. by apply runs_Tau_iff.
    + injection Heq as ->.
      destruct (IH t') as (tr' & r & H); [|done|].
      { apply can_always_end_Tau.
        apply (can_always_end_observe _ t); [by rewrite Hobs|done]. }
      exists tr', r. unfold runs. rewrite observe_bind, Hobs. cbn. by constructor.
  - rewrite observe_bind in Heq.
    destruct (observe t) as [lr|t'|Y e' h'] eqn:Hobs; cbn in Heq; try discriminate.
    + by destruct lr.
    + inversion Heq; subst. inj_existT. subst.
      destruct (IH (h' x)) as (tr' & r & H); [|done|].
      { apply (can_always_end_Vis e').
        apply (can_always_end_observe _ t); [by rewrite Hobs|done]. }
      exists tr', r. unfold runs. rewrite observe_bind, Hobs. cbn.
      by apply (runs_Vis e').
Qed.

(** A loop can always end when its body can and when, from every state,
    some answers make it end. *)
Lemma can_always_end_iter {I R} (body : I → itree remoteE (I + R)) :
  (∀ i, can_always_end (body i)) →
  (∀ i, ∃ tr r, runs (ITree.iter body i) tr r) →
  ∀ i, can_always_end (ITree.iter body i).
Proof.
  intros Hbody Hend i tr Hb.
  change (runs (ITree.iter body i)) with
    (runs (ITree.bind (body i)
             (λ lr, match lr with
                    | inl l => Tau (ITree.iter body l)
                    | inr r => Ret r
                    end))).
  eapply beginsF_iter_end; [exact Hb|done|done|done|done].
Qed.

Section methods_can_end.
Context {A : Type}.
Implicit Types (self : AzureRMVaults).

Lemma can_always_end_mret (a : A) self : can_always_end ((mret a : M A) self).
Proof. apply can_always_end_Ret. Qed.

Lemma can_always_end_raise (exc : exception) self :
  can_always_end (raise (A := A) exc self).
Proof. apply can_always_end_Ret. Qed.

Lemma can_always_end_lift (p : Py A) self : can_always_end (lift p self).
Proof. apply can_always_end_Ret. Qed.

Lemma can_always_end_remote (e : remoteE (exception + A)) self :
  can_always_end (remote e self).
Proof.
  apply can_always_end_Vis_intro; [exact (inl TypeError)|].
  intros answer. apply can_always_end_Ret.
Qed.

Lemma can_always_end_mbind {B} (m : M B) (k : B → M A) self :
  can_always_end (m self) →
  (∀ b self', can_always_end (k b self')) →
  can_always_end ((m ≫= k) self).
Proof.
  intros Hm Hk. apply can_always_end_bind; [done|].
  intros [self' [exc|b]]; [apply can_always_end_Ret|apply Hk].
Qed.

Lemma can_always_end_try_except_CloudError (body : M A) (handler : exception → M A) self :
  can_always_end (body self) →
  (∀ exc self', can_always_end (handler exc self')) →
  can_always_end (try_except_CloudError body handler self).
Proof.
  intros Hb Hh. apply can_always_end_bind; [done|].
  intros [self' [exc|a]]; [|apply can_always_end_Ret].
  destruct (isinstance_CloudError exc); [apply Hh|apply can_always_end_Ret].
Qed.
End methods_can_end.

Lemma can_always_end_sleep seconds self : can_always_end (sleep seconds self).
Proof.
  apply can_always_end_Vis_intro; [exact tt|].
  intros answer. apply can_always_end_Ret.
Qed.

(** Show that a method can always end, from its parts. *)
Ltac can_end :=
  repeat first
    [ apply can_always_end_Ret
    | apply can_always_end_mret
    | apply can_always_end_raise
    | apply can_always_end_lift
    | apply can_always_end_remote
    | apply can_always_end_sleep
    | apply can_always_end_mbind; [|intros ? ?]
    | apply can_always_end_try_except_CloudError; [|intros ? ?]
    | assumption ].

Lemma get_keyvault_can_always_end self : can_always_end (get_keyvault self).
Proof.
  unfold get_keyvault, get_self. can_end.
  match goal with |- context [match ?x with _ => _ end] => destruct x end; can_end.
Qed.

Lemma create_update_keyvault_can_always_end self :
  can_always_end (create_update_keyvault self).
Proof.
  unfold create_update_keyvault, get_self, fail. can_end.
  match goal with |- context [match ?x with _ => _ end] => destruct x end; can_end.
Qed.

Lemma delete_keyvault_can_always_end self : can_always_end (delete_keyvault self).
Proof. unfold delete_keyvault, get_self, fail. can_end. Qed.

Lemma exec_module_end_can_always_end response self :
  can_always_end (exec_module_end response self).
Proof.
  unfold exec_module_end, return_results, get_self, set_result, modify.
  destruct (truthy response); can_end.
  unfold subscript. destruct response as [| | | |d]; can_end.
  destruct (d !! "id"); can_end.
Qed.

(** The poll can always end: an answer that reports the vault absent
    ends it. *)
Lemma poll_can_always_end self : can_always_end (while get_keyvault (sleep 20) self).
Proof.
  unfold while. apply can_always_end_iter.
  - intros i. apply can_always_end_bind; [apply get_keyvault_can_always_end|].
    intros [self' [exc|v]]; [apply can_always_end_Ret|].
    destruct (truthy v); [|apply can_always_end_Ret].
    apply can_always_end_bind; [apply can_always_end_sleep|].
    intros [self'' [exc|[]]]; apply can_always_end_Ret.
  - intros i. eexists _, _.
    apply (proj2 (runs_poll i _ _)).
    exists [], (inl (CloudError "not found")). split; [done|]. split; [done|].
    left. split; [|done]. apply reports_absent_iff. left. by eexists.
Qed.

Lemma dispatch_can_always_end old_response self :
  can_always_end (dispatch old_response self).
Proof.
  unfold dispatch, get_self, return_results, set_result, modify.
  apply can_always_end_mbind; [can_end|]. intros s self'.
  destruct (bool_decide (to_do s = Create) || bool_decide (to_do s = Update)).
  - destruct (check_mode s); [can_end|].
    apply can_always_end_mbind; [apply create_update_keyvault_can_always_end|].
    intros response self''.
    apply can_always_end_mbind; [destruct (negb (truthy old_response)); can_end|].
    intros _ ?. apply exec_module_end_can_always_end.
  - destruct (bool_decide (to_do s = Delete)).
    + apply can_always_end_mbind; [can_end|]. intros _ ?.
      destruct (check_mode s); [can_end|].
      apply can_always_end_mbind; [apply delete_keyvault_can_always_end|]. intros _ ?.
      apply can_always_end_mbind; [apply poll_can_always_end|]. intros _ ?.
      apply exec_module_end_can_always_end.
    + apply can_always_end_mbind; [can_end|]. intros _ ?.
      apply exec_module_end_can_always_end.
Qed.

Lemma invocation_can_always_end kwargs check :
  can_always_end (invocation kwargs check).
Proof.
  unfold invocation, exec_module, get_self, modify.
  apply can_always_end_mbind; [can_end|]. intros _ ?.
  apply can_always_end_mbind; [can_end|]. intros _ ?.
  apply can_always_end_mbind; [can_end|]. intros s ?.
  apply can_always_end_mbind; [can_end|]. intros rg ?.
  apply can_always_end_mbind; [can_end|]. intros _ ?.
  apply can_always_end_mbind; [apply get_keyvault_can_always_end|]. intros old ?.
  apply can_always_end_mbind; [can_end|]. intros _ ?.
  apply dispatch_can_always_end.
Qed.

(** X17.  An invocation can always end.  The calls it has made so far,
    whatever they are and whatever their answers were, are the beginning
    of a complete run: there are answers to the calls to come with which
    the invocation returns or raises.  (The poll after a delete is the
    one loop, and an answer that reports the vault absent ends it.)
    Conversely, every beginning of a complete run is a run that has not
    ended. *)
Theorem partial_runs_are_beginnings kwargs check tr :
  begins (invocation kwargs check) tr ↔
  ∃ tr' self' out, runs (invocation kwargs check) (tr ++ tr') (self', out).
Proof.
  split.
  - intros Hb.
    destruct (invocation_can_always_end kwargs check tr Hb) as (tr' & [self' out] & H).
    eauto.
  - intros (tr' & self' & out & H). eapply begins_app, runs_begins, H.
Qed.

(* ================================================================== *)
(** * The calls of an invocation *)
(* ================================================================== *)

(** The traces [dispatch] can leave. *)
Lemma dispatch_shape old_response self tr self' out :
  runs (dispatch old_response self) tr (self', out) →
  tr = [] ∨
  (check_mode self = false ∧ (to_do self = Create ∨ to_do self = Update) ∧
   ((∃ exc, tr = [Event (create_or_update_call self) (inl exc)]) ∨
    (∃ d, tr = [Event (create_or_update_call self) (inr (Vault d))]) ∨
    (∃ h answer, tr = [Event (create_or_update_call self) (inr (AzureOperationPoller h));
                       Event (get_poller_result h) answer]))) ∨
  (check_mode self = false ∧ to_do self = Delete ∧
   ((∃ exc, tr = [Event (delete_call self) (inl exc)]) ∨
    (∃ present last,
       tr = Event (delete_call self) (inr tt) :: polls (get_call self) present last))).
Proof.
  intros H.
  assert (Hcu : to_do self = Create ∨ to_do self = Update →
    tr = [] ∨
    (check_mode self = false ∧ (to_do self = Create ∨ to_do self = Update) ∧
     ((∃ exc, tr = [Event (create_or_update_call self) (inl exc)]) ∨
      (∃ d, tr = [Event (create_or_update_call self) (inr (Vault d))]) ∨
      (∃ h answer, tr = [Event (create_or_update_call self) (inr (AzureOperationPoller h));
                         Event (get_poller_result h) answer])))).
  { intros Htodo. destruct (check_mode self) eqn:Hcheck.
    - apply (runs_dispatch_check_create_update _ _ _ _ Htodo Hcheck) in H as [-> _]. auto.
    - right. split; [done|]. split; [done|].
      apply (runs_dispatch_create_update _ _ _ _ Htodo Hcheck) in H as (o & H & _).
      apply runs_create_update_keyvault in H as ([exc|[d|h]] & H).
      + destruct H as [-> _]. eauto.
      + destruct H as [-> _]. eauto.
      + destruct H as (a & -> & _). eauto 10. }
  destruct (to_do self) eqn:Htodo.
  - apply (runs_dispatch_no_action _ _ _ _ Htodo) in H as [-> _]. auto.
  - destruct Hcu as [?|?]; auto.
  - destruct Hcu as [?|?]; auto.
  - destruct (check_mode self) eqn:Hcheck.
    + apply (runs_dispatch_check_delete _ _ _ _ Htodo Hcheck) in H as [-> _]. auto.
    + right. right. split; [done|]. split; [done|].
      apply (runs_dispatch_delete _ _ _ _ Htodo Hcheck) in H as (answer & tr' & -> & H).
      destruct answer as [exc|[]].
      * destruct H as [-> _]. eauto.
      * destruct H as (present & last & _ & -> & _). eauto 10.
Qed.

Lemma parameters_located_sent kwargs check rg :
  parameters (located kwargs check rg) = payload_sent kwargs rg.
Proof.
  unfold located, default_location, payload_sent.
  change (parameters (prepared kwargs check))
    with (payload_of (given kwargs "location") (properties_of kwargs)).
  rewrite payload_of_lookup_location.
  destruct (given kwargs "location") as [v|] eqn:Hg; simpl.
  - change (parameters (prepared kwargs check))
      with (payload_of (given kwargs "location") (properties_of kwargs)).
    by rewrite Hg.
  - change (parameters (prepared kwargs check))
      with (payload_of (given kwargs "location") (properties_of kwargs)).
    by rewrite payload_of_location.
Qed.

Lemma aimed_polls kwargs tr present last ev :
  ev ∈ polls (fetch_call kwargs) present last → aimed kwargs tr ev.
Proof.
  induction present as [|a present IH]; simpl.
  - intros Hin. by apply list_elem_of_singleton in Hin as ->.
  - intros Hin. apply elem_of_cons in Hin as [->|Hin]; [done|].
    apply elem_of_cons in Hin as [->|Hin]; [done|]. auto.
Qed.

Lemma aimed_in_run kwargs check tr self' out ev :
  ansible_params kwargs →
  runs (invocation kwargs check) tr (self', out) →
  ev ∈ tr →
  aimed kwargs tr ev.
Proof.
  intros Hk Hrun Hin.
  apply (invocation_cases _ _ Hk) in Hrun
    as [(exc & -> & _)|[(rg & a & exc & -> & _)
                       |(rg & a & old & tr' & -> & Hres & Hrun)]].
  - by apply list_elem_of_singleton in Hin as ->.
  - apply elem_of_cons in Hin as [->|Hin]; [done|].
    by apply list_elem_of_singleton in Hin as ->.
  - apply elem_of_cons in Hin as [->|Hin]; [done|].
    apply elem_of_cons in Hin as [->|Hin]; [done|].
    destruct (decided_fields kwargs check rg old) as (Hrg & Hname & _ & _ & _ & Hpar).
    apply dispatch_shape in Hrun.
    unfold create_or_update_call, delete_call in Hrun.
    rewrite get_call_decided, Hrg, Hname, Hpar, parameters_located_sent in Hrun by done.
    assert (Hcu : ∀ answer,
      aimed kwargs
        (Event (lookup_call kwargs) (inr rg) :: Event (fetch_call kwargs) a :: tr')
        (Event (vaults_create_or_update (option_value kwargs "resource_group")
                  (option_value kwargs "vault_name") (payload_sent kwargs rg)) answer)).
    { intros answer. simpl. eauto. }
    destruct Hrun as [->|[(_ & _ & [(exc & ->)|[(d & ->)|(h & a' & ->)]])
                         |(_ & _ & [(exc & ->)|(present & last & ->)])]].
    + by apply elem_of_nil in Hin.
    + apply list_elem_of_singleton in Hin as ->. apply Hcu.
    + apply list_elem_of_singleton in Hin as ->. apply Hcu.
    + apply elem_of_cons in Hin as [->|Hin]; [apply Hcu|].
      by apply list_elem_of_singleton in Hin as ->.
    + by apply list_elem_of_singleton in Hin as ->.
    + apply elem_of_cons in Hin as [->|Hin]; [done|].
      by apply (aimed_polls _ _ present last).
Qed.

Lemma looked_up_app tr tr' answer :
  looked_up tr = Some answer → looked_up (tr ++ tr') = Some answer.
Proof.
  induction tr as [|[X e a] tr IH]; [done|]. simpl. destruct e; auto.
Qed.

Lemma fetched_app tr tr' answer :
  fetched tr = Some answer → fetched (tr ++ tr') = Some answer.
Proof.
  induction tr as [|[X e a] tr IH]; [done|]. simpl. destruct e; auto.
Qed.

Lemma aimed_looked_up kwargs tr1 tr2 ev :
  looked_up tr1 = looked_up tr2 → aimed kwargs tr1 ev → aimed kwargs tr2 ev.
Proof. intros H. destruct ev as [X e a]. destruct e; simpl; by rewrite ?H. Qed.

(** An invocation that makes a call first looks up the resource
    group. *)
Lemma first_call_is_lookup kwargs check tr self' out :
  ansible_params kwargs →
  runs (invocation kwargs check) tr (self', out) →
  ∃ answer, looked_up tr = Some answer ∧
            ∀ tr1 tr2, tr = tr1 ++ tr2 → tr1 ≠ [] → looked_up tr1 = Some answer.
Proof.
  intros Hk Hrun.
  assert (H : ∃ answer tr0, tr = Event (lookup_call kwargs) answer :: tr0).
  { apply (invocation_cases _ _ Hk) in Hrun
      as [(exc & -> & _)|[(rg & a & exc & -> & _)|(rg & a & old & tr' & -> & _)]]; eauto. }
  destruct H as (answer & tr0 & ->). exists answer. split; [done|].
  intros [|ev tr1] tr2 Heq Hne; [done|]. by injection Heq as <- _.
Qed.

(** X8.  Every call of an invocation, in a run that has ended or not,
    is aimed at what the options name: the lookup names [resource_group]; [vaults.get],
    [vaults.create_or_update] and [vaults.delete] name [resource_group]
    and [vault_name]; the payload of a create-or-update is the payload of
    the options, with the location of the resource group when [location]
    is not given, whatever the vault that was fetched; and every sleep
    lasts 20 seconds. *)
Theorem calls_are_aimed kwargs check tr ev :
  ansible_params kwargs →
  begins (invocation kwargs check) tr →
  ev ∈ tr →
  aimed kwargs tr ev.
Proof.
  intros Hk Hb Hin.
  destruct (invocation_can_always_end kwargs check tr Hb) as (tr' & [self' out] & Hrun).
  destruct (first_call_is_lookup _ _ _ _ _ Hk Hrun) as (answer & Hall & Hfirst).
  apply (aimed_looked_up kwargs (tr ++ tr')).
  - rewrite Hall. symmetry. apply (Hfirst tr tr'); [done|].
    intros ->. by apply elem_of_nil in Hin.
  - apply (aimed_in_run kwargs check _ self' out); [done|done|].
    apply elem_of_app. by left.
Qed.

Lemma run_update :
  runs (invocation kw_present false) trace_update (final_update, inr result_create).
Proof. apply (play_runs 20 script_update). vm_refl. Qed.

Lemma run_check :
  runs (invocation kw_present true) trace_check
    (final_check, inr {[ "changed" := VBool true ]}).
Proof. apply (play_runs 20 script_update). vm_refl. Qed.

Lemma run_delete :
  runs (invocation kw_absent false) trace_delete
    (final_delete, inr {[ "changed" := VBool true ]}).
Proof. apply (play_runs 20 script_delete). vm_refl. Qed.

Lemma begins_delete_unfinished :
  begins (invocation kw_absent false) (take 3 trace_delete).
Proof.
  apply (begins_app _ _ (drop 3 trace_delete)). exact (runs_begins _ _ _ run_delete).
Qed.

Lemma calls_are_aimed_witness :
  ansible_params kw_present ∧
  begins (invocation kw_present false) trace_update ∧
  aimed kw_present trace_update (Event create_or_update_kv1 (inr (Vault (kv1 "standard")))).
Proof.
  split; [apply ansible_params_options|].
  split; [exact (runs_begins _ _ _ run_update)|].
  refine (calls_are_aimed kw_present false trace_update _
            (ansible_params_options _ _ _) (runs_begins _ _ _ run_update) _).
  unfold trace_update. rewrite !elem_of_cons. auto.
Defined.

Lemma calls_is_mutating tr :
  calls is_mutating tr = calls is_create_or_update tr + calls is_delete tr.
Proof.
  unfold calls. induction tr as [|[X e a] tr IH]; [done|].
  destruct e; simpl in *; lia.
Qed.

Lemma ansible_params_dec kwargs : Decision (ansible_params kwargs).
Proof.
  destruct (decide (Forall (λ key, is_Some (kwargs !! key)) module_arg_spec_keys))
    as [H|H]; [left|right]; by rewrite ansible_params_Forall.
Qed.

Lemma mutating_calls_of_run kwargs check tr self' out :
  runs (invocation kwargs check) tr (self', out) →
  calls is_mutating tr =
    (if check then 0 else if bool_decide (to_do self' = NoAction) then 0 else 1) ∧
  (calls is_create_or_update tr = 0 ∨ calls is_delete tr = 0).
Proof.
  intros Hrun. rewrite calls_is_mutating.
  destruct (ansible_params_dec kwargs) as [Hk|Hk].
  - apply (invocation_cases _ _ Hk) in Hrun
      as [(exc & -> & -> & _)|[(rg & a & exc & -> & _ & -> & _)
                              |(rg & a & old & tr' & -> & Hres & Hrun)]].
    + split; [by destruct check|by left].
    + destruct (located_fields kwargs check rg) as (_ & _ & _ & -> & _).
      split; [by destruct check|by left].
    + pose proof (dispatch_frame _ _ _ _ _ Hrun) as [res' Hself].
      assert (Htodo : to_do self' = to_do (decided kwargs check rg old)) by (by subst).
      destruct (decided_fields kwargs check rg old) as (_ & _ & _ & Hcheck & _).
      apply dispatch_trace in Hrun as (_ & Hcu & Hdel).
      rewrite Hcheck in Hcu, Hdel. rewrite Htodo.
      change (calls ?k (Event (lookup_call kwargs) (inr rg) ::
                        Event (fetch_call kwargs) a :: tr')) with (calls k tr').
      rewrite Hcu, Hdel.
      destruct check; [by auto|].
      destruct (to_do (decided kwargs false rg old)); simpl; auto.
  - destruct (invocation_missing kwargs check Hk) as (key & seen & _ & _ & H).
    apply H in Hrun as [-> [= -> _]]. split; [by destruct check|by left].
Qed.

(** X9.  An invocation changes the vault at most once: it makes one
    call that changes the vault ([vaults.create_or_update] or
    [vaults.delete], never both) when it is not in check mode and the
    action chosen is not [NoAction], and none otherwise.  This holds for
    every [kwargs] and every answer of the service. *)
Theorem one_mutating_call_at_most kwargs check tr self' out :
  runs (invocation kwargs check) tr (self', out) →
  calls is_mutating tr =
    (if check then 0 else if bool_decide (to_do self' = NoAction) then 0 else 1) ∧
  (calls is_create_or_update tr = 0 ∨ calls is_delete tr = 0).
Proof. apply mutating_calls_of_run. Qed.

Lemma one_mutating_call_at_most_witness :
  calls is_mutating trace_delete = 1 ∧
  (calls is_create_or_update trace_delete = 0 ∨ calls is_delete trace_delete = 0).
Proof.
  exact (one_mutating_call_at_most kw_absent false trace_delete final_delete _ run_delete).
Defined.

(** X18.  Also in a run that has not ended (the poll after a delete
    may never end), the vault is changed at most once: the calls made so
    far hold at most one call that changes the vault, never both a
    create-or-update and a delete, and none at all in check mode. *)
Theorem unfinished_runs_change_the_vault_once kwargs check tr :
  begins (invocation kwargs check) tr →
  calls is_mutating tr ≤ 1 ∧
  (check = true → calls is_mutating tr = 0) ∧
  (calls is_create_or_update tr = 0 ∨ calls is_delete tr = 0).
Proof.
  intros Hb.
  destruct (invocation_can_always_end kwargs check tr Hb) as (tr' & [self' out] & Hrun).
  destruct (mutating_calls_of_run _ _ _ _ _ Hrun) as [Hcount Hone].
  rewrite !calls_app in *. split; [|split].
  - destruct check; [lia|]. destruct (bool_decide _); lia.
  - intros ->. lia.
  - destruct Hone; [left|right]; lia.
Qed.

Lemma unfinished_runs_change_the_vault_once_witness :
  begins (invocation kw_absent false) (take 3 trace_delete) ∧
  calls is_mutating (take 3 trace_delete) ≤ 1.
Proof.
  split; [exact begins_delete_unfinished|].
  exact (proj1 (unfinished_runs_change_the_vault_once kw_absent false
                  (take 3 trace_delete) begins_delete_unfinished)).
Defined.

Lemma state_bounds_run kwargs check tr self' out :
  runs (invocation kwargs check) tr (self', out) →
  (option_value kwargs "state" = VStr "absent" → calls is_create_or_update tr = 0) ∧
  (option_value kwargs "state" ≠ VStr "absent" → calls is_delete tr = 0) ∧
  (∀ answer, fetched tr = Some answer → reports_absent answer →
             calls is_delete tr = 0).
Proof.
  intros Hrun.
  destruct (ansible_params_dec kwargs) as [Hk|Hk].
  - apply (invocation_cases _ _ Hk) in Hrun
      as [(exc & -> & _)|[(rg & a & exc & -> & Hres & _)
                         |(rg & a & old & tr' & -> & Hres & Hrun)]].
    + repeat split; done.
    + repeat split; done.
    + destruct (decided_fields kwargs check rg old) as (_ & _ & _ & Hcheck & _).
      pose proof (to_do_decided kwargs check rg old) as Hsel. unfold selected in Hsel.
      apply dispatch_trace in Hrun as (_ & Hcu & Hdel).
      rewrite Hcheck in Hcu, Hdel.
      change (calls ?k (Event (lookup_call kwargs) (inr rg) ::
                        Event (fetch_call kwargs) a :: tr')) with (calls k tr').
      rewrite Hcu, Hdel, Hsel. clear Hcu Hdel Hsel.
      split; [|split].
      * intros ->. simpl. by destruct check, (truthy old).
      * intros Hs. apply value_eqb_neq in Hs. rewrite Hs.
        destruct check; [done|].
        by destruct (truthy old),
          (value_eqb (option_value kwargs "state") (VStr "present")).
      * intros answer [= <-] Habs. unfold reports_absent in Habs.
        rewrite Hres in Habs. rewrite Habs.
        destruct check; [done|].
        by destruct (value_eqb (option_value kwargs "state") (VStr "absent")).
  - destruct (invocation_missing kwargs check Hk) as (key & seen & _ & _ & H).
    apply H in Hrun as [-> _]. repeat split; done.
Qed.

(** X10.  The desired state bounds what an invocation may do to the
    vault, in a run that has ended or not: with [state] [absent] it never calls
    [vaults.create_or_update]; with any other [state] it never calls
    [vaults.delete]; and a vault that the fetch reports absent is never
    deleted. *)
Theorem desired_state_bounds_the_calls kwargs check tr :
  begins (invocation kwargs check) tr →
  (option_value kwargs "state" = VStr "absent" → calls is_create_or_update tr = 0) ∧
  (option_value kwargs "state" ≠ VStr "absent" → calls is_delete tr = 0) ∧
  (∀ answer, fetched tr = Some answer → reports_absent answer →
             calls is_delete tr = 0).
Proof.
  intros Hb.
  destruct (invocation_can_always_end kwargs check tr Hb) as (tr' & [self' out] & Hrun).
  destruct (state_bounds_run _ _ _ _ _ Hrun) as (Hcu & Hdel & Habs).
  rewrite !calls_app in *. split; [|split].
  - intros Hs. specialize (Hcu Hs). lia.
  - intros Hs. specialize (Hdel Hs). lia.
  - intros answer Hf Ha.
    specialize (Habs answer (fetched_app _ tr' _ Hf) Ha). lia.
Qed.

Lemma desired_state_bounds_the_calls_witness :
  begins (invocation kw_absent false) (take 3 trace_delete) ∧
  calls is_create_or_update (take 3 trace_delete) = 0.
Proof.
  split; [exact begins_delete_unfinished|].
  exact (proj1 (desired_state_bounds_the_calls kw_absent false (take 3 trace_delete)
                  begins_delete_unfinished) eq_refl).
Defined.

Lemma operation_polls get present last ev :
  ev ∈ polls get present last →
  operation ev = operation (Event get last) ∨ operation ev = "time.sleep".
Proof.
  induction present as [|a present IH]; simpl.
  - intros Hin. apply list_elem_of_singleton in Hin as ->. by left.
  - intros Hin. apply elem_of_cons in Hin as [->|Hin]; [by left|].
    apply elem_of_cons in Hin as [->|Hin]; [by right|]. auto.
Qed.

Lemma elem_of_middle {A} (l pre post : list A) (x : A) :
  l = pre ++ x :: post → x ∈ l.
Proof. intros ->. apply elem_of_app. right. apply list_elem_of_here. Qed.

Lemma cons_middle {A} (x y : A) (l pre post : list A) :
  x :: l = pre ++ y :: post →
  (pre = [] ∧ x = y ∧ l = post) ∨ (∃ pre', pre = x :: pre' ∧ l = pre' ++ y :: post).
Proof.
  destruct pre as [|z pre]; simpl; intros [= -> ->]; [by left|right; eauto].
Qed.

Lemma nil_middle {A} (y : A) (pre post : list A) : [] = pre ++ y :: post → False.
Proof. by destruct pre. Qed.

Lemma Event_inv {X} (e1 e2 : remoteE X) (a1 a2 : X) :
  Event e1 a1 = Event e2 a2 → e1 = e2 ∧ a1 = a2.
Proof. intros H. inversion H. inj_existT. by subst. Qed.

(** Find an event in a trace that is written out: at each place, either
    the event is the one looked for, or it calls another operation. *)
Ltac find_event H :=
  lazymatch type of H with
  | [] = _ ++ _ :: _ => destruct (nil_middle _ _ _ H)
  | _ :: _ = _ ++ _ :: _ =>
      let Hev := fresh "Hev" in
      apply cons_middle in H as [(-> & Hev & <-)|(? & -> & H)];
      [ try (apply (f_equal operation) in Hev; discriminate Hev)
      | find_event H ]
  | _ => idtac
  end.

(** X11.  The poller of a create-or-update is waited for, once and at
    once: when [vaults.create_or_update] hands back an
    [AzureOperationPoller], the next call is [get_poller_result] on that
    poller and it is the last call of the invocation; and
    [get_poller_result] is called in no other place. *)
Theorem poller_is_waited_for kwargs check tr self' out :
  ansible_params kwargs →
  runs (invocation kwargs check) tr (self', out) →
  (∀ pre rg name payload handle post,
     tr = pre ++ Event (vaults_create_or_update rg name payload)
                   (inr (AzureOperationPoller handle)) :: post →
     ∃ answer, post = [Event (get_poller_result handle) answer]) ∧
  (∀ pre handle answer post,
     tr = pre ++ Event (get_poller_result handle) answer :: post →
     post = [] ∧
     ∃ pre' rg name payload,
       pre = pre' ++ [Event (vaults_create_or_update rg name payload)
                        (inr (AzureOperationPoller handle))]).
Proof.
  intros Hk Hrun.
  apply (invocation_cases _ _ Hk) in Hrun
    as [(exc & -> & _)|[(rg & a & exc & -> & _)
                       |(rg & a & old & tr' & -> & Hres & Hrun)]].
  - split; intros * Heq; find_event Heq.
  - split; intros * Heq; find_event Heq.
  - apply dispatch_shape in Hrun.
    unfold create_or_update_call, delete_call in Hrun.
    destruct Hrun as [->|[(_ & _ & [(exc & ->)|[(d & ->)|(h & a' & ->)]])
                         |(_ & _ & [(exc & ->)|(present & last & ->)])]].
    + split; intros * Heq; find_event Heq.
    + split; intros * Heq; find_event Heq.
      by apply Event_inv in Hev as [_ [=]].
    + split; intros * Heq; find_event Heq.
      by apply Event_inv in Hev as [_ [=]].
    + split; intros * Heq; find_event Heq.
      * apply Event_inv in Hev as [_ [= ->]]. eauto.
      * apply Event_inv in Hev as [[= ->] ->].
        split; [done|]. by eexists [_; _], _, _, _.
    + split; intros * Heq; find_event Heq.
    + split; intros * Heq; apply elem_of_middle in Heq;
        repeat (apply elem_of_cons in Heq as [Heq|Heq];
                [apply (f_equal operation) in Heq; discriminate Heq|]);
        apply operation_polls in Heq as [Heq|Heq]; discriminate Heq.
Qed.

Lemma run_poller :
  runs (invocation kw_present false) trace_poller (final_create, inr result_create).
Proof. apply (play_runs 20 script_poller). vm_refl. Qed.

Lemma poller_is_waited_for_witness :
  ansible_params kw_present ∧
  runs (invocation kw_present false) trace_poller (final_create, inr result_create) ∧
  ∃ answer, drop 3 trace_poller = [Event (get_poller_result 7) answer].
Proof.
  split; [apply ansible_params_options|]. split; [exact run_poller|].
  exact (proj1 (poller_is_waited_for kw_present false trace_poller final_create _
                  (ansible_params_options _ _ _) run_poller)
           (take 2 trace_poller) (VStr "rg1") (VStr "kv1") payload_kv1 7
           (drop 3 trace_poller) eq_refl).
Defined.

(* ================================================================== *)
(** * What an invocation returns *)
(* ================================================================== *)

Lemma created_polls rg name present last :
  created (polls (vaults_get rg name) present last) = None.
Proof. induction present as [|a present IH]; [done|]. simpl. exact IH. Qed.

Lemma get_keyvault_result_truthy answer old_response :
  get_keyvault_result answer = inr old_response →
  truthy old_response = true →
  ∃ old, answer = inr old ∧ old_response = VDict old ∧ old ≠ ∅.
Proof.
  destruct answer as [exc|old]; simpl.
  - destruct (isinstance_CloudError exc); [|done]. by intros [= <-].
  - intros [= <-] Ht. exists old. split; [done|]. split; [done|]. by apply truthy_dict.
Qed.

(** What the end of [exec_module] returns for the vault a
    create-or-update handed back. *)
Lemma exec_module_end_result_created new self res b :
  results self = {[ "changed" := VBool b ]} →
  (exec_module_end_result (VDict new) self).2 = inr res →
  res = reported b (new !! "id").
Proof.
  intros Hres. unfold exec_module_end_result.
  destruct (truthy (VDict new)) eqn:Ht.
  - destruct (new !! "id") as [id|]; [|done]. intros [= <-]. by rewrite Hres.
  - intros [= <-]. rewrite Hres.
    assert (new = ∅) as ->; [|done].
    destruct (decide (new = ∅)) as [|Hne]; [done|].
    apply truthy_dict in Hne. congruence.
Qed.

(** X12.  With [state] [present] or [absent], the result an
    invocation returns holds [changed] and nothing else, except after a
    create-or-update: then it also holds the [id] of the vault that was
    handed back (when that vault has one).  [changed] is false in two
    cases only: no action was chosen, or an update outside check mode
    handed back a vault equal to the one that was fetched. *)
Theorem result_is_changed_and_id kwargs check tr self' res :
  ansible_params kwargs →
  option_value kwargs "state" = VStr "present" ∨
  option_value kwargs "state" = VStr "absent" →
  runs (invocation kwargs check) tr (self', inr res) →
  ∃ changed,
    res = reported changed (created tr ≫= (.!! "id")) ∧
    (changed = false ↔
     to_do self' = NoAction ∨
     (to_do self' = Update ∧ check = false ∧ fetched tr = inr <$> created tr)).
Proof.
  intros Hk Hstate Hrun.
  apply (invocation_cases _ _ Hk) in Hrun
    as [(exc & _ & _ & [=])|[(rg & a & exc & _ & _ & _ & [=])
                            |(rg & a & old & tr' & -> & Hres & Hrun)]].
  pose proof (dispatch_frame _ _ _ _ _ Hrun) as [res' Hself].
  assert (Htodo : to_do self' = to_do (decided kwargs check rg old)) by (by subst).
  destruct (decided_fields kwargs check rg old) as (_ & _ & _ & Hcheck & Hresults & _).
  pose proof (to_do_decided kwargs check rg old) as Hsel. unfold selected in Hsel.
  change (created (Event (lookup_call kwargs) (inr rg) ::
                   Event (fetch_call kwargs) a :: tr')) with (created tr').
  change (fetched (Event (lookup_call kwargs) (inr rg) ::
                   Event (fetch_call kwargs) a :: tr')) with (Some a).
  rewrite Htodo. clear Htodo Hself res'.
  destruct (to_do (decided kwargs check rg old)) eqn:Hdo.
  - (* NoAction *)
    apply (runs_dispatch_no_action _ _ _ _ Hdo) in Hrun as [-> Heq].
    assert (Hfalse : truthy old = false).
    { destruct (truthy old); [|done].
      by destruct Hstate as [Hs|Hs]; rewrite Hs in Hsel. }
    unfold exec_module_end_result in Heq. rewrite Hfalse in Heq.
    injection Heq as _ ->. rewrite Hresults, insert_singleton_eq.
    exists false. split; [done|]. split; auto.
  - (* Create *)
    assert (Hfalse : truthy old = false).
    { destruct (truthy old); [|done].
      by destruct Hstate as [Hs|Hs]; rewrite Hs in Hsel. }
    destruct check.
    + apply (runs_dispatch_check_create_update _ _ _ _ (or_introl Hdo) Hcheck) in Hrun
        as [-> Heq].
      injection Heq as _ ->. rewrite Hresults, insert_singleton_eq.
      exists true. split; [done|]. split; [done|]. by intros [|(? & _)].
    + apply (runs_dispatch_create_update _ _ _ _ (or_introl Hdo) Hcheck) in Hrun
        as (o & Hrun & Hout).
      apply created_create_update in Hrun as [_ Hcreated].
      destruct o as [exc|response]; [done|].
      destruct (Hcreated response eq_refl) as (new & -> & ->).
      exists true. split; [|split; [done|by intros [|(? & _)]]].
      apply (f_equal snd) in Hout. simpl in Hout. symmetry in Hout.
      apply (exec_module_end_result_created _ _ _ true) in Hout; [done|].
      unfold changed_after. rewrite Hfalse. apply results_decided_changed.
  - (* Update *)
    assert (Htrue : truthy old = true).
    { destruct (truthy old); [done|].
      by destruct Hstate as [Hs|Hs]; rewrite Hs in Hsel. }
    destruct check.
    + apply (runs_dispatch_check_create_update _ _ _ _ (or_intror Hdo) Hcheck) in Hrun
        as [-> Heq].
      injection Heq as _ ->. rewrite Hresults, insert_singleton_eq.
      exists true. split; [done|]. split; [done|]. by intros [|(_ & ? & _)].
    + apply (runs_dispatch_create_update _ _ _ _ (or_intror Hdo) Hcheck) in Hrun
        as (o & Hrun & Hout).
      apply created_create_update in Hrun as [_ Hcreated].
      destruct o as [exc|response]; [done|].
      destruct (Hcreated response eq_refl) as (new & -> & ->).
      destruct (get_keyvault_result_truthy _ _ Hres Htrue) as (oldd & -> & -> & Hne).
      exists (negb (value_eqb (VDict oldd) (VDict new))). split.
      * apply (f_equal snd) in Hout. simpl in Hout. symmetry in Hout.
        apply (exec_module_end_result_created _ _ _
                 (negb (value_eqb (VDict oldd) (VDict new)))) in Hout; [done|].
        unfold changed_after. rewrite Htrue. apply results_decided_changed.
      * rewrite negb_false_iff, value_eqb_eq. split.
        -- intros [= ->]. right. done.
        -- intros [|(_ & _ & [= ->])]; done.
  - (* Delete *)
    destruct check.
    + apply (runs_dispatch_check_delete _ _ _ _ Hdo Hcheck) in Hrun as [-> Heq].
      injection Heq as _ ->. rewrite Hresults, insert_singleton_eq.
      exists true. split; [done|]. split; [done|]. by intros [|(? & _)].
    + apply (runs_dispatch_delete _ _ _ _ Hdo Hcheck) in Hrun
        as (answer & tr'' & -> & Hrun).
      destruct answer as [exc|[]]; [by destruct Hrun as [_ [=]]|].
      destruct Hrun as (present & last & _ & -> & [[_ Heq]|(exc & _ & [=])]).
      injection Heq as _ ->. rewrite Hresults, insert_singleton_eq.
      unfold get_call. change (created (Event ?e (inr ()) :: ?l)) with (created l).
      rewrite created_polls.
      exists true. split; [done|]. split; [done|]. by intros [|(? & _)].
Qed.

Lemma result_is_changed_and_id_witness :
  ansible_params kw_present ∧
  ∃ changed,
    result_create = reported changed (created trace_update ≫= (.!! "id")) ∧
    (changed = false ↔
     to_do final_update = NoAction ∨
     (to_do final_update = Update ∧ false = false ∧
      fetched trace_update = inr <$> created trace_update)).
Proof.
  split; [apply ansible_params_options|].
  exact (result_is_changed_and_id kw_present false trace_update final_update result_create
           (ansible_params_options _ _ _) (or_introl eq_refl) run_update).
Defined.

Lemma created_create_update_raised self tr exc :
  runs (create_update_keyvault self) tr (self, inl exc) → created tr = None.
Proof.
  intros H. apply runs_create_update_keyvault in H as ([e|[d|h]] & H).
  - by destruct H as [-> _].
  - by destruct H as [_ [=]].
  - destruct H as ([e|d] & -> & Heq); [done|by injection Heq].
Qed.

(** X13.  When a create-or-update hands back a vault that is not empty
    and has no [id], [response["id"]] raises: the invocation ends with
    [KeyError], after the one create-or-update call has been made. *)
Theorem vault_without_id_raises kwargs check tr self' out new :
  ansible_params kwargs →
  runs (invocation kwargs check) tr (self', out) →
  created tr = Some new →
  new ≠ ∅ →
  new !! "id" = None →
  out = inl (KeyError "id") ∧ calls is_create_or_update tr = 1.
Proof.
  intros Hk Hrun Hcreated Hne Hid.
  apply (invocation_cases _ _ Hk) in Hrun
    as [(exc & -> & _)|[(rg & a & exc & -> & _)
                       |(rg & a & old & tr' & -> & Hres & Hrun)]]; [done..|].
  change (created tr' = Some new) in Hcreated.
  change (calls is_create_or_update
            (Event (lookup_call kwargs) (inr rg) :: Event (fetch_call kwargs) a :: tr'))
    with (calls is_create_or_update tr').
  destruct (decided_fields kwargs check rg old) as (_ & _ & _ & Hcheck & _).
  assert (Hcu : to_do (decided kwargs check rg old) = Create ∨
                to_do (decided kwargs check rg old) = Update →
                out = inl (KeyError "id") ∧ calls is_create_or_update tr' = 1).
  { intros Htodo. destruct check.
    - by apply (runs_dispatch_check_create_update _ _ _ _ Htodo Hcheck) in Hrun as [-> _].
    - apply (runs_dispatch_create_update _ _ _ _ Htodo Hcheck) in Hrun
        as (o & Hrun & Hout).
      destruct o as [exc|response].
      + apply created_create_update_raised in Hrun. congruence.
      + apply created_create_update in Hrun as [Hcalls Hnew]. split; [|done].
        destruct (Hnew response eq_refl) as (new' & -> & Hnew').
        assert (new' = new) as -> by congruence.
        unfold exec_module_end_result in Hout.
        rewrite (proj2 (truthy_dict new) Hne), Hid in Hout. by injection Hout as _ ->. }
  destruct (to_do (decided kwargs check rg old)) eqn:Hdo; [|by auto|by auto|].
  - by apply (runs_dispatch_no_action _ _ _ _ Hdo) in Hrun as [-> _].
  - destruct check.
    + by apply (runs_dispatch_check_delete _ _ _ _ Hdo Hcheck) in Hrun as [-> _].
    + apply (runs_dispatch_delete _ _ _ _ Hdo Hcheck) in Hrun
        as (answer & tr'' & -> & Hrun).
      destruct answer as [exc|[]]; [by destruct Hrun as [-> _]|].
      destruct Hrun as (present & last & _ & -> & _).
      unfold get_call in Hcreated.
      change (created (Event ?e (inr ()) :: ?l)) with (created l) in Hcreated.
      by rewrite created_polls in Hcreated.
Qed.

Lemma run_create_no_id :
  runs (invocation kw_present false) trace_create_no_id
    (final_create_no_id, inl (KeyError "id")).
Proof. apply (play_runs 20 script_create_no_id). vm_refl. Qed.

Lemma vault_without_id_raises_witness :
  ansible_params kw_present ∧
  runs (invocation kw_present false) trace_create_no_id
    (final_create_no_id, inl (KeyError "id")) ∧
  calls is_create_or_update trace_create_no_id = 1.
Proof.
  split; [apply ansible_params_options|]. split; [exact run_create_no_id|].
  refine (proj2 (vault_without_id_raises kw_present false trace_create_no_id
                   final_create_no_id _ (delete "id" (kv1 "standard"))
                   (ansible_params_options _ _ _) run_create_no_id eq_refl _ _)).
  - intros He. apply (f_equal (λ d : dict, d !! "name")) in He. discriminate He.
  - apply lookup_delete_eq.
Defined.

(** X14.  A [state] that is neither [present] nor [absent] (the
    choices of [module_arg_spec] rule it out; [exec_module] itself does
    not): a vault reported absent is created, as for [present]; a vault
    reported present is left alone, with no call after the fetch, and the
    invocation returns [changed = false] with the [id] of the vault that
    was fetched (or raises [KeyError] when that vault has no [id]). *)
Theorem other_state_creates_or_keeps kwargs check tr self' out answer :
  ansible_params kwargs →
  option_value kwargs "state" ≠ VStr "present" →
  option_value kwargs "state" ≠ VStr "absent" →
  runs (invocation kwargs check) tr (self', out) →
  fetched tr = Some answer →
  (reports_absent answer → to_do self' = Create) ∧
  (∀ old, answer = inr old → old ≠ ∅ →
     to_do self' = NoAction ∧
     (∃ rg, tr = [Event (lookup_call kwargs) (inr rg); Event (fetch_call kwargs) answer]) ∧
     out = match old !! "id" with
           | Some id => inr (reported false (Some id))
           | None => inl (KeyError "id")
           end).
Proof.
  intros Hk Hp Ha Hrun Hfetched.
  apply value_eqb_neq in Hp, Ha.
  apply (invocation_cases _ _ Hk) in Hrun
    as [(exc & -> & _)|[(rg & a & exc & -> & Hres & _)
                       |(rg & a & old_response & tr' & -> & Hres & Hrun)]].
  - done.
  - injection Hfetched as ->. split.
    + unfold reports_absent. by rewrite Hres.
    + intros old ->. done.
  - injection Hfetched as ->.
    pose proof (dispatch_frame _ _ _ _ _ Hrun) as [res' Hself].
    assert (Htodo : to_do self' = to_do (decided kwargs check rg old_response))
      by (by subst).
    pose proof (to_do_decided kwargs check rg old_response) as Hsel.
    unfold selected in Hsel. rewrite Hp, Ha in Hsel. rewrite Htodo. split.
    + unfold reports_absent. rewrite Hres. intros Ht. by rewrite Ht in Hsel.
    + intros old -> Hne. simpl in Hres. injection Hres as <-.
      rewrite (proj2 (truthy_dict old) Hne) in Hsel. split; [done|].
      apply (runs_dispatch_no_action _ _ _ _ Hsel) in Hrun as [-> Heq].
      split; [by exists rg|].
      unfold exec_module_end_result in Heq.
      rewrite (proj2 (truthy_dict old) Hne) in Heq.
      destruct (decided_fields kwargs check rg (VDict old))
        as (_ & _ & _ & _ & Hresults & _).
      destruct (old !! "id") as [id|]; injection Heq as _ ->; [|done].
      simpl. by rewrite Hresults, insert_singleton_eq.
Qed.

Lemma run_stopped :
  runs (invocation kw_stopped false) trace_check
    (final_stopped,
     inr (reported false
            (Some (VStr "/subscriptions/s/resourceGroups/rg1/providers/Microsoft.KeyVault/vaults/kv1")))).
Proof. apply (play_runs 20 script_update). vm_refl. Qed.

Lemma other_state_creates_or_keeps_witness :
  ansible_params kw_stopped ∧
  to_do final_stopped = NoAction ∧
  ∃ rg, trace_check =
          [Event (lookup_call kw_stopped) (inr rg);
           Event (fetch_call kw_stopped) (inr (kv1 "premium"))].
Proof.
  split; [apply ansible_params_options|].
  destruct (proj2 (other_state_creates_or_keeps kw_stopped false trace_check final_stopped _
                     (inr (kv1 "premium")) (ansible_params_options _ _ _)
                     ltac:(discriminate) ltac:(discriminate) run_stopped eq_refl)
              (kv1 "premium") eq_refl) as (Htodo & Htrace & _).
  - intros He. apply (f_equal (λ d : dict, d !! "id")) in He. discriminate He.
  - exact (conj Htodo Htrace).
Defined.

(** X15.  Check mode foretells the real run.  Take a run in check mode
    and a run outside check mode of the same options that get the same
    answers from the lookup and from the fetch.  Then the calls of the
    check-mode run are the first calls of the real run, both choose the
    same action, a real run that returns [changed = true] is foretold by
    [changed = true], and a check-mode run that returns [changed = false]
    is the real run: same calls, same outcome. *)
Theorem check_mode_foretells kwargs tr_check self_check out_check tr self' out :
  ansible_params kwargs →
  runs (invocation kwargs true) tr_check (self_check, out_check) →
  runs (invocation kwargs false) tr (self', out) →
  looked_up tr_check = looked_up tr →
  fetched tr_check = fetched tr →
  tr_check `prefix_of` tr ∧
  to_do self_check = to_do self' ∧
  (∀ res, out = inr res →
     ∃ res_check, out_check = inr res_check ∧
       (res !! "changed" = Some (VBool true) →
        res_check !! "changed" = Some (VBool true))) ∧
  (∀ res_check, out_check = inr res_check →
     res_check !! "changed" = Some (VBool false) →
     tr = tr_check ∧ out = out_check).
Proof.
  intros Hk Hc Hr Hlook Hfetch.
  apply (invocation_cases _ _ Hk) in Hc
    as [(exc & -> & -> & ->)|[(rg & a & exc & -> & Hres & -> & ->)
                             |(rg & a & old & trc & -> & Hres & Hc)]];
  apply (invocation_cases _ _ Hk) in Hr
    as [(exc' & -> & -> & ->)|[(rg' & a' & exc' & -> & Hres' & -> & ->)
                              |(rg' & a' & old' & tr' & -> & Hres' & Hr)]];
  try discriminate Hlook; try discriminate Hfetch.
  - injection Hlook as ->. split; [done|]. split; [done|]. split; [done|]. done.
  - injection Hlook as ->. injection Hfetch as ->.
    destruct (located_fields kwargs true rg') as (_ & _ & _ & -> & _).
    destruct (located_fields kwargs false rg') as (_ & _ & _ & -> & _).
    split; [done|]. split; [done|]. split; [done|]. done.
  - injection Hlook as ->. injection Hfetch as ->. congruence.
  - injection Hlook as ->. injection Hfetch as ->. congruence.
  - injection Hlook as ->. injection Hfetch as ->.
    assert (old' = old) as -> by congruence. clear Hres'.
    pose proof (dispatch_frame _ _ _ _ _ Hc) as [resc Hselfc].
    pose proof (dispatch_frame _ _ _ _ _ Hr) as [resr Hselfr].
    assert (Htodoc : to_do self_check = selected old (option_value kwargs "state")).
    { rewrite Hselfc. simpl. by apply to_do_decided. }
    assert (Htodor : to_do self' = selected old (option_value kwargs "state")).
    { rewrite Hselfr. simpl. by apply to_do_decided. }
    pose proof (to_do_decided kwargs true rg' old) as Hdc.
    pose proof (to_do_decided kwargs false rg' old) as Hdr.
    destruct (decided_fields kwargs true rg' old) as (_ & _ & _ & Hcheckc & Hresc & _).
    destruct (decided_fields kwargs false rg' old) as (_ & _ & _ & Hcheckr & Hresr & _).
    assert (Hno : selected old (option_value kwargs "state") = NoAction →
                  trc = [] ∧ tr' = [] ∧ out = out_check).
    { intros Hsel. rewrite Hsel in Hdc, Hdr.
      apply (runs_dispatch_no_action _ _ _ _ Hdc) in Hc as [-> Hc].
      apply (runs_dispatch_no_action _ _ _ _ Hdr) in Hr as [-> Hr].
      split; [done|]. split; [done|].
      apply (f_equal snd) in Hc, Hr. simpl in Hc, Hr. rewrite Hc, Hr.
      unfold exec_module_end_result, with_changed. simpl. rewrite Hresc, Hresr.
      destruct (truthy old); [|done]. destruct old as [| | | |d]; try done.
      by destruct (d !! "id"). }
    assert (Hyes : selected old (option_value kwargs "state") ≠ NoAction →
                   trc = [] ∧ out_check = inr {[ "changed" := VBool true ]}).
    { intros Hsel. destruct (selected old (option_value kwargs "state")) eqn:Hs;
        [done| | |].
      - apply (runs_dispatch_check_create_update _ _ _ _ (or_introl Hdc) Hcheckc) in Hc
          as [-> [= _ ->]]. by rewrite Hresc, insert_singleton_eq.
      - apply (runs_dispatch_check_create_update _ _ _ _ (or_intror Hdc) Hcheckc) in Hc
          as [-> [= _ ->]]. by rewrite Hresc, insert_singleton_eq.
      - apply (runs_dispatch_check_delete _ _ _ _ Hdc Hcheckc) in Hc
          as [-> [= _ ->]]. by rewrite Hresc, insert_singleton_eq. }
    rewrite Htodoc, Htodor.
    destruct (decide (selected old (option_value kwargs "state") = NoAction)) as [Hs|Hs].
    + destruct (Hno Hs) as (-> & -> & ->). split; [done|]. split; [done|].
      split; [eauto|done].
    + destruct (Hyes Hs) as (-> & ->). split.
      { by apply prefix_cons, prefix_cons, prefix_nil. }
      split; [done|]. split.
      * intros res _. eexists. split; [done|]. by intros _.
      * by intros res_check [= <-].
Qed.

Lemma check_mode_foretells_witness :
  ansible_params kw_present ∧
  trace_check `prefix_of` trace_update ∧
  to_do final_check = to_do final_update.
Proof.
  split; [apply ansible_params_options|].
  destruct (check_mode_foretells kw_present trace_check final_check _
              trace_update final_update _
              (ansible_params_options _ _ _) run_check run_update eq_refl eq_refl)
    as (Hprefix & Htodo & _).
  exact (conj Hprefix Htodo).
Defined.

(** X16.  No [CloudError] of a call on the vault leaves an
    invocation: when an invocation ends with a [CloudError], the lookup
    of the resource group raised it, and that lookup was the only
    call. *)
Theorem CloudError_only_from_lookup kwargs check tr self' exc :
  runs (invocation kwargs check) tr (self', inl exc) →
  isinstance_CloudError exc = true →
  tr = [Event (lookup_call kwargs) (inl exc)].
Proof.
  intros Hrun Hcloud.
  destruct (ansible_params_dec kwargs) as [Hk|Hk].
  - apply (invocation_cases _ _ Hk) in Hrun
      as [(e & -> & _ & [= ->])|[(rg & a & e & -> & Hres & _ & [= ->])
                               |(rg & a & old & tr' & -> & Hres & Hrun)]].
    + done.
    + apply get_keyvault_result_raised in Hres. congruence.
    + apply dispatch_no_CloudError in Hrun. congruence.
  - destruct (invocation_missing kwargs check Hk) as (key & seen & _ & _ & H).
    apply H in Hrun as [_ [= _ ->]]. done.
Qed.

Lemma run_lookup_refused :
  runs (invocation kw_present false) trace_lookup_refused
    (prepared kw_present false,
     inl (CloudError "resource group rg1 could not be found")).
Proof. apply (play_runs 20 script_lookup_refused). vm_refl. Qed.

Lemma CloudError_only_from_lookup_witness :
  runs (invocation kw_present false) trace_lookup_refused
    (prepared kw_present false,
     inl (CloudError "resource group rg1 could not be found")) ∧
  trace_lookup_refused =
    [Event (lookup_call kw_present)
       (inl (CloudError "resource group rg1 could not be found"))].
Proof.
  split; [exact run_lookup_refused|].
  exact (CloudError_only_from_lookup kw_present false trace_lookup_refused _ _
           run_lookup_refused eq_refl).
Defined.
